(** * The Hypercore log facade (index.js), embedded in Rocq

    The class [Hypercore] of [index.js] is the public facade over three
    collaborators that live outside that file: the Core engine (Merkle
    tree, bitfield, block storage), the Replicator and the value codecs.
    The facade's own code is embedded here function by function; the
    collaborators appear as records of the operations the facade calls.

    JavaScript numbers that hold indices, lengths and forks are modelled as
    [Z]; buffers are lists of bytes; a promise that settles is a
    [completion]: [Normal v] when it resolves (or a synchronous function
    returns) and [Throw e] when it rejects (or throws). *)

From Stdlib Require Import ZArith List String Bool Lia.
From Stdlib.Strings Require Import Byte.
From stdpp Require Import gmap list.

Local Open Scope Z_scope.

(** ** JavaScript values *)

Definition bytes := list byte.

(** The values that travel through [append] and [get]. *)
Inductive value :=
| VNull
| VBool (b : bool)
| VNum (z : Z)
| VStr (s : string)
| VBuf (b : bytes).

(** JavaScript truthiness, as tested by [if (c)] and [&& b]. An object,
    hence a buffer of any length, is truthy. *)
Definition truthy (v : value) : bool :=
  match v with
  | VNull => false
  | VBool b => b
  | VNum z => negb (z =? 0)
  | VStr s => negb (String.eqb s EmptyString)
  | VBuf _ => true
  end.


(** [b4a.isBuffer]. *)
Definition isBuffer (v : value) : bool :=
  match v with VBuf _ => true | _ => false end.

Inductive exn :=
| NotWritable        (* new Error('Core is not writable') *)
| InvalidKey         (* new Error('Hypercore key should be 32 bytes') *)
| SessionClosing     (* new Error('Cannot make sessions on a closing core') *)
| TypeError          (* a property read on null, Buffer.from of a non-string *)
| RangeError         (* a typed-array write out of bounds *)
| External (tag : nat). (* an error raised by a collaborator *)

Inductive completion (A : Type) :=
| Normal (a : A)
| Throw (e : exn).
Arguments Normal {A} a.
Arguments Throw {A} e.

Definition bindc {A B} (m : completion A) (k : A -> completion B) : completion B :=
  match m with
  | Normal a => k a
  | Throw e => Throw e
  end.

Notation "x <-! m ; k" := (bindc m (fun x => k))
  (at level 100, m at next level, right associativity).

(** [b4a.from(val)] for the values above: a string gives its UTF-8 bytes, a
    buffer a copy of itself, anything else is refused. *)
Definition b4a_from (v : value) : completion bytes :=
  match v with
  | VStr s => Normal (list_byte_of_string s)
  | VBuf b => Normal b
  | _ => Throw TypeError
  end.

(** [target.set(src, offset)] of a typed array. *)
Definition buffer_set (target src : bytes) (offset : nat) : completion bytes :=
  if (offset + length src <=? length target)%nat
  then Normal (take offset target ++ src ++ drop (offset + length src) target)
  else Throw RangeError.

(** [block.subarray(n)]. *)
Definition subarray (block : bytes) (n : nat) : bytes := drop n block.

(** ** Value encodings (the compact-encoding interface) *)

Module State.
(** [{ start, end, buffer }], the cursor every encoder works on. *)
Record t := mk { start : nat; end_ : nat; buffer : option bytes }.
Definition grow (st : t) (n : nat) : t :=
  mk (start st) (end_ st + n) (buffer st).
End State.

Module Encoding.
(** What [c.from(codecs(x))] hands back: [preencode] adds the encoded
    size to [state.end], [encode] writes at [state.start], [decode] reads
    between [state.start] and [state.end]. *)
Record t := mk {
  preencode : State.t -> value -> completion State.t;
  encode : State.t -> value -> completion State.t;
  decode : State.t -> completion value
}.
End Encoding.

(** [c.decode(enc, buffer)]. *)
Definition c_decode (enc : Encoding.t) (buffer : bytes) : completion value :=
  Encoding.decode enc (State.mk 0 (length buffer) (Some buffer)).

(** An encoder carries value [v] as [payload] when its three operations
    agree on it, wherever the cursor stands. *)
Definition carries (enc : Encoding.t) (v : value) (payload : bytes) : Prop :=
  (forall st, Encoding.preencode enc st v = Normal (State.grow st (length payload)))
  /\ (forall st buf,
        State.buffer st = Some buf ->
        (State.start st + length payload <= length buf)%nat ->
        Encoding.encode enc st v =
          Normal (State.mk (State.start st + length payload) (State.end_ st)
                    (Some (take (State.start st) buf ++ payload
                           ++ drop (State.start st + length payload) buf))))
  /\ c_decode enc payload = Normal v.

(** The plain string encoding, in the shape above: the payload of a string
    is its bytes. *)
Definition string_encoding : Encoding.t :=
  Encoding.mk
    (fun st v =>
       match v with
       | VStr s => Normal (State.grow st (length (list_byte_of_string s)))
       | _ => Throw TypeError
       end)
    (fun st v =>
       match v, State.buffer st with
       | VStr s, Some buf =>
           buf' <-! buffer_set buf (list_byte_of_string s) (State.start st);
           Normal (State.mk (State.start st + length (list_byte_of_string s))
                     (State.end_ st) (Some buf'))
       | _, _ => Throw TypeError
       end)
    (fun st =>
       match State.buffer st with
       | Some buf =>
           Normal (VStr (string_of_list_byte
                           (take (State.end_ st - State.start st)
                              (drop (State.start st) buf))))
       | None => Throw TypeError
       end).

(** ** Collaborators *)

(** A signer is a function object; only its identity matters here. *)
Inductive Signer :=
| UserSigner (id : nat)            (* opts.sign *)
| KeySigner (secretKey : bytes)    (* Core.createSigner(crypto, keyPair) *)
| DefaultSigner (id : nat).        (* core.defaultSign *)

Module BlockEncryption.
(** [lib/block-encryption]: a key, the number of bytes reserved in front
    of every block, and the two in-place transformations. *)
Record t := mk {
  key : bytes;
  padding : nat;
  encrypt : Z -> bytes -> Z -> bytes;
  decrypt : Z -> bytes -> bytes
}.
End BlockEncryption.

Module Tree.
Record t := mk { length : Z; byteLength : Z; fork : Z }.
End Tree.

Module Core.
(** The state of the Core object the sessions of a log share. *)
Record t := mk {
  tree : Tree.t;
  bitfield : Z -> bool;               (* core.bitfield.get(index) *)
  blocks : Z -> completion bytes;     (* await core.blocks.get(index) *)
  defaultSign : option Signer
}.
End Core.

Module Replicator.
Definition peer := nat.
Record t := mk {
  peers : list peer;
  requestBlock : Z -> completion bytes  (* await replicator.requestBlock(index) *)
}.
End Replicator.

(** References to the shared Core and Replicator objects: a session holds
    [null] or a reference, never a copy. *)
Inductive core_ref := the_core.
Inductive replicator_ref := the_replicator.

Module Snapshot.
Record t := mk { length : Z; byteLength : Z; fork : Z }.
End Snapshot.

(** ** The session object *)

Module Session.
(** The fields the constructor initialises, without [storage], [crypto],
    [extensions], [keyPair] and the future [opening], which no definition
    below reads; [closing] is kept as the flag "a close was requested".
    The [sessions] array is shared by all sessions of a log and is kept in
    the log, not in each session. [cache] holds the entries of the
    session's cache by index, for a cache that returns what it was last
    given for an index: a [Map] passed as [opts.cache], or the default
    cache. The default cache drops older entries once it holds 65 536 of
    them, so nothing below is said of the entries that a [set] leaves for
    other indices. *)
Record t := mk {
  core : option core_ref;
  replicator : option replicator_ref;
  encryption : option BlockEncryption.t;
  cache : option (gmap Z value);
  valueEncoding : option Encoding.t;
  encodeBatch : option (list value -> completion (list value));
  key : option bytes;
  discoveryKey : option bytes;
  readable : bool;
  writable : bool;
  opened : bool;
  closed : bool;
  sign : option Signer;
  autoClose : bool;
  closing : bool;
  _snapshot : option Snapshot.t
}.

Definition set_cache (c : option (gmap Z value)) (s : t) : t :=
  mk (core s) (replicator s) (encryption s) c (valueEncoding s)
     (encodeBatch s) (key s) (discoveryKey s) (readable s) (writable s)
     (opened s) (closed s) (sign s) (autoClose s) (closing s) (_snapshot s).

Definition set_sign (sg : option Signer) (s : t) : t :=
  mk (core s) (replicator s) (encryption s) (cache s) (valueEncoding s)
     (encodeBatch s) (key s) (discoveryKey s) (readable s) (writable s)
     (opened s) (closed s) sg (autoClose s) (closing s) (_snapshot s).

Definition set_writable (w : bool) (s : t) : t :=
  mk (core s) (replicator s) (encryption s) (cache s) (valueEncoding s)
     (encodeBatch s) (key s) (discoveryKey s) (readable s) w
     (opened s) (closed s) (sign s) (autoClose s) (closing s) (_snapshot s).

Definition set_opened (o : bool) (s : t) : t :=
  mk (core s) (replicator s) (encryption s) (cache s) (valueEncoding s)
     (encodeBatch s) (key s) (discoveryKey s) (readable s) (writable s)
     o (closed s) (sign s) (autoClose s) (closing s) (_snapshot s).

Definition set_closing (c : bool) (s : t) : t :=
  mk (core s) (replicator s) (encryption s) (cache s) (valueEncoding s)
     (encodeBatch s) (key s) (discoveryKey s) (readable s) (writable s)
     (opened s) (closed s) (sign s) (autoClose s) c (_snapshot s).

Definition set_core (c : option core_ref) (s : t) : t :=
  mk c (replicator s) (encryption s) (cache s) (valueEncoding s)
     (encodeBatch s) (key s) (discoveryKey s) (readable s) (writable s)
     (opened s) (closed s) (sign s) (autoClose s) (closing s) (_snapshot s).

Definition set_codecs (ve : option Encoding.t)
    (eb : option (list value -> completion (list value))) (s : t) : t :=
  mk (core s) (replicator s) (encryption s) (cache s) ve eb
     (key s) (discoveryKey s) (readable s) (writable s)
     (opened s) (closed s) (sign s) (autoClose s) (closing s) (_snapshot s).
End Session.

(** ** Constructor options *)

Module KeyPair.
Record t := mk { publicKey : option bytes; secretKey : option bytes }.
End KeyPair.

(** [opts.cache]: [true], a cache object, or something falsy. *)
Inductive cache_option :=
| CacheDefault
| CacheObject (m : gmap Z value)
| CacheOff.

Module Options.
Record t := mk {
  crypto : bool;                         (* a crypto capability was passed *)
  cache : cache_option;
  sign : option Signer;
  autoClose : bool;
  snapshot : option Snapshot.t;
  keyPair : option KeyPair.t;
  encryptionKey : option bytes;
  valueEncoding : option Encoding.t;
  encodeBatch : option (list value -> completion (list value))
}.
Definition empty : t :=
  mk false CacheOff None false None None None None None.
Definition with_snapshot (sn : Snapshot.t) (o : t) : t :=
  mk (crypto o) (cache o) (sign o) (autoClose o) (Some sn) (keyPair o)
     (encryptionKey o) (valueEncoding o) (encodeBatch o).
End Options.

(** ** Ranges, events and calls to the collaborators *)

(** A JavaScript number is an IEEE 754 double. Among the integers the
    doubles are those of magnitude up to 2^53 and, beyond, the multiples of
    the spacing [2 ^ (log2 |x| - 52)]. [round_double x] is the double
    nearest to the integer [x], a tie going to the even mantissa: what the
    addition of two doubles that hold integers gives when [x] is their
    exact sum (below 2^1024 in magnitude). *)
Definition MAX_SAFE_INTEGER : Z := 9007199254740991.

Definition round_double (x : Z) : Z :=
  let a := Z.abs x in
  if a <=? MAX_SAFE_INTEGER then x
  else
    let ulp := 2 ^ (Z.log2 a - 52) in
    let q := a / ulp in
    let r := a mod ulp in
    let q' := if 2 * r <? ulp then q
              else if ulp <? 2 * r then q + 1
              else if Z.even q then q else q + 1 in
    Z.sgn x * (q' * ulp).

(** [x + 1] for a number [x] that holds an integer. One added to the
    largest double gives the largest double, so the sum is never
    [Infinity]. *)
Definition js_succ (x : Z) : Z := round_double (x + 1).

(** A JavaScript number as [download] computes with it: [min] and [max]
    start their folds at the two infinities. *)
Inductive number :=
| Num (z : Z)
| Infinity
| NegInfinity.

Definition Math_min (a b : number) : number :=
  match a, b with
  | NegInfinity, _ | _, NegInfinity => NegInfinity
  | Infinity, x | x, Infinity => x
  | Num x, Num y => Num (Z.min x y)
  end.

Definition Math_max (a b : number) : number :=
  match a, b with
  | Infinity, _ | _, Infinity => Infinity
  | NegInfinity, x | x, NegInfinity => x
  | Num x, Num y => Num (Z.max x y)
  end.

(** [a + 1]. *)
Definition plus_one (a : number) : number :=
  match a with
  | Num x => Num (js_succ x)
  | inf => inf
  end.

Module RangeOpts.
(** The argument of [download]: every property may be missing. [blocks]
    lists the indices in iteration order, for an array and for a Set. *)
Record t := mk {
  linear : bool;
  start : option Z;
  end_ : option Z;
  blocks : option (list Z)
}.
End RangeOpts.

Module Range.
(** [Replicator.createRange(start, end, filter, linear)]. *)
Record t := mk {
  start : number;
  end_ : number;
  filter : option (Z -> bool);
  linear : bool
}.
End Range.

Module Delta.
(** The bitfield argument of the Core's update callback. *)
Record t := mk { drop : bool; start : Z; length : Z }.
End Delta.

Inductive event :=
| ev_ready
| ev_close (last : bool)
| ev_append
| ev_truncate (start fork : Z)
| ev_download (index byteLength : Z) (from : option Replicator.peer)
| ev_upload (index byteLength : Z) (from : option Replicator.peer)
| ev_peer_add (p : Replicator.peer)
| ev_peer_remove (p : Replicator.peer).

(** Sessions are objects; [sid] is the identity of one. *)
Abbreviation sid := nat.

(** What the facade does to the outside, in the order it does it. *)
Inductive call :=
| core_truncate (newLength fork : Z) (sign : option Signer)
| core_append (buffers : list value) (sign : option Signer) (preappend : bool)
| core_close
| replicator_updateAll
| replicator_broadcastInfo
| replicator_broadcastBlock (index : Z)
| replicator_addRange (r : Range.t)
| extensions_update (peer : Replicator.peer)
| cache_clear
| emit (session : sid) (e : event).

(** Code that changes a state [S], calls out, and may throw. *)
Definition M (S A : Type) : Type := S -> completion A * S * list call.

Definition ret {S A} (a : A) : M S A := fun s => (Normal a, s, []).

Definition bind {S A B} (m : M S A) (k : A -> M S B) : M S B :=
  fun s =>
    match m s with
    | (Normal a, s1, t1) =>
        match k a s1 with
        | (r, s2, t2) => (r, s2, t1 ++ t2)
        end
    | (Throw e, s1, t1) => (Throw e, s1, t1)
    end.

Definition throw {S A} (e : exn) : M S A := fun s => (Throw e, s, []).
Definition tell {S} (c : call) : M S unit := fun s => (Normal tt, s, [c]).
Definition read {S} : M S S := fun s => (Normal s, s, []).
Definition write {S} (s : S) : M S unit := fun _ => (Normal tt, s, []).
Definition lift {S A} (c : completion A) : M S A := fun s => (c, s, []).
Definition when {S} (b : bool) (m : M S unit) : M S unit :=
  if b then m else ret tt.

Notation "x <- m ;; k" := (bind m (fun x => k))
  (at level 100, m at next level, right associativity).
Notation "m ;; k" := (bind m (fun _ => k))
  (at level 100, right associativity).

(** [for (const x of xs) body(x)]. *)
Fixpoint for_each {S A} (xs : list A) (body : A -> M S unit) : M S unit :=
  match xs with
  | [] => ret tt
  | x :: rest => body x ;; for_each rest body
  end.

(** ** The facade *)

Module Hypercore.

(** [constructor (storage, key, opts)], after the positional arguments are
    sorted out and a hex key is turned into bytes: the check of line 41,
    then the fields of lines 49 to 76. [new Xache] starts empty. *)
Definition fields (key : option bytes) (opts : Options.t) : Session.t :=
  {| Session.core := None;
     Session.replicator := None;
     Session.encryption := None;
     Session.cache := match Options.cache opts with
                      | CacheDefault => Some ∅
                      | CacheObject m => Some m
                      | CacheOff => None
                      end;
     Session.valueEncoding := None;
     Session.encodeBatch := None;
     Session.key := key;
     Session.discoveryKey := None;
     Session.readable := true;
     Session.writable := false;
     Session.opened := false;
     Session.closed := false;
     Session.sign := Options.sign opts;
     Session.autoClose := Options.autoClose opts;
     Session.closing := false;
     Session._snapshot := Options.snapshot opts |}.

Definition constructor (key : option bytes) (opts : Options.t)
  : completion Session.t :=
  let bad_key := match key with
                 | Some k => negb (length k =? 32)%nat
                 | None => false
                 end in
  if negb (Options.crypto opts) && bad_key then Throw InvalidKey
  else Normal (fields key opts).

(** [!!x] for a signer slot. *)
Definition present {A} (o : option A) : bool :=
  match o with Some _ => true | None => false end.

(** [_passCapabilities (o)]. *)
Definition _passCapabilities (this o : Session.t) : Session.t :=
  let sign := match Session.sign this with
              | Some sg => Some sg
              | None => Session.sign o
              end in
  {| Session.core := Session.core o;
     Session.replicator := Session.replicator o;
     Session.encryption := Session.encryption o;
     Session.cache := Session.cache this;
     Session.valueEncoding := Session.valueEncoding this;
     Session.encodeBatch := Session.encodeBatch this;
     Session.key := Session.key o;
     Session.discoveryKey := Session.discoveryKey o;
     Session.readable := Session.readable this;
     Session.writable := present sign;
     Session.opened := Session.opened this;
     Session.closed := Session.closed this;
     Session.sign := sign;
     Session.autoClose := Session.autoClose o;
     Session.closing := Session.closing this;
     Session._snapshot := Session._snapshot this |}.

(** [_openSession], lines 191 to 205: the effective key pair and the
    signer. *)
Definition effective_keyPair (key : option bytes) (this : Session.t)
    (opts : Options.t) : option KeyPair.t :=
  let kp := match key, Options.keyPair opts with
            | Some k, Some kp => Some (KeyPair.mk (Some k) (KeyPair.secretKey kp))
            | Some k, None => Some (KeyPair.mk (Some k) None)
            | None, kp => kp
            end in
  match Session.key this, kp with
  | Some k, Some kp => Some (KeyPair.mk (Some k) (KeyPair.secretKey kp))
  | _, _ => kp
  end.

Definition resolve_signer (key : option bytes) (this : Session.t)
    (opts : Options.t) : Session.t :=
  match Options.sign opts with
  | Some sg => Session.set_sign (Some sg) this
  | None =>
      match effective_keyPair key this opts with
      | Some (KeyPair.mk _ (Some sk)) => Session.set_sign (Some (KeySigner sk)) this
      | _ => this
      end
  end.

(** [_openCapabilities], line 239: the opened Core is stored. *)
Definition attach_core (this : Session.t) : Session.t :=
  Session.set_core (Some the_core) this.

(** [_openCapabilities], lines 253 to 264: the Replicator is built on the
    Core, the keys are read off the Core's header, and an encryption is
    built unless one is there already. [built] is
    [new BlockEncryption(opts.encryptionKey, this.key)]. *)
Definition attach_replicator (this : Session.t) (publicKey discoveryKey : bytes)
    (opts : Options.t) (built : BlockEncryption.t) : Session.t :=
  {| Session.core := Session.core this;
     Session.replicator := Some the_replicator;
     Session.encryption :=
       match Session.encryption this, Options.encryptionKey opts with
       | None, Some _ => Some built
       | e, _ => e
       end;
     Session.cache := Session.cache this;
     Session.valueEncoding := Session.valueEncoding this;
     Session.encodeBatch := Session.encodeBatch this;
     Session.key := Some publicKey;
     Session.discoveryKey := Some discoveryKey;
     Session.readable := Session.readable this;
     Session.writable := Session.writable this;
     Session.opened := Session.opened this;
     Session.closed := Session.closed this;
     Session.sign := Session.sign this;
     Session.autoClose := Session.autoClose this;
     Session.closing := Session.closing this;
     Session._snapshot := Session._snapshot this |}.

(** [_openSession], lines 216 to 224: the default signer, the writable
    flag, the codecs. Reading [this.core.defaultSign] needs a Core. *)
Definition settle_writable (this : Session.t) (c : Core.t) (opts : Options.t)
  : completion Session.t :=
  this <-! match Session.sign this with
           | Some _ => Normal this
           | None =>
               match Session.core this with
               | Some _ => Normal (Session.set_sign (Core.defaultSign c) this)
               | None => Throw TypeError
               end
           end;
  let this := Session.set_writable (present (Session.sign this)) this in
  Normal (Session.set_codecs
            (match Options.valueEncoding opts with
             | Some e => Some e
             | None => Session.valueEncoding this
             end)
            (match Options.encodeBatch opts with
             | Some f => Some f
             | None => Session.encodeBatch this
             end)
            this).

(** [_openSession], line 230. *)
Definition mark_opened (this : Session.t) : Session.t :=
  Session.set_opened true this.

(** [_close], lines 282 to 285, for a session found in the array. *)
Definition close_fields (this : Session.t) : Session.t :=
  {| Session.core := Session.core this;
     Session.replicator := Session.replicator this;
     Session.encryption := Session.encryption this;
     Session.cache := Session.cache this;
     Session.valueEncoding := Session.valueEncoding this;
     Session.encodeBatch := Session.encodeBatch this;
     Session.key := Session.key this;
     Session.discoveryKey := Session.discoveryKey this;
     Session.readable := false;
     Session.writable := false;
     Session.opened := false;
     Session.closed := true;
     Session.sign := Session.sign this;
     Session.autoClose := Session.autoClose this;
     Session.closing := Session.closing this;
     Session._snapshot := Session._snapshot this |}.

(** [get padding]. *)
Definition padding (this : Session.t) : nat :=
  match Session.encryption this with
  | None => 0%nat
  | Some e => BlockEncryption.padding e
  end.

(** [get length], [get byteLength], [get fork], [get peers]. The Core and
    Replicator arguments are the states of the shared objects the session's
    references point to. *)
Definition length (this : Session.t) (c : Core.t) : Z :=
  match Session._snapshot this with
  | Some sn => Snapshot.length sn
  | None =>
      match Session.core this with
      | None => 0
      | Some _ => Tree.length (Core.tree c)
      end
  end.

Definition byteLength (this : Session.t) (c : Core.t) : Z :=
  match Session._snapshot this with
  | Some sn => Snapshot.byteLength sn
  | None =>
      match Session.core this with
      | None => 0
      | Some _ =>
          Tree.byteLength (Core.tree c)
          - Tree.length (Core.tree c) * Z.of_nat (padding this)
      end
  end.

Definition fork (this : Session.t) (c : Core.t) : Z :=
  match Session._snapshot this with
  | Some sn => Snapshot.fork sn
  | None =>
      match Session.core this with
      | None => 0
      | Some _ => Tree.fork (Core.tree c)
      end
  end.

Definition peers (this : Session.t) (r : Replicator.t) : list Replicator.peer :=
  match Session.replicator this with
  | None => []
  | Some _ => Replicator.peers r
  end.

(** [session (opts)] and [snapshot ()], as far as the new object goes; the
    push onto the shared array is the log's (see [Log.session]). *)
Definition session (this : Session.t) (opts : Options.t) : completion Session.t :=
  if Session.closing this then Throw SessionClosing
  else
    s <-! constructor (Session.key this) opts;
    Normal (_passCapabilities s this).

Definition snapshot (this : Session.t) (c : Core.t) : completion Session.t :=
  session this
    (Options.with_snapshot
       (Snapshot.mk (length this c) (byteLength this c) (fork this c))
       Options.empty).

Section Encode.

(** What [b4a.allocUnsafe] leaves in a fresh buffer: whatever was there. *)
Variable junk : nat -> byte.

Definition allocUnsafe (n : nat) : bytes := map junk (seq 0 n).

(** What [_encode] knows once the size is settled: either it has returned
    already, or it goes on to allocate with this cursor and this value. *)
Inductive sized :=
| Returned (b : bytes)
| Sized (state : State.t) (val : value).

(** [_encode (enc, val)]. *)
Definition _encode (this : Session.t) (enc : option Encoding.t) (val : value)
  : completion value :=
  let state := State.mk (padding this) (padding this) None in
  sz <-! match val with
         | VBuf b =>
             if (State.start state =? 0)%nat then Normal (Returned b)
             else Normal (Sized (State.grow state (List.length b)) val)
         | _ =>
             match enc with
             | Some e =>
                 st <-! Encoding.preencode e state val;
                 Normal (Sized st val)
             | None =>
                 b <-! b4a_from val;
                 if (State.start state =? 0)%nat then Normal (Returned b)
                 else Normal (Sized (State.grow state (List.length b)) (VBuf b))
             end
         end;
  match sz with
  | Returned b => Normal (VBuf b)
  | Sized state val =>
      let fresh := allocUnsafe (State.end_ state) in
      let state := State.mk (State.start state) (State.end_ state) (Some fresh) in
      match enc with
      | Some e =>
          st <-! Encoding.encode e state val;
          Normal (match State.buffer st with Some b => VBuf b | None => VNull end)
      | None =>
          match val with
          | VBuf src =>
              b <-! buffer_set fresh src (State.start state);
              Normal (VBuf b)
          | _ => Throw TypeError
          end
      end
  end.

End Encode.

(** [_decode (enc, block)]. *)
Definition _decode (this : Session.t) (enc : option Encoding.t) (block : bytes)
  : completion value :=
  let block := subarray block (padding this) in
  match enc with
  | Some e => c_decode e block
  | None => Normal (VBuf block)
  end.

(** [if (this.opened === false) await this.opening]: [opening] is how the
    session's opening future settles, with the session as opening left
    it. *)
Definition after_opening (this : Session.t) (opening : completion Session.t)
  : completion Session.t :=
  if Session.opened this then Normal this else opening.

(** [this.core.x] and [this.replicator.x]: a property read on [null]
    throws. *)
Definition the_Core (this : Session.t) (c : Core.t) : completion Core.t :=
  match Session.core this with
  | Some _ => Normal c
  | None => Throw TypeError
  end.

Definition the_Replicator (this : Session.t) (r : Replicator.t)
  : completion Replicator.t :=
  match Session.replicator this with
  | Some _ => Normal r
  | None => Throw TypeError
  end.

(** A call [this.replicator.m()] whose result is not used. *)
Definition on_replicator (this : Session.t) : completion unit :=
  match Session.replicator this with
  | Some _ => Normal tt
  | None => Throw TypeError
  end.

(** *** Reading *)

Module GetOpts.
Record t := mk {
  wait : option bool;
  onwait : option (Z -> completion unit);
  valueEncoding : option Encoding.t    (* after c.from(codecs(.)) *)
}.
End GetOpts.

(** [opts && opts.wait === false]. *)
Definition wait_is_false (opts : option GetOpts.t) : bool :=
  match opts with
  | Some o => match GetOpts.wait o with Some false => true | _ => false end
  | None => false
  end.

(** The encoding [_get] decodes with. *)
Definition effective_encoding (this : Session.t) (opts : option GetOpts.t)
  : option Encoding.t :=
  match opts with
  | Some o =>
      match GetOpts.valueEncoding o with
      | Some e => Some e
      | None => Session.valueEncoding this
      end
  | None => Session.valueEncoding this
  end.

(** Lines 452 and 453: decrypt in place, then decode. *)
Definition decrypt_decode (this : Session.t) (opts : option GetOpts.t)
    (index : Z) (block : bytes) : completion value :=
  let block := match Session.encryption this with
               | Some e => BlockEncryption.decrypt e index block
               | None => block
               end in
  _decode this (effective_encoding this opts) block.

(** [_get (index, opts)]. *)
Definition _get (this : Session.t) (c : Core.t) (r : Replicator.t)
    (index : Z) (opts : option GetOpts.t) : completion value :=
  core <-! the_Core this c;
  if Core.bitfield core index then
    block <-! Core.blocks core index;
    decrypt_decode this opts index block
  else if wait_is_false opts then Normal VNull
  else
    _ <-! match opts with
          | Some (GetOpts.mk _ (Some onwait) _) => onwait index
          | _ => Normal tt
          end;
    replicator <-! the_Replicator this r;
    block <-! Replicator.requestBlock replicator index;
    decrypt_decode this opts index block.

(** [this.cache && this.cache.get(index)], when that is truthy. *)
Definition cached (this : Session.t) (index : Z) : option value :=
  match Session.cache this with
  | Some m =>
      match m !! index with
      | Some v => if truthy v then Some v else None
      | None => None
      end
  | None => None
  end.

(** [get (index, opts)]. [this] and [c] are the session and the Core when
    the call starts, [later] and [c'] the same two objects when the awaited
    [_get] has settled. The result comes with the cache as the call leaves
    it. *)
Definition get (this : Session.t) (opening : completion Session.t)
    (c : Core.t) (r : Replicator.t) (later : Session.t) (c' : Core.t)
    (index : Z) (opts : option GetOpts.t)
  : completion value * option (gmap Z value) :=
  match after_opening this opening with
  | Throw e => (Throw e, Session.cache this)
  | Normal this =>
      match cached this index with
      | Some v => (Normal v, Session.cache this)
      | None =>
          match (core <-! the_Core this c;
                 let fork := Tree.fork (Core.tree core) in
                 b <-! _get this c r index opts;
                 Normal (fork, b)) with
          | Throw e => (Throw e, Session.cache later)
          | Normal (fork, b) =>
              match Session.cache later with
              | Some m =>
                  match the_Core later c' with
                  | Normal core' =>
                      if (fork =? Tree.fork (Core.tree core')) && truthy b
                      then (Normal b, Some (<[index := b]> m))
                      else (Normal b, Some m)
                  | Throw e => (Throw e, Some m)
                  end
              | None => (Normal b, None)
              end
          end
      end
  end.

(** *** Download ranges *)

(** [reduce], [min] and [max] at the end of the file. *)
Definition reduce {A B} (iter : list A) (fn : B -> A -> B) (acc : B) : B :=
  fold_left fn iter acc.

Definition min (arr : list Z) : number :=
  reduce arr (fun a b => Math_min a (Num b)) Infinity.

Definition max (arr : list Z) : number :=
  reduce arr (fun a b => Math_max a (Num b)) NegInfinity.

(** [x || y] where [x] is a number or missing. *)
Definition or_else (x : option Z) (y : number) : number :=
  match x with
  | Some z => if z =? 0 then y else Num z
  | None => y
  end.

(** How the range reaches the Replicator: at once on an opened session,
    otherwise when the opening future resolves. *)
Inductive registration :=
| AddedNow
| AddedOnOpen.

(** [download (range)], lines 465 to 485: the arguments handed to
    [Replicator.createRange]. *)
Definition requested (range : option RangeOpts.t) : Range.t :=
  let linear := match range with
                | Some rg => RangeOpts.linear rg
                | None => false
                end in
  match range with
  | Some (RangeOpts.mk _ rstart rend (Some range_blocks)) =>
      let blocks : gset Z := list_to_set range_blocks in
      let start :=
        or_else rstart
          (if negb (size blocks =? 0)%nat then min range_blocks else Num 0) in
      let end_ :=
        or_else rend
          (if negb (size blocks =? 0)%nat then plus_one (max range_blocks) else Num 0) in
      Range.mk start end_ (Some (fun i => bool_decide (i ∈ blocks))) linear
  | Some (RangeOpts.mk _ rstart rend None) =>
      Range.mk (or_else rstart (Num 0))
        (match rend with Some e => Num e | None => Num (-1) end)
        None linear
  | None => Range.mk (Num 0) (Num (-1)) None linear
  end.

(** [download (range)]. *)
Definition download (this : Session.t) (range : option RangeOpts.t)
  : completion (Range.t * registration) :=
  let r := requested range in
  if Session.opened this then
    _ <-! on_replicator this;
    Normal (r, AddedNow)
  else Normal (r, AddedOnOpen).

(** *** Writing *)

Module AppendResult.
Record t := mk { length : Z; byteLength : Z }.
End AppendResult.

(** The argument of [append]: one block or an array of blocks. *)
Inductive blocks_arg :=
| OneBlock (v : value)
| BlockArray (vs : list value).

Section Engine.

Variable junk : nat -> byte.

(** The Core engine: what [core.truncate(newLength, fork, sign)] and
    [core.append(buffers, sign, { preappend })] settle to, and the Core
    they leave. The preappend hook is run by the engine, under its lock. *)
Variable engine_truncate :
  Core.t -> Z -> Z -> option Signer -> completion unit * Core.t.
Variable engine_append :
  Core.t -> list value -> option Signer ->
  option (Core.t -> list value -> completion (list value)) ->
  completion AppendResult.t * Core.t.

(** [preappend (blocks)], bound to the session. *)
Fixpoint encrypt_from (e : BlockEncryption.t) (index fork : Z)
    (blocks : list value) : completion (list value) :=
  match blocks with
  | [] => Normal []
  | VBuf b :: rest =>
      rest' <-! encrypt_from e (index + 1) fork rest;
      Normal (VBuf (BlockEncryption.encrypt e index b fork) :: rest')
  | _ :: _ => Throw TypeError
  end.

Definition preappend (this : Session.t) (c : Core.t) (blocks : list value)
  : completion (list value) :=
  core <-! the_Core this c;
  match Session.encryption this with
  | Some e =>
      encrypt_from e (Tree.length (Core.tree core)) (Tree.fork (Core.tree core)) blocks
  | None => Throw TypeError
  end.

(** [for (i...) buffers[i] = this._encode(this.valueEncoding, blocks[i])]. *)
Fixpoint encode_all (this : Session.t) (blocks : list value)
  : completion (list value) :=
  match blocks with
  | [] => Normal []
  | b :: rest =>
      buf <-! _encode junk this (Session.valueEncoding this) b;
      bufs <-! encode_all this rest;
      Normal (buf :: bufs)
  end.

(** [truncate (newLength = 0, fork = -1)], on the state of the shared
    Core. *)
Definition truncate (this : Session.t) (opening : completion Session.t)
    (newLength fork : Z) : M Core.t unit :=
  this <- lift (after_opening this opening);;
  if negb (Session.writable this) then throw NotWritable
  else
    core <- (c <- read;; lift (the_Core this c));;
    let fork := if fork =? -1 then js_succ (Tree.fork (Core.tree core)) else fork in
    tell (core_truncate newLength fork (Session.sign this));;
    (fun c => let '(r, c') := engine_truncate c newLength fork (Session.sign this) in
              (r, c', []));;
    lift (on_replicator this);;
    tell replicator_updateAll.

(** [append (blocks)]. *)
Definition append (this : Session.t) (opening : completion Session.t)
    (blocks : blocks_arg) : M Core.t AppendResult.t :=
  this <- lift (after_opening this opening);;
  if negb (Session.writable this) then throw NotWritable
  else
    let blocks := match blocks with
                  | BlockArray vs => vs
                  | OneBlock v => [v]
                  end in
    let hook := match Session.encryption this with
                | Some _ => Some (preappend this)
                | None => None
                end in
    buffers <- lift (match Session.encodeBatch this with
                     | Some encodeBatch => encodeBatch blocks
                     | None => encode_all this blocks
                     end);;
    (c <- read;; lift (the_Core this c));;
    tell (core_append buffers (Session.sign this) (present hook));;
    (fun c => let '(r, c') := engine_append c buffers (Session.sign this) hook in
              (r, c', [])).

End Engine.

(** *** Update routing *)

Definition truncate_bit (status : Z) : bool := negb (Z.land status 2 =? 0).
Definition append_bit (status : Z) : bool := negb (Z.land status 1 =? 0).

(** [bitfield.start]: the read throws on [null]. *)
Definition delta_start (bitfield : option Delta.t) : completion Z :=
  match bitfield with
  | Some d => Normal (Delta.start d)
  | None => Throw TypeError
  end.

(** [bitfield.start + i] for [i] from [0] below [bitfield.length]. *)
Definition delta_indices (d : Delta.t) : list Z :=
  map (fun i => Delta.start d + Z.of_nat i) (seq 0 (Z.to_nat (Delta.length d))).

(** The body of the loop of lines 358 to 366, for the session [s]. The
    state is the session the callback runs on. *)
Definition status_events (c : Core.t) (status : Z) (bitfield : option Delta.t)
    (s : sid) : M Session.t unit :=
  when (truncate_bit status)
    (this <- read;;
     when (present (Session.cache this))
       (write (Session.set_cache (Some ∅) this);; tell cache_clear);;
     start <- lift (delta_start bitfield);;
     core <- lift (the_Core this c);;
     tell (emit s (ev_truncate start (Tree.fork (Core.tree core)))));;
  when (append_bit status) (tell (emit s ev_append)).

(** The body of the loop of lines 380 to 382. *)
Definition download_event (bitfield : option Delta.t) (byteLength : Z)
    (from : option Replicator.peer) (s : sid) : M Session.t unit :=
  start <- lift (delta_start bitfield);;
  tell (emit s (ev_download start byteLength from)).

(** [_oncoreupdate (status, bitfield, value, from)], run on the session the
    Core was opened by: the state is that session, whose cache is cleared;
    [sessions] is the shared array and [c] the Core. *)
Definition _oncoreupdate (sessions : list sid) (c : Core.t)
    (status : Z) (bitfield : option Delta.t) (value : option bytes)
    (from : option Replicator.peer) : M Session.t unit :=
  when (negb (status =? 0))
    (for_each sessions (status_events c status bitfield);;
     this <- read;;
     lift (on_replicator this);;
     tell replicator_broadcastInfo);;
  match bitfield with
  | Some d =>
      when (negb (Delta.drop d))
        (this <- read;;
         for_each (delta_indices d) (fun i =>
           lift (on_replicator this);;
           tell (replicator_broadcastBlock i)))
  | None => ret tt
  end;;
  match value with
  | Some v =>
      this <- read;;
      let byteLength := Z.of_nat (List.length v) - Z.of_nat (padding this) in
      for_each sessions (download_event bitfield byteLength from)
  | None => ret tt
  end.

(** [_onupload (index, value, from)]. *)
Definition _onupload (sessions : list sid) (index : Z) (value : bytes)
    (from : option Replicator.peer) : M Session.t unit :=
  this <- read;;
  let byteLength := Z.of_nat (List.length value) - Z.of_nat (padding this) in
  for_each sessions (fun s => tell (emit s (ev_upload index byteLength from))).

(** [_onpeerupdate (added, peer)]; [updated] is how
    [this.extensions.update(peer)] returns. *)
Definition _onpeerupdate (sessions : list sid) (added : bool)
    (peer : Replicator.peer) (updated : completion unit) : M Session.t unit :=
  when added (tell (extensions_update peer);; lift updated);;
  for_each sessions (fun s =>
    tell (emit s (if added then ev_peer_add peer else ev_peer_remove peer))).

(** *** Other methods *)

(** [has (index)]. *)
Definition has (this : Session.t) (opening : completion Session.t)
    (c : Core.t) (index : Z) : completion bool :=
  this <-! after_opening this opening;
  core <-! the_Core this c;
  Normal (Core.bitfield core index).

(** The loop of [getUserData] over [core.header.userData]: the value saved
    first under the key, or null. *)
Fixpoint saved (key : string) (userData : list (string * bytes)) : value :=
  match userData with
  | [] => VNull
  | (savedKey, v) :: rest =>
      if String.eqb key savedKey then VBuf v else saved key rest
  end.

(** [getUserData (key)]; [userData] is the vector in the Core's header. *)
Definition getUserData (this : Session.t) (opening : completion Session.t)
    (userData : list (string * bytes)) (key : string) : completion value :=
  this <-! after_opening this opening;
  match Session.core this with
  | Some _ => Normal (saved key userData)
  | None => Throw TypeError
  end.

(** [update ()]; [requestUpgrade] is what the Replicator would answer. *)
Definition update (this : Session.t) (opening : completion Session.t)
    (requestUpgrade : completion bool) : completion bool :=
  this <-! after_opening this opening;
  if Session.writable this then Normal false
  else
    _ <-! on_replicator this;
    requestUpgrade.

End Hypercore.

(** ** The life of a session *)

(** Where a session stands in [_openSession] and [_close]: the code between
    two awaits runs as one step. *)
Inductive phase :=
| Constructed       (* the constructor has returned *)
| SignerResolved    (* lines 186 to 205 *)
| CoreOpen          (* root only: Core.open has resolved, line 239 *)
| Capable           (* root only: _openCapabilities has returned *)
| Settled           (* lines 216 to 224, waiting for _preready *)
| Opened            (* line 230 *)
| Closed.           (* _close, lines 281 to 285 *)

(** When capabilities are passed to a session: by [session()] right after
    the constructor and by [_openFromExisting] before the session settles;
    and by the loop of lines 208 to 211, which a root runs over the array
    it opened and a session opened with [opts.from] runs over the array it
    has joined, whose sessions may wait for their root, wait for
    [_preready] or be opened. A session that opens the Core is not reached
    before it is opened, and a closed session has left the array. *)
Definition may_receive (ph : phase) : bool :=
  match ph with
  | Constructed | SignerResolved | Settled | Opened => true
  | CoreOpen | Capable | Closed => false
  end.

Definition may_settle (ph : phase) : bool :=
  match ph with
  | SignerResolved | Capable => true
  | _ => false
  end.

(** The steps a session takes. [close ()] may be asked for at any time: it
    sets [closing] at once and does the rest of [_close] when the opening
    has settled. *)
Inductive lifecycle : phase -> Session.t -> Prop :=
| lc_new key opts s :
    Hypercore.constructor key opts = Normal s ->
    lifecycle Constructed s
| lc_pass ph pho s o :
    lifecycle ph s -> lifecycle pho o -> may_receive ph = true ->
    lifecycle ph (Hypercore._passCapabilities s o)
| lc_signer key opts s :
    lifecycle Constructed s ->
    lifecycle SignerResolved (Hypercore.resolve_signer key s opts)
| lc_core s :
    lifecycle SignerResolved s ->
    lifecycle CoreOpen (Hypercore.attach_core s)
| lc_replicator s publicKey discoveryKey opts built :
    lifecycle CoreOpen s ->
    lifecycle Capable
      (Hypercore.attach_replicator s publicKey discoveryKey opts built)
| lc_settle ph s c opts s' :
    lifecycle ph s -> may_settle ph = true ->
    Hypercore.settle_writable s c opts = Normal s' ->
    lifecycle Settled s'
| lc_open s :
    lifecycle Settled s ->
    lifecycle Opened (Hypercore.mark_opened s)
| lc_close s :
    lifecycle Opened s ->
    lifecycle Closed (Hypercore.close_fields s)
| lc_closing ph s :
    lifecycle ph s ->
    lifecycle ph (Session.set_closing true s).

(** ** The log: the objects its sessions share *)

Module Log.

(** Where the [_close] of a session stands once it is past
    [await this.opening]: it waits for the close of the one session left
    (line 289) or for the close of the Core (line 295), or it has returned
    or thrown. *)
Inductive stage :=
| AwaitOther (other : sid)
| AwaitCore
| Returned
| Thrown.

(** One Core, one Replicator, the [sessions] array, and the session
    objects by identity. [closes] tells how far the [_close] of a session
    has come, and [calls] records what went out. *)
Record t := mk {
  core : Core.t;
  replicator : Replicator.t;
  sessions : list sid;
  objects : list Session.t;
  closes : gmap nat stage;
  calls : list call
}.

Definition set_object (s : sid) (o : Session.t) (w : t) : t :=
  mk (core w) (replicator w) (sessions w) (<[s := o]> (objects w))
     (closes w) (calls w).

Definition said (tr : list call) (w : t) : t :=
  mk (core w) (replicator w) (sessions w) (objects w) (closes w)
     (calls w ++ tr).

Definition set_sessions (l : list sid) (w : t) : t :=
  mk (core w) (replicator w) l (objects w) (closes w) (calls w).

Definition set_stage (s : sid) (st : stage) (w : t) : t :=
  mk (core w) (replicator w) (sessions w) (objects w)
     (<[s := st]> (closes w)) (calls w).

(** [this.sessions.push(s)] for a new object [s]. *)
Definition push (new : Session.t) (w : t) : t :=
  mk (core w) (replicator w)
     (sessions w ++ [List.length (objects w)])
     (objects w ++ [new]) (closes w) (calls w).

(** The triple a session shows through its getters. *)
Definition observed (w : t) (s : sid) : option (Z * Z * Z) :=
  match objects w !! s with
  | Some this =>
      Some (Hypercore.length this (core w),
            Hypercore.byteLength this (core w),
            Hypercore.fork this (core w))
  | None => None
  end.

Section Steps.

Variable junk : nat -> byte.
Variable engine_truncate :
  Core.t -> Z -> Z -> option Signer -> completion unit * Core.t.
Variable engine_append :
  Core.t -> list value -> option Signer ->
  option (Core.t -> list value -> completion (list value)) ->
  completion Hypercore.AppendResult.t * Core.t.

(** A method that works on the shared Core. *)
Definition on_core {A} (w : t) (m : M Core.t A) : t :=
  match m (core w) with
  | (_, c, tr) =>
      mk c (replicator w) (sessions w) (objects w) (closes w) (calls w ++ tr)
  end.

(** [s.append(blocks)] and [s.truncate(newLength, fork)], once the
    session's opening has settled. *)
Definition append (w : t) (s : sid) (blocks : Hypercore.blocks_arg) : t :=
  match objects w !! s with
  | Some this =>
      on_core w (Hypercore.append junk engine_append this (Normal this) blocks)
  | None => w
  end.

Definition truncate (w : t) (s : sid) (newLength fork : Z) : t :=
  match objects w !! s with
  | Some this =>
      on_core w (Hypercore.truncate engine_truncate this (Normal this) newLength fork)
  | None => w
  end.

(** A callback that the Core or the Replicator was given by the session
    that opened the Core: it runs on that session. *)
Definition on_root {A} (w : t) (root : sid) (m : M Session.t A) : t :=
  match objects w !! root with
  | Some this =>
      match m this with
      | (_, this', tr) => said tr (set_object root this' w)
      end
  | None => w
  end.

(** The Core calls back the session it was opened by. *)
Definition update (w : t) (root : sid) (status : Z) (bitfield : option Delta.t)
    (value : option bytes) (from : option Replicator.peer) : t :=
  on_root w root
    (Hypercore._oncoreupdate (sessions w) (core w) status bitfield value from).

(** So does the Replicator. *)
Definition upload (w : t) (root : sid) (index : Z) (value : bytes)
    (from : option Replicator.peer) : t :=
  on_root w root (Hypercore._onupload (sessions w) index value from).

Definition peer_update (w : t) (root : sid) (added : bool)
    (peer : Replicator.peer) (updated : completion unit) : t :=
  on_root w root (Hypercore._onpeerupdate (sessions w) added peer updated).

(** [parent.session(opts)]: the new object is pushed onto the array. *)
Definition session (w : t) (parent : sid) (opts : Options.t) : t :=
  match objects w !! parent with
  | Some this =>
      match Hypercore.session this opts with
      | Normal s => push s w
      | Throw _ => w
      end
  | None => w
  end.

(** [parent.snapshot()]. *)
Definition snapshot (w : t) (parent : sid) : t :=
  match objects w !! parent with
  | Some this =>
      match Hypercore.snapshot this (core w) with
      | Normal s => push s w
      | Throw _ => w
      end
  | None => w
  end.

(** [new Hypercore(storage, key, { ...opts, from })] for a session [from]
    of the log, at the point where the new session's [_openFromExisting]
    is past [await from.opening] (lines 173 to 182): its signer is
    resolved by then, it takes the capabilities of [from] and it is pushed
    onto the array of [from], whether or not [from] is closing or closed.
    Until then the new session has an array of its own, which is no part
    of this log. The loop of lines 208 to 211 and the rest of its opening
    follow as steps of their own. *)
Definition join (w : t) (from : sid) (key : option bytes) (opts : Options.t)
  : t :=
  match objects w !! from with
  | Some f =>
      if Session.opened f || Session.closed f then
        match Hypercore.constructor key opts with
        | Normal s =>
            push (Hypercore._passCapabilities
                    (Hypercore.resolve_signer key s opts) f) w
        | Throw _ => w
        end
      else w
  | None => w
  end.

(** One step of a session's own opening. *)
Definition change (w : t) (s : sid) (f : Session.t -> Session.t) : t :=
  match objects w !! s with
  | Some this => set_object s (f this) w
  | None => w
  end.

(** Lines 230 and 231: the session is opened and told so, once, and before
    its [_close] can go on. *)
Definition opened (w : t) (s : sid) : t :=
  match objects w !! s with
  | Some this =>
      if Session.opened this || Session.closed this then w
      else said [emit s ev_ready] (set_object s (Hypercore.mark_opened this) w)
  | None => w
  end.

(** [sessions.splice(sessions.indexOf(s), 1)]. *)
Fixpoint splice_out (s : sid) (l : list sid) : list sid :=
  match l with
  | [] => []
  | x :: rest => if (x =? s)%nat then rest else x :: splice_out s rest
  end.

(** [close ()]: the first call stores the promise of [_close ()], which
    has run up to [await this.opening] when it is stored; a later call
    returns that promise. *)
Definition close (w : t) (s : sid) : t :=
  match objects w !! s with
  | Some this =>
      if Session.closing this then w
      else set_object s (Session.set_closing true this) w
  | None => w
  end.

(** [_close ()] from line 278 to its next [await] or its [return], run
    when [await this.opening] has resolved: that is, for a session that is
    opened. *)
Definition close_resumed (w : t) (s : sid) : t :=
  match objects w !! s, closes w !! s with
  | Some this, None =>
      if Session.closing this && Session.opened this then
        if bool_decide (s ∈ sessions w) then
          let rest := splice_out s (sessions w) in
          let w := set_sessions rest
                     (set_object s (Hypercore.close_fields this) w) in
          match rest with
          | [] =>
              match Session.core this with
              | Some _ => set_stage s AwaitCore (said [core_close] w)
              | None => set_stage s Thrown w
              end
          | [other] =>
              if Session.autoClose this
              then set_stage s (AwaitOther other) (close w other)
              else set_stage s Returned (said [emit s (ev_close false)] w)
          | _ => set_stage s Returned (said [emit s (ev_close false)] w)
          end
        else set_stage s Returned w
      else w
  | _, _ => w
  end.

(** [_close ()] past its second [await]: the close of the Core has
    settled, as [core_closed] tells, or the [_close] of the session that
    was left has. *)
Definition close_settled (w : t) (s : sid) (core_closed : completion unit)
  : t :=
  match closes w !! s with
  | Some AwaitCore =>
      match core_closed with
      | Normal _ => set_stage s Returned (said [emit s (ev_close true)] w)
      | Throw _ => set_stage s Thrown w
      end
  | Some (AwaitOther other) =>
      match closes w !! other with
      | Some Returned =>
          set_stage s Returned (said [emit s (ev_close false)] w)
      | Some Thrown => set_stage s Thrown w
      | _ => w
      end
  | _ => w
  end.

(** The opening of a session has rejected, and with it the [_close] that
    waited for it at line 276. *)
Definition close_failed (w : t) (s : sid) : t :=
  match objects w !! s, closes w !! s with
  | Some this, None =>
      if Session.closing this && negb (Session.opened this)
         && negb (Session.closed this)
      then set_stage s Thrown w
      else w
  | _, _ => w
  end.

(** [s.get(index, opts)], with nothing else running meanwhile: the value,
    and the log with the session's cache as the call left it. *)
Definition get (w : t) (s : sid) (index : Z) (opts : option Hypercore.GetOpts.t)
  : completion value * t :=
  match objects w !! s with
  | Some this =>
      match Hypercore.get this (Normal this) (core w) (replicator w)
              this (core w) index opts with
      | (res, cache) => (res, set_object s (Session.set_cache cache this) w)
      end
  | None => (Throw TypeError, w)
  end.

(** The end of a [get] that other steps have overtaken while it fetched:
    line 435, for the fork it read before the fetch and the value the
    fetch resolved to. *)
Definition get_resumed (w : t) (s : sid) (index fork : Z) (b : value) : t :=
  match objects w !! s with
  | Some this =>
      match Session.cache this, Session.core this with
      | Some m, Some _ =>
          if (fork =? Tree.fork (Core.tree (core w))) && truthy b
          then set_object s (Session.set_cache (Some (<[index := b]> m)) this) w
          else w
      | _, _ => w
      end
  | None => w
  end.

(** What can happen to a log, one step at a time. *)
Inductive op :=
| op_append (s : sid) (blocks : Hypercore.blocks_arg)
| op_truncate (s : sid) (newLength fork : Z)
| op_update (root : sid) (status : Z) (bitfield : option Delta.t)
    (value : option bytes) (from : option Replicator.peer)
| op_upload (root : sid) (index : Z) (value : bytes)
    (from : option Replicator.peer)
| op_peer (root : sid) (added : bool) (peer : Replicator.peer)
    (updated : completion unit)
| op_session (parent : sid) (opts : Options.t)
| op_snapshot (parent : sid)
| op_join (from : sid) (key : option bytes) (opts : Options.t)
| op_pass (s o : sid)
| op_signer (s : sid) (key : option bytes) (opts : Options.t)
| op_settle (s : sid) (opts : Options.t)
| op_opened (s : sid)
| op_close (s : sid)
| op_close_resumed (s : sid)
| op_close_settled (s : sid) (core_closed : completion unit)
| op_close_failed (s : sid)
| op_get (s : sid) (index : Z) (opts : option Hypercore.GetOpts.t)
| op_get_resumed (s : sid) (index fork : Z) (b : value).

Definition step (w : t) (o : op) : t :=
  match o with
  | op_append s blocks => append w s blocks
  | op_truncate s n f => truncate w s n f
  | op_update root status bitfield value from =>
      update w root status bitfield value from
  | op_upload root index value from => upload w root index value from
  | op_peer root added peer updated => peer_update w root added peer updated
  | op_session parent opts => session w parent opts
  | op_snapshot parent => snapshot w parent
  | op_join from key opts => join w from key opts
  | op_pass s o =>
      match objects w !! o with
      | Some src => change w s (fun this => Hypercore._passCapabilities this src)
      | None => w
      end
  | op_signer s key opts =>
      change w s (fun this => Hypercore.resolve_signer key this opts)
  | op_settle s opts =>
      change w s (fun this =>
        match Hypercore.settle_writable this (core w) opts with
        | Normal this' => this'
        | Throw _ => this
        end)
  | op_opened s => opened w s
  | op_close s => close w s
  | op_close_resumed s => close_resumed w s
  | op_close_settled s core_closed => close_settled w s core_closed
  | op_close_failed s => close_failed w s
  | op_get s index opts => snd (get w s index opts)
  | op_get_resumed s index fork b => get_resumed w s index fork b
  end.

Definition run (w : t) (ops : list op) : t := fold_left step ops w.

End Steps.

End Log.

(** ** Protocol streams *)

Module Protocol.
(** What [Replicator.createProtocol] hands back, as far as the facade
    touches it. *)
Record t := mk { keepAlive : bool }.
End Protocol.

Module Noise.
(** A secure stream: the protocol stored as its [userData], and whether an
    error listener was put on it. *)
Record t := mk { userData : option Protocol.t; error_listener : bool }.
End Noise.

Module Duplex.
(** An outer stream: it may refer to a secure stream. *)
Record t := mk { noiseStream : option nat }.
End Duplex.

(** The first argument of [createProtocolStream] and [replicate]: a stream,
    or the initiator flag. *)
Inductive initiator_arg :=
| IsInitiator (b : bool)
| IsStream (s : Duplex.t).

Module ProtocolOpts.
Record t := mk { stream : option Duplex.t; keepAlive : option bool }.
End ProtocolOpts.

(** What [createProtocolStream] returns or throws. *)
Inductive stream_result :=
| Stream (outer : Duplex.t)
| InvalidStream.                 (* new Error('Invalid stream') *)

(** The secure streams by address. *)
Definition noise_heap := nat -> Noise.t.

Definition store (n : nat) (x : Noise.t) (h : noise_heap) : noise_heap :=
  fun k => if (k =? n)%nat then x else h k.

(** [createProtocolStream (isInitiator, opts)]. When no outer stream is
    given, [new NoiseSecretStream] is built at the address [fresh] and [raw]
    is its [rawStream]. *)
Definition createProtocolStream (isInitiator : initiator_arg)
    (opts : ProtocolOpts.t) (fresh : nat) (raw : Duplex.t) (h : noise_heap)
  : stream_result * noise_heap :=
  let given := match isInitiator with
               | IsStream s => Some s
               | IsInitiator _ => ProtocolOpts.stream opts
               end in
  let '(outerStream, noiseStream, h) :=
    match given with
    | Some o => (o, Duplex.noiseStream o, h)
    | None => (raw, Some fresh, store fresh (Noise.mk None false) h)
    end in
  match noiseStream with
  | None => (InvalidStream, h)
  | Some n =>
      match Noise.userData (h n) with
      | Some _ => (Stream outerStream, h)
      | None =>
          let protocol :=
            Protocol.mk match ProtocolOpts.keepAlive opts with
                        | Some false => false
                        | _ => true
                        end in
          (Stream outerStream, store n (Noise.mk (Some protocol) true) h)
      end
  end.

(** ** Default storage *)

Module File.
(** [raf(name, { directory, lock, sparse })], with the two hooks as
    "given or null". *)
Record t := mk { name : string; directory : string; lock : bool; sparse : bool }.
End File.

(** [name.endsWith(suffix)]. *)
Definition endsWith (name suffix : string) : bool :=
  bool_decide (list_ascii_of_string suffix `suffix_of` list_ascii_of_string name).

(** [opts.lock || 'oplog']. *)
Definition toLock (lock : option string) : string :=
  match lock with
  | Some l => if String.eqb l EmptyString then "oplog"%string else l
  | None => "oplog"%string
  end.

(** The function [createFile] that [defaultStorage (storage, opts)] returns
    for a directory name. *)
Definition createFile (directory : string) (lock : option string)
    (name : string) : File.t :=
  let locked := String.eqb name (toLock lock)
                || endsWith name (String.append "/" (toLock lock)) in
  File.mk name directory locked false.

(** ** Sample objects *)

Module Sample.

Definition zeros : nat -> byte := fun _ => x00.

(** A Core with three stored blocks at fork 0. *)
Definition core3 : Core.t :=
  Core.mk (Tree.mk 3 12 0)
    (fun i => (0 <=? i) && (i <? 3))
    (fun i => if (0 <=? i) && (i <? 3) then Normal [x68; x69] else Throw (External 1))
    None.

(** A Core that holds no block at all. *)
Definition core0 : Core.t :=
  Core.mk (Tree.mk 0 0 1) (fun _ => false) (fun _ => Throw (External 1)) None.

(** Three blocks at the fork 2^53, the first integer past the safe ones. *)
Definition core_far : Core.t :=
  Core.mk (Tree.mk 3 12 9007199254740992)
    (fun i => (0 <=? i) && (i <? 3))
    (fun i => if (0 <=? i) && (i <? 3) then Normal [x68; x69] else Throw (External 1))
    None.


Definition no_peers : Replicator.t :=
  Replicator.mk [] (fun _ => Throw (External 2)).

(** A peer that delivers two bytes for any index. *)
Definition one_peer : Replicator.t :=
  Replicator.mk [7%nat] (fun _ => Normal [x6f; x6b]).

(** A public key and a discovery key of 32 bytes. *)
Definition public_key : bytes := repeat x01 32.
Definition discovery_key : bytes := repeat x02 32.

(** A session as the constructor leaves it, then opened on the shared
    Core without a signer. *)
Definition reader (opts : Options.t) : Session.t :=
  Hypercore.mark_opened
    (Session.set_writable false
       (Hypercore.attach_replicator
          (Hypercore.attach_core (Hypercore.fields None opts))
          public_key discovery_key opts
          (BlockEncryption.mk [] 0 (fun _ b _ => b) (fun _ b => b)))).

(** The same with a signer. *)
Definition writer (opts : Options.t) : Session.t :=
  Hypercore.mark_opened
    (Session.set_writable true
       (Session.set_sign (Some (UserSigner 1)) (reader opts))).

Definition with_cache (m : gmap Z value) : Options.t :=
  Options.mk false (CacheObject m) None false None None None None None.

Definition with_sign (sg : Signer) : Options.t :=
  Options.mk false CacheOff (Some sg) false None None None None None.

Definition no_wait : option Hypercore.GetOpts.t :=
  Some (Hypercore.GetOpts.mk (Some false) None None).

(** An encryption that reserves eight bytes and leaves the bytes alone. *)
Definition padded : BlockEncryption.t :=
  BlockEncryption.mk [] 8 (fun _ b _ => b) (fun _ b => b).

Definition encrypted_session : Session.t :=
  Hypercore.attach_replicator
    (Hypercore.attach_core (Hypercore.fields None Options.empty))
    public_key discovery_key
    (Options.mk false CacheOff None false None None (Some (repeat x03 32)) None None)
    padded.

(** An engine that does what it is asked and nothing else. *)
Definition engine_truncate (c : Core.t) (newLength fork : Z)
    (sign : option Signer) : completion unit * Core.t :=
  (Normal tt,
   Core.mk (Tree.mk newLength 0 fork)
     (fun i => Core.bitfield c i && (i <? newLength))
     (Core.blocks c) (Core.defaultSign c)).

Definition engine_append (c : Core.t) (buffers : list value)
    (sign : option Signer)
    (hook : option (Core.t -> list value -> completion (list value)))
  : completion Hypercore.AppendResult.t * Core.t :=
  let n := Tree.length (Core.tree c) + Z.of_nat (length buffers) in
  (Normal (Hypercore.AppendResult.mk n (Tree.byteLength (Core.tree c))),
   Core.mk (Tree.mk n (Tree.byteLength (Core.tree c)) (Tree.fork (Core.tree c)))
     (fun i => Core.bitfield c i || ((0 <=? i) && (i <? n)))
     (Core.blocks c) (Core.defaultSign c)).

(** A log with one writable session on three blocks. *)
Definition log3 : Log.t :=
  Log.mk core3 one_peer [0%nat] [writer Options.empty] ∅ [].

(** The parent appends one block and then truncates to two. *)
Definition grow_then_cut : list Log.op :=
  [Log.op_append 0%nat (Hypercore.OneBlock (VBuf [x61]));
   Log.op_truncate 0%nat 2 (-1);
   Log.op_update 0%nat 2 (Some (Delta.mk true 2 2)) None None].

(** A second session with a cache of its own reads block 2; then the
    writer truncates to two blocks and the Core reports the truncation to
    the session it was opened by. *)
Definition read_then_cut : list Log.op :=
  [Log.op_session 0%nat
     (Options.mk false CacheDefault None false None None None None None);
   Log.op_settle 1%nat Options.empty;
   Log.op_opened 1%nat;
   Log.op_get 1%nat 2 None;
   Log.op_truncate 0%nat 2 (-1);
   Log.op_update 0%nat 2 (Some (Delta.mk true 2 1)) None None].

(** A second session is opened and closed again. *)
Definition open_and_close : list Log.op :=
  [Log.op_session 0%nat Options.empty;
   Log.op_settle 1%nat Options.empty;
   Log.op_opened 1%nat;
   Log.op_close 1%nat;
   Log.op_close_resumed 1%nat].

(** Then the first session is closed as well. *)
Definition close_all : list Log.op :=
  open_and_close
  ++ [Log.op_close 0%nat;
      Log.op_close_resumed 0%nat;
      Log.op_close_settled 0%nat (Normal tt)].

(** The one session is closed, and a new session is opened from it with
    the option [from] and closed in its turn. *)
Definition join_closed : list Log.op :=
  [Log.op_close 0%nat;
   Log.op_close_resumed 0%nat;
   Log.op_close_settled 0%nat (Normal tt);
   Log.op_join 0%nat None Options.empty;
   Log.op_settle 1%nat Options.empty;
   Log.op_opened 1%nat;
   Log.op_close 1%nat;
   Log.op_close_resumed 1%nat].

Definition auto_close : Options.t :=
  Options.mk false CacheOff None true None None None None None.

(** Two opened sessions that close automatically; the first one was asked
    to close. *)
Definition log_pair : Log.t :=
  Log.mk core3 one_peer [0%nat; 1%nat]
    [Session.set_closing true (writer auto_close); writer auto_close] ∅ [].

(** The part of a JSON codec that deals with the text [null]. *)
Definition null_text : bytes := [x6e; x75; x6c; x6c].

Definition null_literal : Encoding.t :=
  Encoding.mk
    (fun st v =>
       match v with
       | VNull => Normal (State.grow st 4)
       | _ => Throw (External 3)
       end)
    (fun st v =>
       match v, State.buffer st with
       | VNull, Some buf =>
           buf' <-! buffer_set buf null_text (State.start st);
           Normal (State.mk (State.start st + 4) (State.end_ st) (Some buf'))
       | _, _ => Throw (External 3)
       end)
    (fun st =>
       match State.buffer st with
       | Some buf =>
           if String.eqb
                (string_of_list_byte
                   (take (State.end_ st - State.start st)
                      (drop (State.start st) buf)))
                (string_of_list_byte null_text)
           then Normal VNull else Throw (External 3)
       | None => Throw TypeError
       end).

(** A Core whose block 0 is the text [null]. *)
Definition core_null_text : Core.t :=
  Core.mk (Tree.mk 1 4 0) (fun i => i =? 0) (fun _ => Normal null_text) None.

(** An encryption that reserves eight bytes, marks them, and reverses the
    bytes behind them; decrypting reverses them again. *)
Definition reversing : BlockEncryption.t :=
  BlockEncryption.mk [] 8
    (fun _ b _ => repeat xff 8 ++ rev (drop 8 b))
    (fun _ b => take 8 b ++ rev (drop 8 b)).

(** A writable, opened session that encrypts with [reversing]. *)
Definition reversing_writer : Session.t :=
  Hypercore.mark_opened
    (Session.set_writable true
       (Session.set_sign (Some (UserSigner 1))
          (Hypercore.attach_replicator
             (Hypercore.attach_core (Hypercore.fields None Options.empty))
             public_key discovery_key
             (Options.mk false CacheOff None false None None
                (Some (repeat x03 32)) None None)
             reversing))).

End Sample.

(** ** Vocabulary of the statements *)

(** [_decode(enc, _encode(enc, v))]. *)
Definition roundtrip (junk : nat -> byte) (this : Session.t)
    (enc : option Encoding.t) (v : value) : completion value :=
  block <-! Hypercore._encode junk this enc v;
  match block with
  | VBuf b => Hypercore._decode this enc b
  | _ => Throw TypeError
  end.

(** The pairs of encoding and value that [_encode] and [_decode] are built
    to bring back: a buffer when there is no encoding, and a value that is
    not a buffer under an encoding that carries it. *)
Definition brought_back (enc : option Encoding.t) (v : value) : Prop :=
  match enc with
  | None => isBuffer v = true
  | Some e => isBuffer v = false /\ exists payload, carries e v payload
  end.

(** Where [_get] takes the raw block from: local storage when the bitfield
    has the index, the Replicator otherwise (after telling [opts.onwait]). *)
Definition fetch (this : Session.t) (c : Core.t) (r : Replicator.t)
    (index : Z) (opts : option Hypercore.GetOpts.t) : completion bytes :=
  if Core.bitfield c index then Core.blocks c index
  else
    _ <-! match opts with
          | Some (Hypercore.GetOpts.mk _ (Some onwait) _) => onwait index
          | _ => Normal tt
          end;
    replicator <-! Hypercore.the_Replicator this r;
    Replicator.requestBlock replicator index.

(** What [truncate] comes to once the fork is settled: the Core is called,
    and the Replicator is told after the Core has returned. *)
Definition truncated
    (engine_truncate : Core.t -> Z -> Z -> option Signer -> completion unit * Core.t)
    (this : Session.t) (c : Core.t) (newLength fork : Z)
  : completion unit * Core.t * list call :=
  match engine_truncate c newLength fork (Session.sign this) with
  | (Normal _, c1) =>
      (Normal tt, c1,
       [core_truncate newLength fork (Session.sign this); replicator_updateAll])
  | (Throw e, c1) =>
      (Throw e, c1, [core_truncate newLength fork (Session.sign this)])
  end.

(** A property of [download]'s argument that is missing or zero, so that
    [||] moves on to its right-hand side. *)
Definition unset (x : option Z) : Prop := x = None \/ x = Some 0.

(** The events one session is sent, in the order of the calls. *)
Definition events_for (s : sid) (tr : list call) : list event :=
  omap (fun c => match c with
                 | emit s' e => if (s' =? s)%nat then Some e else None
                 | _ => None
                 end) tr.

(** [bitfield.start] where the callback got a bitfield. *)
Definition start_of (bitfield : option Delta.t) : Z :=
  match bitfield with
  | Some d => Delta.start d
  | None => 0
  end.

(** The events [_oncoreupdate] owes one session. *)
Definition owed (this : Session.t) (c : Core.t) (status : Z)
    (bitfield : option Delta.t) (value : option bytes)
    (from : option Replicator.peer) : list event :=
  (if Hypercore.truncate_bit status
   then [ev_truncate (start_of bitfield) (Tree.fork (Core.tree c))] else [])
  ++ (if Hypercore.append_bit status then [ev_append] else [])
  ++ match value with
     | Some v =>
         [ev_download (start_of bitfield)
            (Z.of_nat (length v) - Z.of_nat (Hypercore.padding this)) from]
     | None => []
     end.

(** The calls the loop of lines 358 to 366 makes for one session. *)
Definition status_calls (cache_on : bool) (status start fork : Z) (s : sid)
  : list call :=
  (if Hypercore.truncate_bit status
   then (if cache_on then [cache_clear] else [])
        ++ [emit s (ev_truncate start fork)]
   else [])
  ++ (if Hypercore.append_bit status then [emit s ev_append] else []).

(** All the calls of one [_oncoreupdate] that returns. *)
Definition update_calls (this : Session.t) (sessions : list sid) (c : Core.t)
    (status : Z) (bitfield : option Delta.t) (value : option bytes)
    (from : option Replicator.peer) : list call :=
  (if negb (status =? 0)
   then flat_map (status_calls (Hypercore.present (Session.cache this)) status
                    (start_of bitfield) (Tree.fork (Core.tree c))) sessions
        ++ [replicator_broadcastInfo]
   else [])
  ++ match bitfield with
     | Some d =>
         if Delta.drop d then []
         else map replicator_broadcastBlock (Hypercore.delta_indices d)
     | None => []
     end
  ++ match value with
     | Some v =>
         map (fun s => emit s (ev_download (start_of bitfield)
                                 (Z.of_nat (length v)
                                  - Z.of_nat (Hypercore.padding this)) from))
           sessions
     | None => []
     end.

(** The session with its cache emptied. *)
Definition cleared (this : Session.t) : Session.t :=
  Session.set_cache (Some ∅) this.

(** What holds of a session at each point of its life. *)
Definition sound (ph : phase) (s : Session.t) : Prop :=
  (Session.writable s = true -> is_Some (Session.sign s))
  /\ (Session.core s = None -> Session.replicator s = None)
  /\ (ph = CoreOpen -> Session.core s = Some the_core)
  /\ (Session.opened s = true <-> ph = Opened)
  /\ (ph = Settled \/ ph = Opened ->
      Session.writable s = Hypercore.present (Session.sign s)).

(** The callback changes nothing of a session but its cache. *)
Definition only_cache (this this' : Session.t) : Prop :=
  this' = this \/ this' = cleared this.

(** A step of a session's life that leaves its snapshot alone. *)
Definition keeps_snapshot (f : Session.t -> Session.t) : Prop :=
  forall this, Session._snapshot (f this) = Session._snapshot this.

(** The session [s] of the log is pinned to [pin]. *)
Definition pinned (w : Log.t) (s : sid) (pin : Snapshot.t) : Prop :=
  exists this, Log.objects w !! s = Some this
               /\ Session._snapshot this = Some pin.

(** The code [m], started in [st], makes the calls [T] in that order and
    ends in [st_end] when it returns, and makes a first part of [T] when it
    throws. *)
Definition runs_as {A} (m : M Session.t A) (st : Session.t)
    (T : list call) (st_end : Session.t) : Prop :=
  forall r st' tr,
    m st = (r, st', tr) ->
    tr `prefix_of` T /\ (forall a, r = Normal a -> tr = T /\ st' = st_end).

(** Every entry of the [sessions] array is an object of the log, and no
    object is entered twice. *)
Definition registered_once (w : Log.t) : Prop :=
  NoDup (Log.sessions w)
  /\ forall x, x ∈ Log.sessions w -> (x < length (Log.objects w))%nat.

(** The flags [readable] and [closed] along a session's life. *)
Definition flags (ph : phase) (s : Session.t) : Prop :=
  Session.readable s = negb (Session.closed s)
  /\ (Session.closed s = true <-> ph = Closed)
  /\ (Session.closed s = true ->
      Session.writable s = false /\ Session.opened s = false).



(** [Array.isArray(blocks) ? blocks : [blocks]]. *)
Definition as_array (blocks : Hypercore.blocks_arg) : list value :=
  match blocks with
  | Hypercore.BlockArray vs => vs
  | Hypercore.OneBlock v => [v]
  end.

(** The buffers [append] makes of its blocks, by [encodeBatch] when the
    session has one and block by block otherwise. *)
Definition buffers_of (junk : nat -> byte) (this : Session.t)
    (blocks : list value) : completion (list value) :=
  match Session.encodeBatch this with
  | Some encodeBatch => encodeBatch blocks
  | None => Hypercore.encode_all junk this blocks
  end.

(** The bytes [b] behind the bytes reserved for the encryption, which hold
    whatever the fresh buffer held. *)
Definition padded_block (junk : nat -> byte) (this : Session.t) (b : bytes)
  : value :=
  VBuf (take (Hypercore.padding this)
          (Hypercore.allocUnsafe junk (Hypercore.padding this + length b)) ++ b).

(** The preappend hook [append] passes to the Core. *)
Definition hook_of (this : Session.t)
  : option (Core.t -> list value -> completion (list value)) :=
  match Session.encryption this with
  | Some _ => Some (Hypercore.preappend this)
  | None => None
  end.

(** The encryption gives back, behind its reserved bytes, what it was
    given there, for blocks of [n] bytes at [index] and [fork]. *)
Definition decrypts (e : BlockEncryption.t) (index fork : Z) (n : nat) : Prop :=
  forall blk,
    length blk = (BlockEncryption.padding e + n)%nat ->
    drop (BlockEncryption.padding e)
      (BlockEncryption.decrypt e index (BlockEncryption.encrypt e index blk fork))
    = drop (BlockEncryption.padding e) blk.

(** The indices of the blocks the Replicator was told to broadcast. *)
Definition blocks_broadcast (tr : list call) : list Z :=
  omap (fun c => match c with
                 | replicator_broadcastBlock i => Some i
                 | _ => None
                 end) tr.

(** How often the Replicator was told to broadcast its info. *)
Definition infos_broadcast (tr : list call) : nat :=
  length (omap (fun c => match c with
                         | replicator_broadcastInfo => Some tt
                         | _ => None
                         end) tr).

(** How often the Core was closed. *)
Definition core_closes (tr : list call) : nat :=
  length (omap (fun c => match c with
                         | core_close => Some tt
                         | _ => None
                         end) tr).

Definition is_close (e : event) : bool :=
  match e with
  | ev_close _ => true
  | _ => false
  end.

(** No close event among the events. *)
Definition no_close (l : list event) : Prop :=
  Forall (fun e => is_close e = false) l.

(** At most one close event among the events, and no event after it. *)
Definition close_last_once (l : list event) : Prop :=
  no_close l \/ exists l1 last, l = l1 ++ [ev_close last] /\ no_close l1.

(** No call sends a close event. *)
Definition closeless (tr : list call) : Prop :=
  Forall (fun c => match c with
                   | emit _ (ev_close _) => False
                   | _ => True
                   end) tr.

(** The calls neither close the Core nor send a close event, and they send
    nothing to a session outside [l]. *)
Definition harmless (l : list sid) (tr : list call) : Prop :=
  core_closes tr = 0%nat
  /\ closeless tr
  /\ forall s, s ∉ l -> events_for s tr = [].

(** A step of a session's life that leaves the flags of its opening and
    closing alone. *)
Definition keeps_flags (f : Session.t -> Session.t) : Prop :=
  forall this,
    Session.closed (f this) = Session.closed this
    /\ Session.closing (f this) = Session.closing this
    /\ Session.opened (f this) = Session.opened this.

(** From [w] to [w'] no session has come or gone and no [_close] has moved:
    the array and the stages are as they were, every object has kept its
    [closed] flag and has not lost [closing] or [opened], the Core was not
    closed, and no close event went out; what went out to a session went to
    a session of the array or to one that was neither opened nor closed. *)
Definition calm (w w' : Log.t) : Prop :=
  Log.closes w' = Log.closes w
  /\ Log.sessions w' = Log.sessions w
  /\ length (Log.objects w') = length (Log.objects w)
  /\ (forall i this, Log.objects w !! i = Some this ->
        exists this', Log.objects w' !! i = Some this'
          /\ Session.closed this' = Session.closed this
          /\ (Session.closing this = true -> Session.closing this' = true)
          /\ (Session.opened this = true -> Session.opened this' = true))
  /\ exists tr, Log.calls w' = Log.calls w ++ tr
       /\ core_closes tr = 0%nat
       /\ forall i,
            no_close (events_for i tr)
            /\ (events_for i tr <> [] ->
                i ∈ Log.sessions w
                \/ exists this, Log.objects w !! i = Some this
                                /\ Session.opened this = false
                                /\ Session.closed this = false).

(** The session [i] is past the events of its life: it is out of the
    array, and it is closed or opened, so that it will not be told to be
    ready either. *)
Definition quiet (w : Log.t) (i : sid) : Prop :=
  (i ∉ Log.sessions w)
  /\ exists this, Log.objects w !! i = Some this
                  /\ (Session.closed this = true \/ Session.opened this = true).

(** What the stage of its [_close] says of the events a session was sent:
    no close event before [_close] has returned, none when it has thrown,
    and nothing at all once it is past the array but for its one close
    event. *)
Definition staged (w : Log.t) (i : sid) : Prop :=
  match Log.closes w !! i with
  | None | Some Log.Thrown => no_close (events_for i (Log.calls w))
  | Some (Log.AwaitOther _) | Some Log.AwaitCore =>
      no_close (events_for i (Log.calls w)) /\ quiet w i
  | Some Log.Returned =>
      close_last_once (events_for i (Log.calls w)) /\ quiet w i
  end.

(** The array holds no session twice, and every session has been sent
    what the stage of its [_close] allows. *)
Definition orderly (w : Log.t) : Prop :=
  registered_once w /\ forall i, staged w i.

(** The session [i] is past the array and its [_close] is under way. *)
Definition hushed (w : Log.t) (i : sid) : Prop :=
  quiet w i /\ is_Some (Log.closes w !! i).

(** From [w] to [w'] the [_close] of the session [s] has not moved, and if
    [s] was past the array it still is and was sent nothing. *)
Definition apart (w w' : Log.t) (s : sid) : Prop :=
  Log.closes w' !! s = Log.closes w !! s
  /\ (quiet w s ->
      quiet w' s
      /\ events_for s (Log.calls w') = events_for s (Log.calls w)).

(** From [w] to [w'] the session [s] stays past the array; it was sent
    close events only, and nothing if its [_close] had returned. *)
Definition winding_down (w w' : Log.t) (s : sid) : Prop :=
  hushed w' s
  /\ (Log.closes w !! s = Some Log.Returned ->
      Log.closes w' !! s = Some Log.Returned)
  /\ exists l,
       events_for s (Log.calls w') = events_for s (Log.calls w) ++ l
       /\ Forall (fun e => is_close e = true) l
       /\ (Log.closes w !! s = Some Log.Returned -> l = []).

(** Every session that was not asked to close is in the array. *)
Definition all_registered (w : Log.t) : Prop :=
  forall i this,
    Log.objects w !! i = Some this -> Session.closing this = false ->
    i ∈ Log.sessions w.

(** The Core was closed at most once, and then the array is empty. *)
Definition closed_with_last (w : Log.t) : Prop :=
  (core_closes (Log.calls w) <= 1)%nat
  /\ (core_closes (Log.calls w) = 1%nat -> Log.sessions w = []).

(** No step opens a session from another one. *)
Definition no_join (ops : list Log.op) : Prop :=
  Forall (fun o => match o with
                   | Log.op_join _ _ _ => False
                   | _ => True
                   end) ops.

(** * Properties *)

(** ** Encoding and decoding *)

Arguments Hypercore.allocUnsafe : simpl never.
Arguments Hypercore.padding : simpl never.

Lemma length_allocUnsafe junk n : length (Hypercore.allocUnsafe junk n) = n.
Proof. unfold Hypercore.allocUnsafe. by rewrite length_map, length_seq. Qed.

Lemma buffer_set_tail (fresh src : bytes) (p : nat) :
  length fresh = (p + length src)%nat ->
  buffer_set fresh src p = Normal (take p fresh ++ src).
Proof.
  intros Hlen. unfold buffer_set.
  rewrite Hlen, Nat.leb_refl.
  rewrite drop_ge by lia. by rewrite app_nil_r.
Qed.

Lemma drop_prefix (fresh rest : bytes) (p : nat) :
  (p <= length fresh)%nat -> drop p (take p fresh ++ rest) = rest.
Proof.
  intros Hle. rewrite drop_app_length'; [done|].
  rewrite length_take. lia.
Qed.

(** With no encoding a buffer comes back as it went in; the block in
    between is the buffer behind [padding] bytes. *)
Lemma roundtrip_buffer junk this b :
  Hypercore._encode junk this None (VBuf b)
    = Normal (VBuf (take (Hypercore.padding this)
                      (Hypercore.allocUnsafe junk
                         (Hypercore.padding this + length b)) ++ b))
  /\ roundtrip junk this None (VBuf b) = Normal (VBuf b).
Proof.
  unfold roundtrip, Hypercore._encode. cbn [State.start State.end_ State.grow bindc].
  destruct (Nat.eqb_spec (Hypercore.padding this) 0) as [H0|Hn].
  - cbn. rewrite H0. by cbn.
  - cbn. rewrite buffer_set_tail by (by rewrite length_allocUnsafe).
    cbn. split; [done|].
    unfold Hypercore._decode, subarray.
    rewrite drop_prefix; [done|]. rewrite length_allocUnsafe. lia.
Qed.

(** A value that is not a buffer comes back through an encoding that
    carries it. *)
Lemma roundtrip_encoded junk this e v payload :
  isBuffer v = false ->
  carries e v payload ->
  roundtrip junk this (Some e) v = Normal v.
Proof.
  intros Hnb (Hpre & Henc & Hdec).
  unfold roundtrip, Hypercore._encode.
  destruct v; try discriminate Hnb;
    cbn [bindc]; rewrite Hpre; cbn [bindc State.start State.end_ State.grow State.buffer];
    rewrite (Henc _ (Hypercore.allocUnsafe junk (Hypercore.padding this + length payload)))
      by (cbn; rewrite ?length_allocUnsafe; done);
    cbn [bindc State.buffer State.start];
    unfold Hypercore._decode, subarray;
    rewrite (drop_ge (Hypercore.allocUnsafe _ _)) by (rewrite length_allocUnsafe; lia);
    rewrite app_nil_r, drop_prefix by (rewrite length_allocUnsafe; lia);
    exact Hdec.
Qed.

Lemma string_encoding_carries s :
  carries string_encoding (VStr s) (list_byte_of_string s).
Proof.
  repeat split.
  - intros st buf Hbuf Hfit. cbn. rewrite Hbuf.
    unfold buffer_set. destruct (Nat.leb_spec (State.start st + length (list_byte_of_string s)) (length buf)); [|lia].
    reflexivity.
  - unfold c_decode.
    cbn [string_encoding Encoding.decode State.buffer State.end_ State.start].
    rewrite Nat.sub_0_r, drop_0, take_ge by done.
    by rewrite string_of_list_byte_of_string.
Qed.

(** C9, as the code has it: [_decode(enc, _encode(enc, v))] gives [v] back
    when [v] is a byte buffer and there is no encoding, and when [v] is not
    a buffer and the encoding carries it. With no encoding the block made
    from a buffer is that buffer behind exactly [padding] bytes, and
    decoding drops exactly those. *)
Theorem encode_decode_roundtrip junk this enc v :
  brought_back enc v ->
  roundtrip junk this enc v = Normal v
  /\ (forall b, enc = None -> v = VBuf b ->
        exists prefix,
          length prefix = Hypercore.padding this
          /\ Hypercore._encode junk this None (VBuf b) = Normal (VBuf (prefix ++ b))
          /\ Hypercore._decode this None (prefix ++ b) = Normal (VBuf b)).
Proof.
  intros Hbb. split.
  - destruct enc as [e|]; cbn in Hbb.
    + destruct Hbb as (Hnb & payload & Hc). by eapply roundtrip_encoded.
    + destruct v; try discriminate Hbb. apply roundtrip_buffer.
  - intros b -> ->.
    exists (take (Hypercore.padding this)
              (Hypercore.allocUnsafe junk (Hypercore.padding this + length b))).
    assert (Hlen : length (take (Hypercore.padding this)
              (Hypercore.allocUnsafe junk (Hypercore.padding this + length b)))
              = Hypercore.padding this).
    { rewrite length_take, length_allocUnsafe. lia. }
    split; [exact Hlen|]. split; [apply roundtrip_buffer|].
    unfold Hypercore._decode, subarray.
    by rewrite drop_app_length'.
Qed.

Lemma encode_decode_roundtrip_witness :
  roundtrip Sample.zeros Sample.encrypted_session (Some string_encoding) (VStr "hi")
    = Normal (VStr "hi").
Proof.
  apply (encode_decode_roundtrip Sample.zeros Sample.encrypted_session
           (Some string_encoding) (VStr "hi")).
  split; [reflexivity|].
  exists (list_byte_of_string "hi"). apply string_encoding_carries.
Defined.

(** C9 as stated fails: with no encoding the string "a" is turned into
    bytes by [b4a.from] and comes back as a buffer, not as the string. *)
Lemma roundtrip_string_without_encoding :
  roundtrip Sample.zeros (Sample.reader Options.empty) None (VStr "a")
    = Normal (VBuf [x61])
  /\ roundtrip Sample.zeros (Sample.reader Options.empty) None (VStr "a")
     <> Normal (VStr "a").
Proof. split; [reflexivity | discriminate]. Qed.

(** A buffer under an encoding, without padding, is stored as it is and
    then decoded by the encoding. *)
Example roundtrip_buffer_under_encoding :
  roundtrip Sample.zeros (Sample.reader Options.empty) (Some string_encoding)
    (VBuf [x61]) = Normal (VStr "a").
Proof. reflexivity. Qed.

Example encode_with_padding :
  Hypercore._encode Sample.zeros Sample.encrypted_session None (VBuf [x68; x69])
  = Normal (VBuf [x00; x00; x00; x00; x00; x00; x00; x00; x68; x69]).
Proof. reflexivity. Qed.

(** ** Reading *)

Lemma after_opening_opened this opening :
  Session.opened this = true -> Hypercore.after_opening this opening = Normal this.
Proof. unfold Hypercore.after_opening. by intros ->. Qed.

Lemma cached_truthy this index v :
  Hypercore.cached this index = Some v -> truthy v = true.
Proof.
  unfold Hypercore.cached.
  destruct (Session.cache this) as [m|]; [|done].
  destruct (m !! index) as [x|]; [|done].
  destruct (truthy x) eqn:E; [|done]. by intros [= <-].
Qed.

Lemma cached_not_null this index : Hypercore.cached this index <> Some VNull.
Proof. by intros ?%cached_truthy. Qed.

(** What [get] resolves to does not depend on the cache once the lookup
    has missed. *)
Lemma get_miss this opening c r later c' index opts :
  Session.opened this = true ->
  Session.core later = Some the_core ->
  Hypercore.cached this index = None ->
  fst (Hypercore.get this opening c r later c' index opts)
  = Hypercore._get this c r index opts.
Proof.
  intros Hop Hlater Hmiss. unfold Hypercore.get.
  rewrite after_opening_opened by done. rewrite Hmiss.
  destruct (Hypercore.the_Core this c) as [core|e] eqn:Hc; cbn [bindc].
  - destruct (Hypercore._get this c r index opts) as [b|e] eqn:Hg; cbn [bindc]; [|done].
    destruct (Session.cache later); [|done].
    unfold Hypercore.the_Core. rewrite Hlater.
    by destruct (andb _ _).
  - unfold Hypercore._get. rewrite Hc. done.
Qed.

Lemma get_hit this opening c r later c' index opts v :
  Session.opened this = true ->
  Hypercore.cached this index = Some v ->
  Hypercore.get this opening c r later c' index opts
  = (Normal v, Session.cache this).
Proof.
  intros Hop Hhit. unfold Hypercore.get.
  by rewrite after_opening_opened, Hhit.
Qed.

Lemma decode_raw_not_null this opts index block :
  Hypercore.effective_encoding this opts = None ->
  Hypercore.decrypt_decode this opts index block <> Normal VNull.
Proof.
  intros He. unfold Hypercore.decrypt_decode, Hypercore._decode. by rewrite He.
Qed.

Lemma _get_cases this c r index opts :
  Session.core this = Some the_core ->
  Hypercore._get this c r index opts
  = if negb (Core.bitfield c index) && Hypercore.wait_is_false opts
    then Normal VNull
    else block <-! fetch this c r index opts;
         Hypercore.decrypt_decode this opts index block.
Proof.
  intros Hcore. unfold Hypercore._get, fetch, Hypercore.the_Core.
  rewrite Hcore. cbn [bindc].
  destruct (Core.bitfield c index); cbn [negb andb]; [done|].
  destruct (Hypercore.wait_is_false opts); [done|].
  unfold Hypercore.the_Replicator.
  destruct opts as [[w [ow|] ve]|]; cbn [bindc];
    try (destruct (ow index) as [[]|]; cbn [bindc]; [|done]);
    by destruct (Session.replicator this).
Qed.

(** Without an encoding [_get] gives null only on the way out of line 447. *)
Lemma _get_raw_null this c r index opts :
  Session.core this = Some the_core ->
  Hypercore.effective_encoding this opts = None ->
  Hypercore._get this c r index opts = Normal VNull ->
  Hypercore.wait_is_false opts = true /\ Core.bitfield c index = false.
Proof.
  intros Hcore Henc. rewrite _get_cases by done.
  destruct (Core.bitfield c index), (Hypercore.wait_is_false opts);
    cbn [negb andb]; try done;
    destruct (fetch this c r index opts) as [blk|]; cbn [bindc];
    try discriminate; by intros ?%decode_raw_not_null.
Qed.

(** C1, as the code has it. On an opened session [get(index, opts)]
    resolves to the cached value when the cache holds a truthy entry for
    the index; otherwise to null when [opts.wait === false] and the bitfield
    lacks the block, and in every other case to what fetching (local
    storage or Replicator), decrypting and decoding the block gives. With no
    value encoding in effect the decoded block is a buffer, and null comes
    back exactly when the cache missed, [opts.wait === false] and the block
    is absent. *)
Theorem get_null_contract this opening c r later c' index opts :
  Session.opened this = true ->
  Session.core this = Some the_core ->
  Session.core later = Some the_core ->
  (forall v, Hypercore.cached this index = Some v ->
     fst (Hypercore.get this opening c r later c' index opts) = Normal v)
  /\ (Hypercore.cached this index = None ->
      Hypercore.wait_is_false opts = true -> Core.bitfield c index = false ->
      fst (Hypercore.get this opening c r later c' index opts) = Normal VNull)
  /\ (Hypercore.cached this index = None ->
      ~ (Hypercore.wait_is_false opts = true /\ Core.bitfield c index = false) ->
      fst (Hypercore.get this opening c r later c' index opts)
      = (block <-! fetch this c r index opts;
         Hypercore.decrypt_decode this opts index block))
  /\ (Hypercore.effective_encoding this opts = None ->
      (fst (Hypercore.get this opening c r later c' index opts) = Normal VNull
       <-> Hypercore.cached this index = None
           /\ Hypercore.wait_is_false opts = true
           /\ Core.bitfield c index = false)).
Proof.
  intros Hop Hcore Hlater.
  split; [|split; [|split]].
  - intros v Hhit. by rewrite (get_hit _ _ _ _ _ _ _ _ v).
  - intros Hmiss Hw Hb. rewrite get_miss, _get_cases by done.
    by rewrite Hw, Hb.
  - intros Hmiss Hn. rewrite get_miss, _get_cases by done.
    destruct (Core.bitfield c index), (Hypercore.wait_is_false opts);
      cbn [negb andb]; try done.
    exfalso. by apply Hn.
  - intros Henc. split.
    + intros Hnull.
      destruct (Hypercore.cached this index) as [v|] eqn:Hc.
      * rewrite (get_hit _ _ _ _ _ _ _ _ v) in Hnull by done. cbn in Hnull.
        injection Hnull as ->. by apply cached_not_null in Hc.
      * rewrite get_miss in Hnull by done.
        split; [done|]. exact (_get_raw_null _ _ _ _ _ Hcore Henc Hnull).
    + intros (Hmiss & Hw & Hb). rewrite get_miss, _get_cases by done.
      by rewrite Hw, Hb.
Qed.

Lemma get_null_contract_witness :
  fst (Hypercore.get (Sample.reader Options.empty)
         (Normal (Sample.reader Options.empty))
         Sample.core0 Sample.no_peers
         (Sample.reader Options.empty) Sample.core0 5 Sample.no_wait)
  = Normal VNull.
Proof.
  apply (proj1 (proj2 (get_null_contract (Sample.reader Options.empty)
           (Normal (Sample.reader Options.empty))
           Sample.core0 Sample.no_peers
           (Sample.reader Options.empty) Sample.core0 5 Sample.no_wait
           eq_refl eq_refl eq_refl)));
    reflexivity.
Defined.

(** C1 as stated fails: a session whose cache still holds index 4 answers
    from the cache although [opts.wait === false] and the bitfield lacks the
    block. *)
Lemma get_answers_from_cache_when_absent :
  let this := Sample.reader (Sample.with_cache {[ 4 := VBuf [x61] ]}) in
  ~ (fst (Hypercore.get this (Normal this)
            Sample.core0 Sample.no_peers this Sample.core0 4 Sample.no_wait)
     = Normal VNull
     <-> Hypercore.wait_is_false Sample.no_wait = true
         /\ Core.bitfield Sample.core0 4 = false).
Proof.
  intros this [_ H]. specialize (H (conj eq_refl eq_refl)).
  vm_compute in H. discriminate H.
Qed.

(** Such a session comes about through the facade itself: the update
    callback clears the cache of the session it runs on, and a second
    session that was given a cache of its own keeps what it read. *)
Example stale_cache_after_truncate :
  let w := Log.run Sample.zeros Sample.engine_truncate Sample.engine_append
             Sample.log3 Sample.read_then_cut in
  Core.bitfield (Log.core w) 2 = false
  /\ Tree.length (Core.tree (Log.core w)) = 2
  /\ fst (Log.get w 1%nat 2 Sample.no_wait) = Normal (VBuf [x68; x69]).
Proof. vm_compute. done. Qed.

(** Under an encoding a block that is there may decode to null. *)
Example get_decodes_to_null :
  fst (Hypercore.get (Sample.reader Options.empty)
         (Normal (Sample.reader Options.empty))
         Sample.core_null_text Sample.no_peers
         (Sample.reader Options.empty) Sample.core_null_text 0
         (Some (Hypercore.GetOpts.mk None None (Some Sample.null_literal))))
  = Normal VNull.
Proof. vm_compute. reflexivity. Qed.

Example get_reads_local_block :
  fst (Hypercore.get (Sample.reader Options.empty)
         (Normal (Sample.reader Options.empty))
         Sample.core3 Sample.no_peers
         (Sample.reader Options.empty) Sample.core3 1 Sample.no_wait)
  = Normal (VBuf [x68; x69]).
Proof. reflexivity. Qed.

Example get_asks_the_replicator :
  fst (Hypercore.get (Sample.reader Options.empty)
         (Normal (Sample.reader Options.empty))
         Sample.core3 Sample.one_peer
         (Sample.reader Options.empty) Sample.core3 9 None)
  = Normal (VBuf [x6f; x6b]).
Proof. reflexivity. Qed.





(** ** Writing *)

Lemma append_not_writable junk engine_append this opening this' blocks c :
  Hypercore.after_opening this opening = Normal this' ->
  Session.writable this' = false ->
  Hypercore.append junk engine_append this opening blocks c
  = (Throw NotWritable, c, []).
Proof.
  intros Hopen Hw. unfold Hypercore.append, bind, lift.
  rewrite Hopen, Hw. by cbn.
Qed.

Lemma truncate_not_writable engine_truncate this opening this' newLength fork c :
  Hypercore.after_opening this opening = Normal this' ->
  Session.writable this' = false ->
  Hypercore.truncate engine_truncate this opening newLength fork c
  = (Throw NotWritable, c, []).
Proof.
  intros Hopen Hw. unfold Hypercore.truncate, bind, lift.
  rewrite Hopen, Hw. by cbn.
Qed.

(** C3. On a session that is not writable once its opening has settled,
    [append] and [truncate] both reject with the not-writable error, call
    nothing, and leave the Core, hence its length, byteLength and fork, as
    it was. *)
Theorem not_writable_rejects junk engine_truncate engine_append
    this opening this' blocks newLength fork c :
  Hypercore.after_opening this opening = Normal this' ->
  Session.writable this' = false ->
  Hypercore.append junk engine_append this opening blocks c
    = (Throw NotWritable, c, [])
  /\ Hypercore.truncate engine_truncate this opening newLength fork c
     = (Throw NotWritable, c, []).
Proof.
  intros Hopen Hw. split.
  - by eapply append_not_writable.
  - by eapply truncate_not_writable.
Qed.

Lemma not_writable_rejects_witness :
  Hypercore.append Sample.zeros Sample.engine_append
    (Sample.reader Options.empty) (Normal (Sample.reader Options.empty))
    (Hypercore.OneBlock (VBuf [x61])) Sample.core3
    = (Throw NotWritable, Sample.core3, [])
  /\ Hypercore.truncate Sample.engine_truncate
       (Sample.reader Options.empty) (Normal (Sample.reader Options.empty))
       1 (-1) Sample.core3
     = (Throw NotWritable, Sample.core3, []).
Proof.
  apply (not_writable_rejects Sample.zeros Sample.engine_truncate
           Sample.engine_append (Sample.reader Options.empty)
           (Normal (Sample.reader Options.empty))
           (Sample.reader Options.empty)); reflexivity.
Defined.

Lemma after_opening_settled this :
  Hypercore.after_opening this (Normal this) = Normal this.
Proof. unfold Hypercore.after_opening. by destruct (Session.opened this). Qed.

(** The same seen from the log: the shared Core does not move, and nothing
    goes out. *)
Lemma log_unchanged_when_not_writable junk engine_truncate engine_append
    w s this blocks newLength fork :
  Log.objects w !! s = Some this ->
  Session.writable this = false ->
  Log.core (Log.append junk engine_append w s blocks) = Log.core w
  /\ Log.core (Log.truncate engine_truncate w s newLength fork) = Log.core w.
Proof.
  intros Hs Hw. unfold Log.append, Log.truncate, Log.on_core. rewrite Hs.
  rewrite (append_not_writable _ _ _ _ this)
    by (done || apply after_opening_settled).
  rewrite (truncate_not_writable _ _ _ this)
    by (done || apply after_opening_settled).
  done.
Qed.

Lemma round_double_safe x :
  Z.abs x <= MAX_SAFE_INTEGER -> round_double x = x.
Proof.
  intros H. unfold round_double. cbn zeta.
  by destruct (Z.leb_spec (Z.abs x) MAX_SAFE_INTEGER); [|lia].
Qed.

(** Below 2^53 adding one is exact, and 2^53 itself is a double. *)
Lemma js_succ_safe x : Z.abs x <= MAX_SAFE_INTEGER -> js_succ x = x + 1.
Proof.
  intros H. unfold js_succ.
  destruct (Z.le_gt_cases (Z.abs (x + 1)) MAX_SAFE_INTEGER) as [Hle|Hgt].
  - by apply round_double_safe.
  - unfold MAX_SAFE_INTEGER in *.
    assert (Hx : x + 1 = 9007199254740992) by lia.
    rewrite Hx. vm_compute. reflexivity.
Qed.

Lemma truncate_settled engine_truncate this opening this' newLength fork c :
  Hypercore.after_opening this opening = Normal this' ->
  Session.writable this' = true ->
  Session.core this' = Some the_core ->
  Session.replicator this' = Some the_replicator ->
  Hypercore.truncate engine_truncate this opening newLength fork c
  = truncated engine_truncate this' c newLength
      (if fork =? -1 then js_succ (Tree.fork (Core.tree c)) else fork).
Proof.
  intros Hopen Hw Hcore Hrep.
  unfold Hypercore.truncate, truncated, bind, lift, read, tell,
    Hypercore.the_Core, Hypercore.on_replicator.
  rewrite Hopen, Hw, Hcore, Hrep. cbn.
  destruct (engine_truncate c newLength _ (Session.sign this')) as [[[]|e] c1]; done.
Qed.

(** C4, as the code has it. On a writable, opened session
    [truncate(newLength)] with the default fork calls the Core's truncate
    with the JavaScript number [fork + 1], which is the current fork plus
    one as long as the current fork is a safe integer (at most 2^53 - 1 in
    magnitude); [truncate(newLength, f)] with [f >= 0] calls it with [f].
    The Replicator's [updateAll] follows once the Core has returned, and is
    not reached when the Core throws. *)
Theorem truncate_fork engine_truncate this opening this' newLength c :
  Hypercore.after_opening this opening = Normal this' ->
  Session.writable this' = true ->
  Session.core this' = Some the_core ->
  Session.replicator this' = Some the_replicator ->
  Hypercore.truncate engine_truncate this opening newLength (-1) c
    = truncated engine_truncate this' c newLength
        (js_succ (Tree.fork (Core.tree c)))
  /\ (Z.abs (Tree.fork (Core.tree c)) <= MAX_SAFE_INTEGER ->
      Hypercore.truncate engine_truncate this opening newLength (-1) c
      = truncated engine_truncate this' c newLength
          (Tree.fork (Core.tree c) + 1))
  /\ (forall f, 0 <= f ->
        Hypercore.truncate engine_truncate this opening newLength f c
        = truncated engine_truncate this' c newLength f).
Proof.
  intros Hopen Hw Hcore Hrep. split; [|split].
  - by rewrite (truncate_settled _ _ _ this').
  - intros Hsafe. rewrite (truncate_settled _ _ _ this') by done.
    cbn [Z.eqb Pos.eqb]. by rewrite js_succ_safe.
  - intros f Hf. rewrite (truncate_settled _ _ _ this') by done.
    destruct (Z.eqb_spec f (-1)); [lia | done].
Qed.

Lemma truncate_fork_witness :
  Hypercore.truncate Sample.engine_truncate
    (Sample.writer Options.empty) (Normal (Sample.writer Options.empty))
    2 (-1) Sample.core3
  = truncated Sample.engine_truncate (Sample.writer Options.empty)
      Sample.core3 2 (Tree.fork (Core.tree Sample.core3) + 1).
Proof.
  refine (proj1 (proj2
    (truncate_fork Sample.engine_truncate (Sample.writer Options.empty)
       (Normal (Sample.writer Options.empty)) (Sample.writer Options.empty)
       2 Sample.core3 _ _ _ _)) _); vm_compute; congruence.
Defined.

(** C4 as stated fails past the safe integers: at the fork 2^53, which
    [truncate(newLength, 2 ** 53)] sets, the default fork handed to the Core
    is 2^53 again, not 2^53 + 1. *)
Lemma truncate_fork_beyond_safe :
  Tree.fork (Core.tree Sample.core_far) = 9007199254740992
  /\ snd (Hypercore.truncate Sample.engine_truncate
            (Sample.writer Options.empty) (Normal (Sample.writer Options.empty))
            2 (-1) Sample.core_far)
     = [core_truncate 2 9007199254740992 (Some (UserSigner 1));
        replicator_updateAll]
  /\ Hypercore.truncate Sample.engine_truncate
       (Sample.writer Options.empty) (Normal (Sample.writer Options.empty))
       2 (-1) Sample.core_far
     <> truncated Sample.engine_truncate (Sample.writer Options.empty)
          Sample.core_far 2 (Tree.fork (Core.tree Sample.core_far) + 1).
Proof.
  split; [reflexivity|]. split; [vm_compute; reflexivity|].
  vm_compute. intros H. discriminate H.
Qed.

Example truncate_default_fork_calls :
  snd (Hypercore.truncate Sample.engine_truncate
         (Sample.writer Options.empty) (Normal (Sample.writer Options.empty))
         2 (-1) Sample.core3)
  = [core_truncate 2 1 (Some (UserSigner 1)); replicator_updateAll].
Proof. reflexivity. Qed.

Example truncate_given_fork_calls :
  snd (Hypercore.truncate Sample.engine_truncate
         (Sample.writer Options.empty) (Normal (Sample.writer Options.empty))
         2 7 Sample.core3)
  = [core_truncate 2 7 (Some (UserSigner 1)); replicator_updateAll].
Proof. reflexivity. Qed.

(** ** Download ranges *)

Lemma fold_min_from (l : list Z) (a : Z) :
  exists m, fold_left (fun x b => Math_min x (Num b)) l (Num a) = Num m
            /\ (m = a \/ m ∈ l) /\ m <= a /\ forall x, x ∈ l -> m <= x.
Proof.
  revert a. induction l as [|b l IH]; intros a; cbn.
  - exists a. repeat split; [by left | lia | intros x Hx; by apply elem_of_nil in Hx].
  - destruct (IH (Z.min a b)) as (m & Hm & Hin & Hle & Hall).
    exists m. split; [exact Hm|]. repeat split.
    + destruct Hin as [->|Hin].
      * destruct (Z.min_spec a b) as [[_ ->]|[_ ->]]; [by left | right; left].
      * right. by right.
    + lia.
    + intros x [->|Hx]%elem_of_cons; [lia | by apply Hall].
Qed.

Lemma min_is_least (b : Z) (l : list Z) :
  exists m, Hypercore.min (b :: l) = Num m
            /\ m ∈ b :: l /\ forall x, x ∈ b :: l -> m <= x.
Proof.
  unfold Hypercore.min, Hypercore.reduce. cbn.
  destruct (fold_min_from l b) as (m & Hm & Hin & Hle & Hall).
  exists m. split; [exact Hm|]. split.
  - destruct Hin as [->|Hin]; [left | by right].
  - intros x [->|Hx]%elem_of_cons; [lia | by apply Hall].
Qed.

Lemma fold_max_from (l : list Z) (a : Z) :
  exists m, fold_left (fun x b => Math_max x (Num b)) l (Num a) = Num m
            /\ (m = a \/ m ∈ l) /\ a <= m /\ forall x, x ∈ l -> x <= m.
Proof.
  revert a. induction l as [|b l IH]; intros a; cbn.
  - exists a. repeat split; [by left | lia | intros x Hx; by apply elem_of_nil in Hx].
  - destruct (IH (Z.max a b)) as (m & Hm & Hin & Hle & Hall).
    exists m. split; [exact Hm|]. repeat split.
    + destruct Hin as [->|Hin].
      * destruct (Z.max_spec a b) as [[_ ->]|[_ ->]]; [right; left | by left].
      * right. by right.
    + lia.
    + intros x [->|Hx]%elem_of_cons; [lia | by apply Hall].
Qed.

Lemma max_is_greatest (b : Z) (l : list Z) :
  exists m, Hypercore.max (b :: l) = Num m
            /\ m ∈ b :: l /\ forall x, x ∈ b :: l -> x <= m.
Proof.
  unfold Hypercore.max, Hypercore.reduce. cbn.
  destruct (fold_max_from l b) as (m & Hm & Hin & Hle & Hall).
  exists m. split; [exact Hm|]. split.
  - destruct Hin as [->|Hin]; [left | by right].
  - intros x [->|Hx]%elem_of_cons; [lia | by apply Hall].
Qed.

Lemma or_else_unset x y : unset x -> Hypercore.or_else x y = y.
Proof. by intros [-> | ->]. Qed.

Lemma or_else_set z y : z <> 0 -> Hypercore.or_else (Some z) y = Num z.
Proof. intros Hz. cbn. by destruct (Z.eqb_spec z 0). Qed.

Lemma nonempty_set_size (b : Z) (l : list Z) :
  (size (list_to_set (b :: l) : gset Z) =? 0)%nat = false.
Proof.
  apply Nat.eqb_neq. intros Hsz. apply size_empty_inv in Hsz.
  cbn in Hsz. set_solver.
Qed.

(** C8, as the code has it. For a non-empty [range.blocks] the created
    range starts at the least index of [blocks] when [range.start] is
    missing or zero; when [range.end] is missing or zero it ends at the
    JavaScript number [max + 1] for the greatest index [max], which is one
    past the greatest as long as that is a safe integer (at most 2^53 - 1
    in magnitude). A [range.start] or [range.end] that is given and not
    zero is taken as it is. The filter accepts exactly the members of
    [blocks]. Without [blocks] and without a numeric [end], [end] is -1. *)
Theorem download_range this range r reg :
  Hypercore.download this (Some range) = Normal (r, reg) ->
  (forall bs, RangeOpts.blocks range = Some bs -> bs <> [] ->
     (unset (RangeOpts.start range) ->
        exists m, Range.start r = Num m /\ m ∈ bs /\ forall x, x ∈ bs -> m <= x)
     /\ (unset (RangeOpts.end_ range) ->
        exists m, Range.end_ r = Num (js_succ m)
                  /\ (Z.abs m <= MAX_SAFE_INTEGER -> Range.end_ r = Num (m + 1))
                  /\ m ∈ bs /\ forall x, x ∈ bs -> x <= m)
     /\ (forall z, RangeOpts.start range = Some z -> z <> 0 -> Range.start r = Num z)
     /\ (forall z, RangeOpts.end_ range = Some z -> z <> 0 -> Range.end_ r = Num z)
     /\ exists f, Range.filter r = Some f /\ forall i, f i = true <-> i ∈ bs)
  /\ (RangeOpts.blocks range = None -> RangeOpts.end_ range = None ->
      Range.end_ r = Num (-1)).
Proof.
  intros Hd.
  assert (Hr : r = Hypercore.requested (Some range)).
  { unfold Hypercore.download in Hd.
    destruct (Session.opened this).
    - destruct (Hypercore.on_replicator this); cbn in Hd; [|discriminate Hd].
      injection Hd as H1 H2. by rewrite <- H1.
    - injection Hd as H1 H2. by rewrite <- H1. }
  subst r. clear Hd. destruct range as [lin rstart rend rblocks]. cbn.
  split.
  - intros bs -> Hne. destruct bs as [|b l]; [congruence|].
    cbn [Range.start Range.end_ Range.filter].
    rewrite !nonempty_set_size. cbn [negb].
    split; [|split; [|split; [|split]]].
    + intros Hu. rewrite or_else_unset by done. apply min_is_least.
    + intros Hu. rewrite or_else_unset by done.
      destruct (max_is_greatest b l) as (m & -> & Hin & Hall). exists m.
      cbn [plus_one]. split; [done|]. split; [|done].
      intros Hsafe. by rewrite js_succ_safe.
    + intros z -> Hz. by apply or_else_set.
    + intros z -> Hz. by apply or_else_set.
    + eexists. split; [reflexivity|]. intros i.
      rewrite bool_decide_eq_true. apply elem_of_list_to_set.
  - by intros -> ->.
Qed.

Lemma download_range_witness :
  exists m, Range.start (Hypercore.requested
                           (Some (RangeOpts.mk false None None (Some [5; 3; 9]))))
            = Num m
            /\ m ∈ [5; 3; 9] /\ forall x, x ∈ [5; 3; 9] -> m <= x.
Proof.
  refine (proj1 (proj1 (download_range (Sample.reader Options.empty)
            (RangeOpts.mk false None None (Some [5; 3; 9]))
            (Hypercore.requested (Some (RangeOpts.mk false None None (Some [5; 3; 9]))))
            Hypercore.AddedNow eq_refl) [5; 3; 9] eq_refl _) _).
  - discriminate.
  - by left.
Defined.

(** C8 as stated fails: with [blocks] 3 and 5 and [start] 1 the range
    starts at 1, not at the least block 3, and lies outside [blocks]. *)
Lemma download_given_start_wins :
  let r := Hypercore.requested
             (Some (RangeOpts.mk false (Some 1) None (Some [3; 5]))) in
  Hypercore.download (Sample.reader Options.empty)
    (Some (RangeOpts.mk false (Some 1) None (Some [3; 5])))
  = Normal (r, Hypercore.AddedNow)
  /\ Range.start r = Num 1
  /\ ~ (exists m, Range.start r = Num m /\ m ∈ [3; 5]).
Proof.
  intros r. split; [reflexivity|]. split; [reflexivity|].
  intros (m & Hm & Hin). cbn in Hm. injection Hm as <-.
  rewrite !elem_of_cons, elem_of_nil in Hin. lia.
Qed.

Example download_blocks :
  let r := Hypercore.requested
             (Some (RangeOpts.mk false None None (Some [5; 3; 9]))) in
  Range.start r = Num 3 /\ Range.end_ r = Num 10.
Proof. split; reflexivity. Qed.

Example download_everything :
  Range.end_ (Hypercore.requested None) = Num (-1).
Proof. reflexivity. Qed.

(** Past the safe integers the end is not one past the greatest block. *)
Example download_end_beyond_safe :
  Range.end_ (Hypercore.requested
                (Some (RangeOpts.mk false None None (Some [9007199254740992]))))
  = Num 9007199254740992.
Proof. vm_compute. reflexivity. Qed.


(** ** Update routing *)

Lemma runs_as_bind {A B} (m : M Session.t A) (k : A -> M Session.t B)
    st T1 s1 T2 s2 :
  runs_as m st T1 s1 ->
  (forall a t, m st = (Normal a, s1, t) -> runs_as (k a) s1 T2 s2) ->
  runs_as (bind m k) st (T1 ++ T2) s2.
Proof.
  intros Hm Hk r st' tr. unfold bind.
  destruct (m st) as [[[a|e] sa] t1] eqn:E.
  - destruct (Hm _ _ _ E) as [_ Heq]. destruct (Heq a eq_refl) as [-> ->].
    destruct (k a s1) as [[r2 sb] t2] eqn:Ek. intros [= <- <- <-].
    destruct (Hk a T1 eq_refl _ _ _ Ek) as [Hpre Hfull]. split.
    + by apply prefix_app.
    + intros b ->. by destruct (Hfull b eq_refl) as [-> ->].
  - intros [= <- <- <-]. destruct (Hm _ _ _ E) as [Hpre _]. split.
    + by apply prefix_app_r.
    + done.
Qed.

Lemma runs_as_ret {A} (a : A) st : runs_as (ret a) st [] st.
Proof. intros r st' tr [= <- <- <-]. split; [done | by intros]. Qed.

Lemma runs_as_tell c st : runs_as (tell c) st [c] st.
Proof. intros r st' tr [= <- <- <-]. split; [done | by intros]. Qed.

Lemma runs_as_read st : runs_as read st [] st.
Proof. intros r st' tr [= <- <- <-]. split; [done | by intros]. Qed.

(** A step that may throw before it has called anything. *)
Lemma runs_as_lift {A} (x : completion A) st :
  runs_as (lift x) st [] st.
Proof. intros r st' tr [= <- <- <-]. split; [done | by intros]. Qed.

Lemma runs_as_for_each {A} (body : A -> M Session.t unit)
    (f : A -> list call) xs :
  (forall x st, runs_as (body x) st (f x) st) ->
  forall st, runs_as (for_each xs body) st (flat_map f xs) st.
Proof.
  intros Hbody. induction xs as [|x xs IH]; intros st.
  - apply runs_as_ret.
  - cbn [for_each flat_map]. eapply runs_as_bind; [apply Hbody|].
    intros. apply IH.
Qed.

Lemma flat_map_singleton {A B} (f : A -> B) (l : list A) :
  flat_map (fun x => [f x]) l = map f l.
Proof. induction l as [|x l IH]; [done|]. cbn. by rewrite IH. Qed.

Lemma status_events_runs c status bitfield s st :
  runs_as (Hypercore.status_events c status bitfield s) st
    (status_calls (Hypercore.present (Session.cache st)) status
       (start_of bitfield) (Tree.fork (Core.tree c)) s)
    (if Hypercore.truncate_bit status && Hypercore.present (Session.cache st)
     then cleared st else st).
Proof.
  intros r st' tr.
  unfold Hypercore.status_events, status_calls, when, bind, read, write, tell,
    lift, ret, Hypercore.delta_start, Hypercore.the_Core, cleared.
  destruct (Hypercore.truncate_bit status), (Hypercore.append_bit status),
    (Session.cache st) as [m|] eqn:Hc, bitfield as [d|];
    cbn; rewrite ?Hc; cbn;
    destruct (Session.core st); cbn; intros [= <- <- <-];
    (split; [by eexists | by intros]).
Qed.

Lemma cleared_present this :
  Hypercore.present (Session.cache (cleared this)) = true.
Proof. done. Qed.

Lemma for_each_status_runs c status bitfield sessions :
  forall st,
  runs_as (for_each sessions (Hypercore.status_events c status bitfield)) st
    (flat_map (status_calls (Hypercore.present (Session.cache st)) status
                 (start_of bitfield) (Tree.fork (Core.tree c))) sessions)
    (if Hypercore.truncate_bit status
        && Hypercore.present (Session.cache st)
        && match sessions with [] => false | _ => true end
     then cleared st else st).
Proof.
  induction sessions as [|s rest IH]; intros st.
  - rewrite andb_false_r. apply runs_as_ret.
  - cbn [for_each flat_map]. rewrite andb_true_r.
    eapply runs_as_bind; [apply status_events_runs|].
    intros [] t _.
    specialize (IH (if Hypercore.truncate_bit status
                       && Hypercore.present (Session.cache st)
                    then cleared st else st)).
    destruct (Hypercore.truncate_bit status),
      (Hypercore.present (Session.cache st)) eqn:Hp;
      cbn [andb] in *; rewrite ?Hp, ?cleared_present in IH; cbn [andb] in IH;
      try exact IH.
    by destruct rest.
Qed.

Lemma download_event_runs bitfield byteLength from s st :
  runs_as (Hypercore.download_event bitfield byteLength from s) st
    [emit s (ev_download (start_of bitfield) byteLength from)] st.
Proof.
  intros r st' tr.
  unfold Hypercore.download_event, bind, lift, tell, Hypercore.delta_start.
  destruct bitfield; intros [= <- <- <-]; (split; [by eexists | by intros]).
Qed.

Lemma broadcast_runs (this : Session.t) i st :
  runs_as (lift (Hypercore.on_replicator this);;
           tell (replicator_broadcastBlock i)) st
    [replicator_broadcastBlock i] st.
Proof.
  intros r st' tr. unfold bind, lift, tell.
  destruct (Hypercore.on_replicator this); intros [= <- <- <-];
    (split; [by eexists | by intros]).
Qed.

(** The state [_oncoreupdate] leaves when it returns. *)
Lemma oncoreupdate_runs sessions c status bitfield value from this :
  runs_as (Hypercore._oncoreupdate sessions c status bitfield value from) this
    (update_calls this sessions c status bitfield value from)
    (if Hypercore.truncate_bit status
        && Hypercore.present (Session.cache this)
        && match sessions with [] => false | _ => true end
        && negb (status =? 0)
     then cleared this else this).
Proof.
  unfold Hypercore._oncoreupdate, update_calls.
  set (this1 := if Hypercore.truncate_bit status
                   && Hypercore.present (Session.cache this)
                   && match sessions with [] => false | _ => true end
                   && negb (status =? 0)
                then cleared this else this).
  assert (Hpad : Hypercore.padding this1 = Hypercore.padding this).
  { unfold this1. by destruct (_ && _). }
  eapply (runs_as_bind _ _ _ _ this1 _ this1);
    [|intros [] t1 _; eapply (runs_as_bind _ _ _ _ this1 _ this1)].
  - (* the status loop and broadcastInfo *)
    unfold when, this1. destruct (negb (status =? 0)).
    + rewrite andb_true_r.
      set (st1 := if Hypercore.truncate_bit status
                     && Hypercore.present (Session.cache this)
                     && match sessions with [] => false | _ => true end
                  then cleared this else this).
      eapply (runs_as_bind _ _ _ _ st1 _ st1); [apply for_each_status_runs|].
      intros [] t _. rewrite <- (app_nil_l [replicator_broadcastInfo]).
      eapply (runs_as_bind _ _ _ _ st1 _ st1); [apply runs_as_read|].
      intros a t' _. rewrite <- (app_nil_l [replicator_broadcastInfo]).
      eapply (runs_as_bind _ _ _ _ st1 _ st1); [apply runs_as_lift|].
      intros [] t'' _. apply runs_as_tell.
    + rewrite andb_false_r. apply runs_as_ret.
  - (* the blocks of the bitfield *)
    destruct bitfield as [d|]; [|apply runs_as_ret].
    unfold when. destruct (Delta.drop d); cbn [negb]; [apply runs_as_ret|].
    rewrite <- (app_nil_l (map _ _)).
    eapply (runs_as_bind _ _ _ _ this1 _ this1); [apply runs_as_read|].
    intros a t _. rewrite <- flat_map_singleton.
    apply runs_as_for_each. intros i st. apply broadcast_runs.
  - (* the download events *)
    intros [] t2 _. destruct value as [v|]; [|apply runs_as_ret].
    rewrite <- (app_nil_l (map _ _)).
    eapply (runs_as_bind _ _ _ _ this1 _ this1); [apply runs_as_read|].
    intros a t Hread. injection Hread as -> _.
    rewrite Hpad, <- (flat_map_singleton
                        (fun s => emit s (ev_download (start_of bitfield)
                                            (Z.of_nat (length v)
                                             - Z.of_nat (Hypercore.padding this))
                                            from))).
    apply runs_as_for_each. intros s st. apply download_event_runs.
Qed.

(** A callback that returns has made exactly the calls of [update_calls],
    and has emptied the session's cache when it dispatched a truncate. *)
Lemma oncoreupdate_calls sessions c status bitfield value from this this' tr :
  Hypercore._oncoreupdate sessions c status bitfield value from this
    = (Normal tt, this', tr) ->
  tr = update_calls this sessions c status bitfield value from
  /\ this' = (if Hypercore.truncate_bit status
                 && Hypercore.present (Session.cache this)
                 && match sessions with [] => false | _ => true end
                 && negb (status =? 0)
              then cleared this else this).
Proof.
  intros Hrun.
  destruct (oncoreupdate_runs sessions c status bitfield value from this
              _ _ _ Hrun) as [_ Hfull].
  by apply (Hfull tt).
Qed.

Lemma events_for_app s t1 t2 :
  events_for s (t1 ++ t2) = events_for s t1 ++ events_for s t2.
Proof. unfold events_for. apply omap_app. Qed.

(** A session that occurs once in the array is served once by a loop over
    the array. *)
Lemma events_for_flat_map s (f : sid -> list call) (E : list event) l :
  (forall x, events_for s (f x) = if (x =? s)%nat then E else []) ->
  NoDup l ->
  events_for s (flat_map f l) = if bool_decide (s ∈ l) then E else [].
Proof.
  intros Hf. induction l as [|x l IH]; intros Hnd; [done|].
  apply NoDup_cons in Hnd as [Hx Hnd].
  cbn [flat_map]. rewrite events_for_app, Hf, IH by done.
  destruct (Nat.eqb_spec x s) as [->|Hne].
  - rewrite (bool_decide_eq_false_2 (s ∈ l)) by done. rewrite app_nil_r.
    rewrite bool_decide_eq_true_2 by left. done.
  - cbn [app]. destruct (decide (s ∈ l)) as [Hin|Hin].
    + rewrite (bool_decide_eq_true_2 (s ∈ l)) by done.
      rewrite bool_decide_eq_true_2 by (by right). done.
    + rewrite (bool_decide_eq_false_2 (s ∈ l)) by done.
      rewrite bool_decide_eq_false_2; [done|].
      intros [->|?]%elem_of_cons; done.
Qed.

Lemma events_for_map s (f : sid -> event) l :
  NoDup l ->
  events_for s (map (fun x => emit x (f x)) l)
  = if bool_decide (s ∈ l) then [f s] else [].
Proof.
  intros Hnd.
  assert (Hfm : map (fun x => emit x (f x)) l
                = flat_map (fun x => [emit x (f x)]) l).
  { clear Hnd. induction l as [|x l IH]; [done|]. cbn. by rewrite IH. }
  rewrite Hfm. apply events_for_flat_map; [|done].
  intros x. cbn. destruct (Nat.eqb_spec x s) as [->|]; done.
Qed.

Lemma events_for_broadcast s (indices : list Z) :
  events_for s (map replicator_broadcastBlock indices) = [].
Proof. induction indices as [|i l IH]; [done|]. exact IH. Qed.

Lemma events_for_status s cache_on status start fork x :
  events_for s (status_calls cache_on status start fork x)
  = if (x =? s)%nat
    then (if Hypercore.truncate_bit status then [ev_truncate start fork] else [])
         ++ (if Hypercore.append_bit status then [ev_append] else [])
    else [].
Proof.
  unfold status_calls, events_for.
  destruct (Hypercore.truncate_bit status), (Hypercore.append_bit status),
    cache_on; cbn; destruct (x =? s)%nat; done.
Qed.

Lemma status_zero_bits status :
  negb (status =? 0) = false ->
  Hypercore.truncate_bit status = false /\ Hypercore.append_bit status = false.
Proof.
  intros H. apply negb_false_iff, Z.eqb_eq in H. by subst.
Qed.

Lemma events_for_prefix s tr T :
  tr `prefix_of` T -> events_for s tr `prefix_of` events_for s T.
Proof. intros [k ->]. rewrite events_for_app. by eexists. Qed.

(** Of all the calls of one callback, a session registered once sees its
    truncate, its append and its download, in that order. *)
Lemma events_of_update_calls sessions c status bitfield value from this s :
  NoDup sessions ->
  s ∈ sessions ->
  events_for s (update_calls this sessions c status bitfield value from)
  = owed this c status bitfield value from.
Proof.
  intros Hnd Hin. unfold update_calls, owed. rewrite !events_for_app.
  assert (E1 : events_for s
                 (if negb (status =? 0)
                  then flat_map (status_calls (Hypercore.present (Session.cache this))
                                   status (start_of bitfield)
                                   (Tree.fork (Core.tree c))) sessions
                       ++ [replicator_broadcastInfo]
                  else [])
               = (if Hypercore.truncate_bit status
                  then [ev_truncate (start_of bitfield) (Tree.fork (Core.tree c))]
                  else [])
                 ++ (if Hypercore.append_bit status then [ev_append] else [])).
  { destruct (negb (status =? 0)) eqn:Hs.
    - rewrite events_for_app. cbn [events_for omap]. rewrite app_nil_r.
      rewrite (events_for_flat_map s _
                 ((if Hypercore.truncate_bit status
                   then [ev_truncate (start_of bitfield) (Tree.fork (Core.tree c))]
                   else [])
                  ++ (if Hypercore.append_bit status then [ev_append] else [])));
        [| intros x; apply events_for_status | done].
      by rewrite bool_decide_eq_true_2.
    - apply status_zero_bits in Hs as [-> ->]. done. }
  rewrite E1, <- app_assoc. f_equal. f_equal.
  replace (events_for s
             match bitfield with
             | Some d =>
                 if Delta.drop d then []
                 else map replicator_broadcastBlock (Hypercore.delta_indices d)
             | None => []
             end) with (@nil event).
  2:{ destruct bitfield as [d|]; [|done].
      destruct (Delta.drop d); [done | by rewrite events_for_broadcast]. }
  cbn [app].
  destruct value as [v|]; [|done].
  rewrite (events_for_map s
             (fun _ => ev_download (start_of bitfield)
                         (Z.of_nat (length v) - Z.of_nat (Hypercore.padding this))
                         from)) by done.
  by rewrite bool_decide_eq_true_2.
Qed.

(** C7. In every invocation of [_oncoreupdate], a session registered in
    the array, once, is sent its events in the order truncate (when the
    truncate bit of the status is set), append (when the append bit is
    set), download (when a value came along): all of them when the callback
    returns, the first ones when it throws on the way. When the callback
    returns, the truncate bit is set and the session the callback runs on
    has a cache, that cache is cleared by the call just before the truncate
    event and is empty afterwards. *)
Theorem oncoreupdate_order sessions c status bitfield value from
    this r this' tr s :
  NoDup sessions ->
  s ∈ sessions ->
  Hypercore._oncoreupdate sessions c status bitfield value from this
    = (r, this', tr) ->
  events_for s tr `prefix_of` owed this c status bitfield value from
  /\ (r = Normal tt ->
      events_for s tr = owed this c status bitfield value from
      /\ (Hypercore.truncate_bit status = true ->
          is_Some (Session.cache this) ->
          Session.cache this' = Some ∅
          /\ exists before after,
               tr = before
                    ++ cache_clear
                       :: emit s (ev_truncate (start_of bitfield)
                                    (Tree.fork (Core.tree c)))
                       :: after)).
Proof.
  intros Hnd Hin Hrun.
  destruct (oncoreupdate_runs sessions c status bitfield value from this
              _ _ _ Hrun) as [Hpre Hfull].
  split.
  - rewrite <- (events_of_update_calls sessions c status bitfield value from this s)
      by done.
    by apply events_for_prefix.
  - intros ->. destruct (Hfull tt eq_refl) as [-> ->]. split.
    + by apply events_of_update_calls.
    + intros Htb [m Hm].
      assert (Hs : negb (status =? 0) = true).
      { destruct (negb (status =? 0)) eqn:Hs; [done|].
        apply status_zero_bits in Hs as [Hs _]. congruence. }
      assert (Hne : match sessions with [] => false | _ => true end = true).
      { destruct sessions; [by apply elem_of_nil in Hin | done]. }
      rewrite Htb, Hs, Hne, Hm. cbn [Hypercore.present andb]. split; [done|].
      apply list_elem_of_split in Hin as (l1 & l2 & ->).
      unfold update_calls. rewrite Hs, Hm. cbn [Hypercore.present].
      rewrite flat_map_app. cbn [flat_map].
      unfold status_calls at 2. rewrite Htb. cbn [app].
      rewrite <- !app_assoc. cbn [app].
      eexists _, _. reflexivity.
Qed.

Lemma oncoreupdate_order_witness :
  events_for 1%nat
    (snd (Hypercore._oncoreupdate [0%nat; 1%nat] Sample.core3 3
            (Some (Delta.mk false 2 1)) (Some [x68; x69]) (Some 7%nat)
            (Sample.reader (Sample.with_cache ∅))))
  = [ev_truncate 2 0; ev_append; ev_download 2 2 (Some 7%nat)].
Proof.
  refine (proj1 (proj2 (oncoreupdate_order [0%nat; 1%nat] Sample.core3 3
            (Some (Delta.mk false 2 1)) (Some [x68; x69]) (Some 7%nat)
            (Sample.reader (Sample.with_cache ∅)) (Normal tt)
            (cleared (Sample.reader (Sample.with_cache ∅)))
            _ 1%nat _ _ _) eq_refl)).
  - repeat constructor; rewrite ?elem_of_cons, ?elem_of_nil; lia.
  - right. left.
  - vm_compute. reflexivity.
Defined.

(** A callback that is handed no bitfield with a value throws at the first
    download; the sessions have had their append by then. *)
Example oncoreupdate_throws_late :
  Hypercore._oncoreupdate [0%nat; 1%nat] Sample.core3 1 None
    (Some [x68; x69]) None (Sample.reader Options.empty)
  = (Throw TypeError, Sample.reader Options.empty,
     [emit 0%nat ev_append; emit 1%nat ev_append; replicator_broadcastInfo]).
Proof. reflexivity. Qed.

Example oncoreupdate_calls_in_order :
  snd (Hypercore._oncoreupdate [0%nat; 1%nat] Sample.core3 3
         (Some (Delta.mk false 2 1)) (Some [x68; x69]) (Some 7%nat)
         (Sample.reader (Sample.with_cache ∅)))
  = [cache_clear; emit 0%nat (ev_truncate 2 0); emit 0%nat ev_append;
     cache_clear; emit 1%nat (ev_truncate 2 0); emit 1%nat ev_append;
     replicator_broadcastInfo; replicator_broadcastBlock 2;
     emit 0%nat (ev_download 2 2 (Some 7%nat));
     emit 1%nat (ev_download 2 2 (Some 7%nat))].
Proof. vm_compute. reflexivity. Qed.

(** C7 fails for the cache of another session. The callback clears the
    cache of the session it runs on and no other: a registered session with
    a cache of its own is sent the truncate event while its cache keeps the
    block that was cut off, and goes on to answer [get] with it. *)
Lemma truncate_leaves_session_cache :
  let w := Log.run Sample.zeros Sample.engine_truncate Sample.engine_append
             Sample.log3 Sample.read_then_cut in
  Log.sessions w = [0%nat; 1%nat]
  /\ Log.calls w
     = [emit 1%nat ev_ready;
        core_truncate 2 1 (Some (UserSigner 1)); replicator_updateAll;
        emit 0%nat (ev_truncate 2 1); emit 1%nat (ev_truncate 2 1);
        replicator_broadcastInfo]
  /\ match Log.objects w !! 1%nat with
     | Some this =>
         match Session.cache this with
         | Some m => m !! 2
         | None => None
         end
     | None => None
     end = Some (VBuf [x68; x69])
  /\ Tree.length (Core.tree (Log.core w)) = 2
  /\ fst (Log.get w 1%nat 2 Sample.no_wait) = Normal (VBuf [x68; x69]).
Proof. vm_compute. done. Qed.

(** ** The life of a session *)

Lemma present_is_Some {A} (o : option A) :
  Hypercore.present o = true <-> is_Some o.
Proof.
  destruct o as [a|]; cbn; split; intros H.
  - by exists a.
  - done.
  - done.
  - by destruct H.
Qed.

Lemma constructor_fields key opts s :
  Hypercore.constructor key opts = Normal s -> s = Hypercore.fields key opts.
Proof.
  unfold Hypercore.constructor. destruct (_ && _); [done|]. by intros [= <-].
Qed.

Lemma resolve_signer_cases key s opts :
  Hypercore.resolve_signer key s opts = s
  \/ exists sg, Hypercore.resolve_signer key s opts = Session.set_sign (Some sg) s.
Proof.
  unfold Hypercore.resolve_signer.
  destruct (Options.sign opts) as [sg|]; [right; by exists sg|].
  destruct (Hypercore.effective_keyPair key s opts) as [[pk [sk|]]|]; eauto.
Qed.

Lemma settle_writable_fields s c opts s' :
  Hypercore.settle_writable s c opts = Normal s' ->
  Session.writable s' = Hypercore.present (Session.sign s')
  /\ Session.core s' = Session.core s
  /\ Session.replicator s' = Session.replicator s
  /\ Session.opened s' = Session.opened s
  /\ Session._snapshot s' = Session._snapshot s.
Proof.
  unfold Hypercore.settle_writable.
  destruct (Session.sign s) as [sg|] eqn:Hs; cbn [bindc].
  - intros [= <-]. cbn. by rewrite Hs.
  - destruct (Session.core s) eqn:Hc; [|done]. cbn [bindc].
    intros [= <-]. cbn. by rewrite Hc.
Qed.

(** Closes the side goals that only compare phases. *)
Ltac by_phase :=
  repeat split; intros; try done; try discriminate;
  try match goal with
      | H : _ \/ _ |- _ => destruct H; discriminate
      | Hop : Session.opened ?s = true <-> _, H : Session.opened ?s = true |- _ =>
          apply Hop in H; discriminate H
      end.

Lemma lifecycle_sound ph s : lifecycle ph s -> sound ph s.
Proof.
  induction 1 as [key opts s Hnew
                 | ph pho s o Hs IHs Ho IHo Hph
                 | key opts s Hs IH
                 | s Hs IH
                 | s pk dk opts built Hs IH
                 | ph s c opts s' Hs IH Hph Hset
                 | s Hs IH
                 | s Hs IH
                 | ph s Hs IH]; unfold sound in *.
  - apply constructor_fields in Hnew as ->. cbn. by_phase.
  - destruct IHs as (_ & _ & _ & Hop & _), IHo as (_ & Hcr & _).
    cbn. split; [by intros ?%present_is_Some|].
    split; [exact Hcr|].
    split; [intros ->; discriminate Hph|].
    split; [exact Hop | done].
  - destruct IH as (Hw & Hcr & _ & Hop & _).
    destruct (resolve_signer_cases key s opts) as [-> | [sg ->]]; cbn.
    + split; [exact Hw|]. split; [exact Hcr|]. by_phase.
    + split; [by eexists|]. split; [exact Hcr|]. by_phase.
  - destruct IH as (Hw & Hcr & _ & Hop & _). cbn.
    split; [exact Hw|]. by_phase.
  - destruct IH as (Hw & Hcr & Hco & Hop & _). cbn.
    split; [exact Hw|]. split; [intros Hn; by rewrite Hco in Hn|].
    by_phase.
  - destruct IH as (Hw & Hcr & _ & Hop & _).
    apply settle_writable_fields in Hset as (Hws & Hc & Hr & Ho & _).
    split; [rewrite Hws; by intros ?%present_is_Some|].
    split; [by rewrite Hc, Hr|].
    split; [discriminate|].
    split; [|done].
    rewrite Ho. split; [|discriminate].
    intros Hopen. apply Hop in Hopen. subst ph. discriminate Hph.
  - destruct IH as (Hw & Hcr & _ & Hop & Hset). cbn.
    split; [exact Hw|]. split; [exact Hcr|]. split; [discriminate|].
    split; [done|]. intros _. apply Hset. by left.
  - destruct IH as (Hw & Hcr & _ & Hop & Hset). cbn.
    split; [discriminate|]. split; [exact Hcr|]. by_phase.
  - exact IH.
Qed.

Lemma lifecycle_closed_not_writable ph s :
  lifecycle ph s -> ph = Closed -> Session.writable s = false.
Proof.
  induction 1 as [key opts s Hnew
                 | ph pho s o Hs IHs Ho IHo Hph
                 | key opts s Hs IH
                 | s Hs IH
                 | s pk dk opts built Hs IH
                 | ph s c opts s' Hs IH Hph Hset
                 | s Hs IH
                 | s Hs IH
                 | ph s Hs IH]; intros Hc; try discriminate Hc.
  - subst ph. discriminate Hph.
  - done.
  - by apply IH.
Qed.

(** C5, as the code has it. At every point of a session's life a true
    writable flag means a signer is present. While the session is opened,
    from ready until close, the flag is true exactly when a signer is
    present; so it is right after capabilities were passed, which sets
    [writable = !!sign] whether or not the session has opened. Once closed
    the session is not writable, and the constructor leaves the flag false,
    in both cases whether or not a signer is held. *)
Theorem writable_iff_signer ph s :
  lifecycle ph s ->
  (Session.writable s = true -> is_Some (Session.sign s))
  /\ (Session.opened s = true ->
      (Session.writable s = true <-> is_Some (Session.sign s)))
  /\ (forall o,
        Session.writable (Hypercore._passCapabilities s o) = true
        <-> is_Some (Session.sign (Hypercore._passCapabilities s o)))
  /\ (ph = Closed -> Session.writable s = false)
  /\ (forall key opts s0,
        Hypercore.constructor key opts = Normal s0 ->
        Session.writable s0 = false /\ Session.sign s0 = Options.sign opts).
Proof.
  intros Hl. destruct (lifecycle_sound ph s Hl) as (Hw & _ & _ & Hop & Hset).
  split; [exact Hw|]. split; [|split; [|split]].
  - intros Hopen.
    rewrite Hset by (right; by apply Hop). apply present_is_Some.
  - intros o. cbn. apply present_is_Some.
  - by apply lifecycle_closed_not_writable.
  - intros key opts s0 Hnew. by apply constructor_fields in Hnew as ->.
Qed.

(** A session with a signer of its own, from the constructor to ready and
    to close. *)
Lemma signed_session_opens :
  lifecycle Opened
    (Hypercore.mark_opened
       (Session.set_writable true
          (Hypercore.fields None (Sample.with_sign (UserSigner 1))))).
Proof.
  apply lc_open.
  apply (lc_settle SignerResolved
           (Hypercore.fields None (Sample.with_sign (UserSigner 1)))
           Sample.core3 (Sample.with_sign (UserSigner 1))); [|done|done].
  apply (lc_signer None (Sample.with_sign (UserSigner 1))
           (Hypercore.fields None (Sample.with_sign (UserSigner 1)))).
  by apply (lc_new None (Sample.with_sign (UserSigner 1))).
Qed.

Lemma writable_iff_signer_witness :
  Session.writable
    (Hypercore.mark_opened
       (Session.set_writable true
          (Hypercore.fields None (Sample.with_sign (UserSigner 1))))) = true
  <-> is_Some (Session.sign
                 (Hypercore.mark_opened
                    (Session.set_writable true
                       (Hypercore.fields None (Sample.with_sign (UserSigner 1)))))).
Proof.
  apply (proj1 (proj2 (writable_iff_signer Opened _ signed_session_opens))).
  reflexivity.
Defined.

(** C5 as stated fails: after [close] the session is not writable and
    still holds its signer. The same holds right after the constructor was
    given [opts.sign]. *)
Lemma closed_session_keeps_signer :
  let s := Hypercore.close_fields
             (Hypercore.mark_opened
                (Session.set_writable true
                   (Hypercore.fields None (Sample.with_sign (UserSigner 1))))) in
  lifecycle Closed s
  /\ ~ (Session.writable s = true <-> is_Some (Session.sign s)).
Proof.
  intros s. split.
  - apply lc_close, signed_session_opens.
  - intros [_ H]. cbn in H. by specialize (H (ex_intro _ _ eq_refl)).
Qed.

Example constructed_session_not_yet_writable :
  let s := Hypercore.fields None (Sample.with_sign (UserSigner 1)) in
  lifecycle Constructed s
  /\ Session.writable s = false /\ Session.sign s = Some (UserSigner 1).
Proof.
  intros s. split; [|done].
  by apply (lc_new None (Sample.with_sign (UserSigner 1))).
Qed.

(** C10, as the code has it. While a session has no Core, [peers] is the
    empty array, and [length], [byteLength] and [fork] are 0 unless the
    session was given a snapshot, whose values they return; none of them
    throws. *)
Theorem getters_without_core ph s c r :
  lifecycle ph s ->
  Session.core s = None ->
  Hypercore.peers s r = []
  /\ match Session._snapshot s with
     | None =>
         Hypercore.length s c = 0
         /\ Hypercore.byteLength s c = 0
         /\ Hypercore.fork s c = 0
     | Some pin =>
         Hypercore.length s c = Snapshot.length pin
         /\ Hypercore.byteLength s c = Snapshot.byteLength pin
         /\ Hypercore.fork s c = Snapshot.fork pin
     end.
Proof.
  intros Hl Hcore.
  destruct (lifecycle_sound ph s Hl) as (_ & Hcr & _).
  unfold Hypercore.peers, Hypercore.length, Hypercore.byteLength, Hypercore.fork.
  rewrite (Hcr Hcore), Hcore. by destruct (Session._snapshot s).
Qed.

Lemma getters_without_core_witness :
  Hypercore.peers (Hypercore.fields None Options.empty) Sample.one_peer = []
  /\ Hypercore.length (Hypercore.fields None Options.empty) Sample.core3 = 0
     /\ Hypercore.byteLength (Hypercore.fields None Options.empty) Sample.core3 = 0
     /\ Hypercore.fork (Hypercore.fields None Options.empty) Sample.core3 = 0.
Proof.
  apply (getters_without_core Constructed (Hypercore.fields None Options.empty)
           Sample.core3 Sample.one_peer).
  - by apply (lc_new None Options.empty).
  - reflexivity.
Defined.

(** A snapshot taken through [snapshot()] from a session that has neither
    a Core nor a pin of its own pins three zeros. *)
Lemma snapshot_without_core_pins_zeros this c s :
  Session.core this = None ->
  Session._snapshot this = None ->
  Hypercore.snapshot this c = Normal s ->
  Session._snapshot s = Some (Snapshot.mk 0 0 0).
Proof.
  intros Hcore Hpin. unfold Hypercore.snapshot, Hypercore.session.
  destruct (Session.closing this); [done|].
  destruct (Hypercore.constructor _ _) as [s0|] eqn:E; [|done].
  apply constructor_fields in E as ->. cbn [bindc]. intros [= <-]. cbn.
  unfold Hypercore.length, Hypercore.byteLength, Hypercore.fork.
  by rewrite Hpin, Hcore.
Qed.

(** C10 as stated fails: a session constructed with a snapshot of length 5
    shows 5, 50 and 1 while it has no Core. *)
Lemma pinned_getters_without_core :
  let s := Hypercore.fields None
             (Options.with_snapshot (Snapshot.mk 5 50 1) Options.empty) in
  lifecycle Constructed s
  /\ Session.core s = None
  /\ Hypercore.length s Sample.core0 = 5
  /\ Hypercore.byteLength s Sample.core0 = 50
  /\ Hypercore.fork s Sample.core0 = 1
  /\ Hypercore.length s Sample.core0 <> 0.
Proof.
  intros s. split; [|done].
  by apply (lc_new None (Options.with_snapshot (Snapshot.mk 5 50 1) Options.empty)).
Qed.


(** ** Snapshots *)

Lemma only_cache_refl this : only_cache this this.
Proof. by left. Qed.

Lemma only_cache_trans a b c :
  only_cache a b -> only_cache b c -> only_cache a c.
Proof. intros [->| ->] [->| ->]; unfold only_cache; auto. Qed.

Lemma only_cache_snapshot this this' :
  only_cache this this' -> Session._snapshot this' = Session._snapshot this.
Proof. by intros [->| ->]. Qed.

Lemma bind_only_cache {A B} (m : M Session.t A) (k : A -> M Session.t B)
    st r st' tr :
  (forall r1 s1 t1, m st = (r1, s1, t1) -> only_cache st s1) ->
  (forall a s1 t1, m st = (Normal a, s1, t1) ->
     forall r2 s2 t2, k a s1 = (r2, s2, t2) -> only_cache s1 s2) ->
  bind m k st = (r, st', tr) -> only_cache st st'.
Proof.
  intros Hm Hk. unfold bind.
  destruct (m st) as [[[a|e] s1] t1] eqn:E.
  - destruct (k a s1) as [[r2 s2] t2] eqn:Ek. intros [= <- <- <-].
    eapply only_cache_trans; [by eapply Hm | by eapply Hk].
  - intros [= <- <- <-]. by eapply Hm.
Qed.

Lemma for_each_only_cache {A} (body : A -> M Session.t unit) xs :
  (forall x st r st' tr, body x st = (r, st', tr) -> only_cache st st') ->
  forall st r st' tr,
    for_each xs body st = (r, st', tr) -> only_cache st st'.
Proof.
  intros Hbody. induction xs as [|x xs IH]; intros st r st' tr Hrun.
  - injection Hrun as <- <- <-. apply only_cache_refl.
  - cbn [for_each] in Hrun. eapply bind_only_cache in Hrun; [done| |].
    + intros. by eapply Hbody.
    + intros. by eapply IH.
Qed.

Lemma status_events_only_cache c status bitfield s st r st' tr :
  Hypercore.status_events c status bitfield s st = (r, st', tr) ->
  only_cache st st'.
Proof.
  unfold Hypercore.status_events, when, bind, read, write, tell, lift, ret,
    Hypercore.delta_start, Hypercore.the_Core, only_cache, cleared.
  destruct (Hypercore.truncate_bit status), (Hypercore.append_bit status),
    (Session.cache st) as [m|] eqn:Hc, bitfield as [d|];
    cbn; rewrite ?Hc; cbn;
    destruct (Session.core st); cbn; intros [= <- <- <-]; auto.
Qed.

Lemma download_event_only_cache bitfield byteLength from s st r st' tr :
  Hypercore.download_event bitfield byteLength from s st = (r, st', tr) ->
  only_cache st st'.
Proof.
  unfold Hypercore.download_event, bind, lift, tell, Hypercore.delta_start.
  destruct bitfield; intros [= <- <- <-]; apply only_cache_refl.
Qed.

Lemma oncoreupdate_only_cache sessions c status bitfield value from st r st' tr :
  Hypercore._oncoreupdate sessions c status bitfield value from st = (r, st', tr) ->
  only_cache st st'.
Proof.
  unfold Hypercore._oncoreupdate. intros Hrun.
  eapply bind_only_cache in Hrun; [done| |].
  - intros r1 s1 t1 H1. unfold when in H1.
    destruct (negb (status =? 0)); [|injection H1 as <- <- <-; apply only_cache_refl].
    eapply bind_only_cache in H1; [done| |].
    + intros ? ? ? H. eapply for_each_only_cache in H; [done|].
      intros. by eapply status_events_only_cache.
    + intros [] s2 t2 _ r3 s3 t3 H.
      unfold bind, read, lift, tell in H.
      destruct (Hypercore.on_replicator s2); injection H as <- <- <-;
        apply only_cache_refl.
  - intros [] s1 t1 _ r2 s2 t2 H2.
    eapply bind_only_cache in H2; [done| |].
    + intros r3 s3 t3 H. destruct bitfield as [d|];
        [|injection H as <- <- <-; apply only_cache_refl].
      unfold when in H. destruct (negb (Delta.drop d));
        [|injection H as <- <- <-; apply only_cache_refl].
      eapply bind_only_cache in H; [done| |].
      * intros ? ? ? [= <- <- <-]. apply only_cache_refl.
      * intros a s4 t4 _ r5 s5 t5 H5.
        eapply for_each_only_cache in H5; [done|].
        intros x st0 r0 st0' tr0 Hb. unfold bind, lift, tell in Hb.
        destruct (Hypercore.on_replicator a); injection Hb as <- <- <-;
          apply only_cache_refl.
    + intros [] s3 t3 _ r4 s4 t4 H. destruct value as [v|];
        [|injection H as <- <- <-; apply only_cache_refl].
      eapply bind_only_cache in H; [done| |].
      * intros ? ? ? [= <- <- <-]. apply only_cache_refl.
      * intros a s5 t5 _ r6 s6 t6 H6.
        eapply for_each_only_cache in H6; [done|].
        intros. by eapply download_event_only_cache.
Qed.

Lemma pinned_observed w s pin :
  pinned w s pin ->
  Log.observed w s
  = Some (Snapshot.length pin, Snapshot.byteLength pin, Snapshot.fork pin).
Proof.
  intros (this & Hs & Hpin). unfold Log.observed. rewrite Hs.
  unfold Hypercore.length, Hypercore.byteLength, Hypercore.fork. by rewrite Hpin.
Qed.

Lemma pinned_said w s pin tr : pinned w s pin -> pinned (Log.said tr w) s pin.
Proof. done. Qed.

Lemma pinned_set_stage w s pin x st :
  pinned w s pin -> pinned (Log.set_stage x st w) s pin.
Proof. done. Qed.

Lemma pinned_set_sessions w s pin l :
  pinned w s pin -> pinned (Log.set_sessions l w) s pin.
Proof. done. Qed.

Lemma pinned_set_object w s pin x this this' :
  Log.objects w !! x = Some this ->
  Session._snapshot this' = Session._snapshot this ->
  pinned w s pin -> pinned (Log.set_object x this' w) s pin.
Proof.
  intros Hx Hsame (o & Hs & Hpin). unfold pinned, Log.set_object. cbn.
  destruct (decide (x = s)) as [->|Hne].
  - exists this'. rewrite list_lookup_insert_eq by (by eapply lookup_lt_Some).
    split; [done|]. rewrite Hsame. congruence.
  - exists o. by rewrite list_lookup_insert_ne.
Qed.

Lemma pinned_change w s pin x f :
  keeps_snapshot f -> pinned w s pin -> pinned (Log.change w x f) s pin.
Proof.
  intros Hf Hp. unfold Log.change.
  destruct (Log.objects w !! x) as [this|] eqn:Hx; [|done].
  by eapply pinned_set_object.
Qed.

Lemma pinned_pushed w s pin new :
  pinned w s pin -> pinned (Log.push new w) s pin.
Proof.
  intros (o & Hs & Hpin). exists o. cbn. split; [|done].
  rewrite lookup_app_l; [done | by eapply lookup_lt_Some].
Qed.

Lemma pinned_on_core {A} w s pin (m : M Core.t A) :
  pinned w s pin -> pinned (Log.on_core w m) s pin.
Proof. unfold Log.on_core. by destruct (m (Log.core w)) as [[r c] tr]. Qed.

Lemma pinned_on_root {A} w s pin root (m : M Session.t A) :
  (forall this r this' tr,
     m this = (r, this', tr) ->
     Session._snapshot this' = Session._snapshot this) ->
  pinned w s pin -> pinned (Log.on_root w root m) s pin.
Proof.
  intros Hm Hp. unfold Log.on_root.
  destruct (Log.objects w !! root) as [this|] eqn:Hr; [|done].
  destruct (m this) as [[r this'] tr] eqn:E.
  apply pinned_said. eapply pinned_set_object; [done| |done].
  by eapply Hm.
Qed.

Lemma keeps_passCapabilities src :
  keeps_snapshot (fun this => Hypercore._passCapabilities this src).
Proof. done. Qed.

Lemma keeps_resolve_signer key opts :
  keeps_snapshot (fun this => Hypercore.resolve_signer key this opts).
Proof.
  intros this. by destruct (resolve_signer_cases key this opts) as [-> | [sg ->]].
Qed.

Lemma keeps_settle c opts :
  keeps_snapshot (fun this =>
    match Hypercore.settle_writable this c opts with
    | Normal this' => this'
    | Throw _ => this
    end).
Proof.
  intros this.
  destruct (Hypercore.settle_writable this c opts) as [this'|] eqn:E; [|done].
  by apply settle_writable_fields in E as (_ & _ & _ & _ & ->).
Qed.

Lemma keeps_close_fields : keeps_snapshot Hypercore.close_fields.
Proof. done. Qed.

Lemma keeps_mark_opened : keeps_snapshot Hypercore.mark_opened.
Proof. done. Qed.

Lemma keeps_set_closing b : keeps_snapshot (Session.set_closing b).
Proof. done. Qed.

Lemma keeps_set_cache m : keeps_snapshot (Session.set_cache m).
Proof. done. Qed.

Lemma for_each_tell {S A} (f : A -> call) (xs : list A) (st : S) :
  for_each xs (fun x => tell (f x)) st = (Normal tt, st, map f xs).
Proof.
  induction xs as [|x xs IH]; [done|].
  cbn [for_each map]. unfold bind at 1. cbn. by rewrite IH.
Qed.

(** The Replicator's callbacks leave the session they run on as it is. *)
Lemma onupload_state sessions index value from this r this' tr :
  Hypercore._onupload sessions index value from this = (r, this', tr) ->
  this' = this
  /\ tr = map (fun s => emit s (ev_upload index
                                  (Z.of_nat (length value)
                                   - Z.of_nat (Hypercore.padding this)) from))
            sessions.
Proof.
  unfold Hypercore._onupload, bind at 1, read. rewrite for_each_tell.
  by intros [= <- <- <-].
Qed.

Lemma onpeerupdate_state sessions added peer updated this r this' tr :
  Hypercore._onpeerupdate sessions added peer updated this = (r, this', tr) ->
  this' = this
  /\ exists head,
       (head = [] \/ head = [extensions_update peer])
       /\ tr `prefix_of`
            head ++ map (fun s => emit s (if added then ev_peer_add peer
                                          else ev_peer_remove peer)) sessions.
Proof.
  unfold Hypercore._onpeerupdate, when, bind, lift. destruct added; cbn.
  - destruct updated as [[]|e].
    + rewrite for_each_tell. intros [= <- <- <-]. split; [done|].
      exists [extensions_update peer]. split; [by right | done].
    + intros [= <- <- <-]. split; [done|].
      exists [extensions_update peer]. split; [by right|].
      by apply prefix_app_r.
  - rewrite for_each_tell. intros [= <- <- <-]. split; [done|].
    exists []. split; [by left | done].
Qed.

Lemma pinned_close w s pin x : pinned w s pin -> pinned (Log.close w x) s pin.
Proof.
  intros Hp. unfold Log.close.
  destruct (Log.objects w !! x) as [this|] eqn:Hx; [|done].
  destruct (Session.closing this); [done|].
  by eapply pinned_set_object.
Qed.

Lemma pinned_close_resumed w s pin x :
  pinned w s pin -> pinned (Log.close_resumed w x) s pin.
Proof.
  intros Hp. unfold Log.close_resumed.
  destruct (Log.objects w !! x) as [this|] eqn:Hx; [|done].
  destruct (Log.closes w !! x); [done|].
  destruct (andb _ _); [|done].
  destruct (bool_decide _); [|done].
  assert (Hp1 : pinned
            (Log.set_sessions (Log.splice_out x (Log.sessions w))
               (Log.set_object x (Hypercore.close_fields this) w)) s pin).
  { apply pinned_set_sessions. by eapply pinned_set_object. }
  destruct (Log.splice_out x (Log.sessions w)) as [|other [|]].
  - by destruct (Session.core this).
  - destruct (Session.autoClose this); [|done].
    apply pinned_set_stage. by apply pinned_close.
  - done.
Qed.

Lemma pinned_close_settled w s pin x k :
  pinned w s pin -> pinned (Log.close_settled w x k) s pin.
Proof.
  intros Hp. unfold Log.close_settled.
  destruct (Log.closes w !! x) as [[other| | |]|]; try done.
  - by destruct (Log.closes w !! other) as [[]|].
  - by destruct k.
Qed.

Lemma pinned_close_failed w s pin x :
  pinned w s pin -> pinned (Log.close_failed w x) s pin.
Proof.
  intros Hp. unfold Log.close_failed.
  destruct (Log.objects w !! x); [|done].
  destruct (Log.closes w !! x); [done|]. by destruct (andb _ _).
Qed.

Lemma pinned_opened w s pin x :
  pinned w s pin -> pinned (Log.opened w x) s pin.
Proof.
  intros Hp. unfold Log.opened.
  destruct (Log.objects w !! x) as [this|] eqn:Hx; [|done].
  destruct (orb _ _); [done|].
  apply pinned_said. by eapply pinned_set_object.
Qed.

Lemma pinned_join w s pin from key opts :
  pinned w s pin -> pinned (Log.join w from key opts) s pin.
Proof.
  intros Hp. unfold Log.join.
  destruct (Log.objects w !! from); [|done].
  destruct (orb _ _); [|done].
  destruct (Hypercore.constructor key opts); [|done].
  by apply pinned_pushed.
Qed.

Lemma pinned_get w s pin x index opts :
  pinned w s pin -> pinned (snd (Log.get w x index opts)) s pin.
Proof.
  intros Hp. unfold Log.get.
  destruct (Log.objects w !! x) as [this|] eqn:Hx; [|done].
  destruct (Hypercore.get _ _ _ _ _ _ _ _) as [res cache].
  by eapply pinned_set_object.
Qed.

Lemma pinned_get_resumed w s pin x index fork b :
  pinned w s pin -> pinned (Log.get_resumed w x index fork b) s pin.
Proof.
  intros Hp. unfold Log.get_resumed.
  destruct (Log.objects w !! x) as [this|] eqn:Hx; [|done].
  destruct (Session.cache this); [|done].
  destruct (Session.core this); [|done].
  destruct (andb _ _); [|done].
  by eapply pinned_set_object.
Qed.

(** No step of the log unpins a session. *)
Lemma pinned_step junk engine_truncate engine_append w o s pin :
  pinned w s pin ->
  pinned (Log.step junk engine_truncate engine_append w o) s pin.
Proof.
  intros Hp.
  destruct o as [x blocks | x n f | root status bitfield value from
                | root index value from | root added peer updated
                | parent opts | parent | from key opts | x src | x key opts
                | x opts | x | x | x | x k | x | x index opts
                | x index fork b]; cbn [Log.step].
  - unfold Log.append. destruct (Log.objects w !! x); [|done].
    by apply pinned_on_core.
  - unfold Log.truncate. destruct (Log.objects w !! x); [|done].
    by apply pinned_on_core.
  - apply pinned_on_root; [|done]. intros this r this' tr E.
    apply only_cache_snapshot. by eapply oncoreupdate_only_cache.
  - apply pinned_on_root; [|done]. intros this r this' tr E.
    by apply onupload_state in E as [-> _].
  - apply pinned_on_root; [|done]. intros this r this' tr E.
    by apply onpeerupdate_state in E as [-> _].
  - unfold Log.session. destruct (Log.objects w !! parent); [|done].
    destruct (Hypercore.session _ _); [|done]. by apply pinned_pushed.
  - unfold Log.snapshot. destruct (Log.objects w !! parent); [|done].
    destruct (Hypercore.snapshot _ _); [|done]. by apply pinned_pushed.
  - by apply pinned_join.
  - destruct (Log.objects w !! src); [|done].
    apply pinned_change; [|done]. apply keeps_passCapabilities.
  - apply pinned_change; [|done]. apply keeps_resolve_signer.
  - apply pinned_change; [|done]. apply keeps_settle.
  - by apply pinned_opened.
  - by apply pinned_close.
  - by apply pinned_close_resumed.
  - by apply pinned_close_settled.
  - by apply pinned_close_failed.
  - by apply pinned_get.
  - by apply pinned_get_resumed.
Qed.

Lemma pinned_run junk engine_truncate engine_append ops :
  forall w s pin,
  pinned w s pin ->
  pinned (Log.run junk engine_truncate engine_append w ops) s pin.
Proof.
  induction ops as [|o ops IH]; intros w s pin Hp; [done|].
  cbn. apply IH. by apply pinned_step.
Qed.

(** C6. A session created with a snapshot shows the pinned length,
    byteLength and fork after any number of appends, truncations, Core
    updates, new sessions, openings and closings on the log it shares. *)
Theorem snapshot_constant junk engine_truncate engine_append w s this pin ops :
  Log.objects w !! s = Some this ->
  Session._snapshot this = Some pin ->
  Log.observed (Log.run junk engine_truncate engine_append w ops) s
  = Some (Snapshot.length pin, Snapshot.byteLength pin, Snapshot.fork pin).
Proof.
  intros Hs Hpin. apply pinned_observed, pinned_run. by exists this.
Qed.

(** [snapshot()] pins what the parent shows when it is called. *)
Lemma snapshot_pins_parent junk engine_truncate engine_append w parent this ops :
  Log.objects w !! parent = Some this ->
  Session.closing this = false ->
  (forall k, Session.key this = Some k -> length k = 32%nat) ->
  Log.observed
    (Log.run junk engine_truncate engine_append (Log.snapshot w parent) ops)
    (length (Log.objects w))
  = Log.observed w parent.
Proof.
  intros Hp Hcl Hkey.
  assert (Hsnap : exists s,
            Hypercore.snapshot this (Log.core w) = Normal s
            /\ Session._snapshot s
               = Some (Snapshot.mk (Hypercore.length this (Log.core w))
                         (Hypercore.byteLength this (Log.core w))
                         (Hypercore.fork this (Log.core w)))).
  { unfold Hypercore.snapshot, Hypercore.session, Hypercore.constructor.
    rewrite Hcl. cbn [Options.crypto Options.with_snapshot Options.empty negb andb].
    destruct (Session.key this) as [k|] eqn:Hk.
    - rewrite (Hkey k eq_refl). cbn. eexists. split; [reflexivity|done].
    - cbn. eexists. split; [reflexivity|done]. }
  destruct Hsnap as (s & Hs & Hpin).
  assert (Hnew : Log.objects (Log.snapshot w parent) !! length (Log.objects w)
                 = Some s).
  { unfold Log.snapshot. rewrite Hp, Hs. cbn.
    rewrite lookup_app_r by done. by rewrite Nat.sub_diag. }
  rewrite (pinned_observed _ _ _
             (pinned_run junk engine_truncate engine_append ops _ _ _
                (ex_intro _ s (conj Hnew Hpin)))).
  unfold Log.observed. by rewrite Hp.
Qed.


Lemma snapshot_constant_witness :
  Log.observed
    (Log.run Sample.zeros Sample.engine_truncate Sample.engine_append
       (Log.snapshot Sample.log3 0%nat) Sample.grow_then_cut) 1%nat
  = Some (3, 12, 0).
Proof.
  refine (snapshot_constant Sample.zeros Sample.engine_truncate
            Sample.engine_append (Log.snapshot Sample.log3 0%nat) 1%nat
            _ (Snapshot.mk 3 12 0) Sample.grow_then_cut _ _).
  - vm_compute. reflexivity.
  - reflexivity.
Defined.

(** The parent, which is not pinned, follows the Core meanwhile. *)
Example parent_follows_the_core :
  Log.observed
    (Log.run Sample.zeros Sample.engine_truncate Sample.engine_append
       (Log.snapshot Sample.log3 0%nat) Sample.grow_then_cut) 0%nat
  = Some (2, 0, 1).
Proof. vm_compute. reflexivity. Qed.


(** ** The sessions array *)

Lemma splice_out_subset s l x : x ∈ Log.splice_out s l -> x ∈ l.
Proof.
  induction l as [|y l IH]; [done|]. cbn.
  destruct (y =? s)%nat.
  - by right.
  - intros [->|?]%elem_of_cons; [left | right; by apply IH].
Qed.

Lemma splice_out_NoDup s l : NoDup l -> NoDup (Log.splice_out s l).
Proof.
  induction l as [|y l IH]; [done|]. intros [Hy Hl]%NoDup_cons. cbn.
  destruct (y =? s)%nat; [done|].
  apply NoDup_cons. split; [|by apply IH].
  intros ?%splice_out_subset. done.
Qed.

Lemma registered_set_object w x o :
  registered_once w -> registered_once (Log.set_object x o w).
Proof. intros [Hnd Hlt]. split; cbn; [done|]. by rewrite length_insert. Qed.

Lemma registered_set_sessions w l :
  NoDup l -> (forall x, x ∈ l -> x ∈ Log.sessions w) ->
  registered_once w -> registered_once (Log.set_sessions l w).
Proof. intros Hl Hsub [Hnd Hlt]. split; cbn; [done|]. intros x Hx. by apply Hlt, Hsub. Qed.

Lemma registered_pushed w new :
  registered_once w -> registered_once (Log.push new w).
Proof.
  intros [Hnd Hlt]. split; cbn.
  - apply NoDup_app. split; [done|]. split; [|apply NoDup_singleton].
    intros x Hx ->%list_elem_of_singleton. apply Hlt in Hx. lia.
  - intros x [Hx|Hx]%elem_of_app; rewrite length_app; cbn.
    + apply Hlt in Hx. lia.
    + apply list_elem_of_singleton in Hx as ->. lia.
Qed.

Lemma registered_change w x f :
  registered_once w -> registered_once (Log.change w x f).
Proof.
  intros Hw. unfold Log.change. destruct (Log.objects w !! x); [|done].
  by apply registered_set_object.
Qed.

Lemma registered_on_core {A} w (m : M Core.t A) :
  registered_once w -> registered_once (Log.on_core w m).
Proof. unfold Log.on_core. by destruct (m (Log.core w)) as [[r c] tr]. Qed.

Lemma registered_on_root {A} w root (m : M Session.t A) :
  registered_once w -> registered_once (Log.on_root w root m).
Proof.
  intros Hw. unfold Log.on_root. destruct (Log.objects w !! root); [|done].
  destruct (m _) as [[r this'] tr].
  by apply (registered_set_object w root this') in Hw.
Qed.

Lemma registered_close w x :
  registered_once w -> registered_once (Log.close w x).
Proof.
  intros Hw. unfold Log.close. destruct (Log.objects w !! x); [|done].
  destruct (Session.closing _); [done|]. by apply registered_set_object.
Qed.

Lemma registered_close_resumed w x :
  registered_once w -> registered_once (Log.close_resumed w x).
Proof.
  intros Hw. unfold Log.close_resumed.
  destruct (Log.objects w !! x) as [this|]; [|done].
  destruct (Log.closes w !! x); [done|].
  destruct (andb _ _); [|done].
  destruct (bool_decide _); [|done].
  assert (H1 : registered_once
            (Log.set_sessions (Log.splice_out x (Log.sessions w))
               (Log.set_object x (Hypercore.close_fields this) w))).
  { apply registered_set_sessions.
    - apply splice_out_NoDup, Hw.
    - intros y. apply splice_out_subset.
    - by apply registered_set_object. }
  destruct (Log.splice_out x (Log.sessions w)) as [|other [|]].
  - by destruct (Session.core this).
  - destruct (Session.autoClose this); [|done].
    by apply (registered_close _ other) in H1.
  - done.
Qed.

Lemma registered_once_step junk engine_truncate engine_append w o :
  registered_once w ->
  registered_once (Log.step junk engine_truncate engine_append w o).
Proof.
  intros Hw.
  destruct o as [x blocks | x n f | root status bitfield value from
                | root index value from | root added peer updated
                | parent opts | parent | from key opts | x src | x key opts
                | x opts | x | x | x | x k | x | x index opts
                | x index fork b]; cbn [Log.step].
  - unfold Log.append. destruct (Log.objects w !! x); [|done].
    by apply registered_on_core.
  - unfold Log.truncate. destruct (Log.objects w !! x); [|done].
    by apply registered_on_core.
  - by apply registered_on_root.
  - by apply registered_on_root.
  - by apply registered_on_root.
  - unfold Log.session. destruct (Log.objects w !! parent); [|done].
    destruct (Hypercore.session _ _); [by apply registered_pushed | done].
  - unfold Log.snapshot. destruct (Log.objects w !! parent); [|done].
    destruct (Hypercore.snapshot _ _); [by apply registered_pushed | done].
  - unfold Log.join. destruct (Log.objects w !! from); [|done].
    destruct (orb _ _); [|done].
    destruct (Hypercore.constructor _ _); [by apply registered_pushed | done].
  - destruct (Log.objects w !! src); [by apply registered_change | done].
  - by apply registered_change.
  - by apply registered_change.
  - unfold Log.opened. destruct (Log.objects w !! x); [|done].
    destruct (orb _ _); [done|].
    by apply (registered_set_object w x (Hypercore.mark_opened t)) in Hw.
  - by apply registered_close.
  - by apply registered_close_resumed.
  - unfold Log.close_settled.
    destruct (Log.closes w !! x) as [[other| | |]|]; try done.
    + by destruct (Log.closes w !! other) as [[]|].
    + by destruct k.
  - unfold Log.close_failed. destruct (Log.objects w !! x); [|done].
    destruct (Log.closes w !! x); [done|]. by destruct (andb _ _).
  - unfold Log.get. destruct (Log.objects w !! x); [|done].
    destruct (Hypercore.get _ _ _ _ _ _ _ _). cbn.
    by apply registered_set_object.
  - unfold Log.get_resumed. destruct (Log.objects w !! x); [|done].
    destruct (Session.cache _); [|done]. destruct (Session.core _); [|done].
    destruct (andb _ _); [|done]. by apply registered_set_object.
Qed.

(** Whatever happens to a log, the callback finds every session once in
    the array. *)
Lemma registered_once_run junk engine_truncate engine_append ops :
  forall w,
  registered_once w ->
  registered_once (Log.run junk engine_truncate engine_append w ops).
Proof.
  induction ops as [|o ops IH]; intros w Hw; [done|].
  cbn. apply IH. by apply registered_once_step.
Qed.


(** * Further properties of the facade *)

(** ** Capabilities, sessions and snapshots *)

(** X1. Passing capabilities never replaces a signer the session has, makes
    the session writable exactly when it or the source has a signer, and
    passing the same capabilities again changes nothing. *)
Theorem passCapabilities_settles this o :
  Hypercore._passCapabilities (Hypercore._passCapabilities this o) o
    = Hypercore._passCapabilities this o
  /\ (forall sg, Session.sign this = Some sg ->
        Session.sign (Hypercore._passCapabilities this o) = Some sg)
  /\ (Session.writable (Hypercore._passCapabilities this o) = true
      <-> is_Some (Session.sign this) \/ is_Some (Session.sign o)).
Proof.
  split; [|split].
  - unfold Hypercore._passCapabilities. cbn.
    by destruct (Session.sign this), (Session.sign o).
  - intros sg Hsg. cbn. by rewrite Hsg.
  - cbn. rewrite present_is_Some.
    destruct (Session.sign this) as [sg|]; split.
    + intros _. left. by exists sg.
    + intros _. by exists sg.
    + intros H. by right.
    + intros [[x Hx]|H]; [done | exact H].
Qed.


Lemma snapshot_hands_on this c s pin :
  Session._snapshot this = Some pin ->
  Hypercore.snapshot this c = Normal s ->
  Session._snapshot s = Some pin.
Proof.
  intros Hpin. unfold Hypercore.snapshot, Hypercore.session.
  destruct (Session.closing this); [done|].
  destruct (Hypercore.constructor _ _) as [s0|] eqn:E; [|done].
  apply constructor_fields in E as ->. cbn [bindc]. intros [= <-]. cbn.
  unfold Hypercore.length, Hypercore.byteLength, Hypercore.fork.
  rewrite Hpin. by destruct pin.
Qed.

(** X3. A snapshot taken from a pinned session is pinned to the same
    length, byteLength and fork, whatever the Core holds by then. *)
Theorem snapshot_of_snapshot this c s pin :
  Session._snapshot this = Some pin ->
  Hypercore.snapshot this c = Normal s ->
  Session._snapshot s = Some pin
  /\ forall c', Hypercore.length s c' = Snapshot.length pin
               /\ Hypercore.byteLength s c' = Snapshot.byteLength pin
               /\ Hypercore.fork s c' = Snapshot.fork pin.
Proof.
  intros Hpin Hs.
  assert (H := snapshot_hands_on this c s pin Hpin Hs).
  split; [exact H|]. intros c'.
  unfold Hypercore.length, Hypercore.byteLength, Hypercore.fork. by rewrite H.
Qed.

Lemma snapshot_of_snapshot_witness :
  Session._snapshot
    (Hypercore._passCapabilities
       (Hypercore.fields (Some Sample.public_key)
          (Options.with_snapshot (Snapshot.mk 3 12 0) Options.empty))
       (Hypercore._passCapabilities
          (Hypercore.fields (Some Sample.public_key)
             (Options.with_snapshot (Snapshot.mk 3 12 0) Options.empty))
          (Sample.writer Options.empty)))
  = Some (Snapshot.mk 3 12 0).
Proof.
  refine (proj1 (snapshot_of_snapshot
            (Hypercore._passCapabilities
               (Hypercore.fields (Some Sample.public_key)
                  (Options.with_snapshot (Snapshot.mk 3 12 0) Options.empty))
               (Sample.writer Options.empty))
            Sample.core0 _ (Snapshot.mk 3 12 0) _ _)).
  - vm_compute. reflexivity.
  - vm_compute. reflexivity.
Defined.

Lemma lifecycle_flags ph s : lifecycle ph s -> flags ph s.
Proof.
  induction 1 as [key opts s Hnew
                 | ph pho s o Hs IHs Ho IHo Hph
                 | key opts s Hs IH
                 | s Hs IH
                 | s pk dk opts built Hs IH
                 | ph s c opts s' Hs IH Hph Hset
                 | s Hs IH
                 | s Hs IH
                 | ph s Hs IH]; unfold flags in *.
  - apply constructor_fields in Hnew as ->. cbn. by_phase.
  - destruct IHs as (Hr & Hc & Hw). cbn.
    split; [exact Hr|]. split.
    + split; [intros H; apply Hc in H; subst ph; discriminate Hph
             | intros ->; discriminate Hph].
    + intros H. apply Hc in H. subst ph. discriminate Hph.
  - destruct IH as (Hr & Hc & Hw).
    destruct (resolve_signer_cases key s opts) as [-> | [sg ->]]; cbn;
      (split; [exact Hr|]; split;
       [split; [intros H; apply Hc in H; discriminate H | discriminate]
       | intros H; apply Hc in H; discriminate H]).
  - destruct IH as (Hr & Hc & Hw). cbn.
    split; [exact Hr|]. split;
      [split; [intros H; apply Hc in H; discriminate H | discriminate]
      | intros H; apply Hc in H; discriminate H].
  - destruct IH as (Hr & Hc & Hw). cbn.
    split; [exact Hr|]. split;
      [split; [intros H; apply Hc in H; discriminate H | discriminate]
      | intros H; apply Hc in H; discriminate H].
  - destruct IH as (Hr & Hc & Hw).
    assert (Hsame : Session.readable s' = Session.readable s
                    /\ Session.closed s' = Session.closed s).
    { unfold Hypercore.settle_writable in Hset.
      destruct (Session.sign s); cbn [bindc] in Hset.
      - by injection Hset as <-.
      - destruct (Session.core s); [|done]. by injection Hset as <-. }
    destruct Hsame as [-> ->].
    split; [exact Hr|]. split.
    + split; [|discriminate].
      intros H. apply Hc in H. subst ph. discriminate Hph.
    + intros H. apply Hc in H. subst ph. discriminate Hph.
  - destruct IH as (Hr & Hc & Hw). cbn.
    split; [exact Hr|]. split;
      [split; [intros H; apply Hc in H; discriminate H | discriminate]
      | intros H; apply Hc in H; discriminate H].
  - cbn. done.
  - exact IH.
Qed.

(** X4. Along a session's life it is readable exactly while it is not
    closed, it is closed exactly from the step of [_close] on, and a closed
    session is neither writable nor opened. *)
Theorem closed_session_flags ph s :
  lifecycle ph s ->
  Session.readable s = negb (Session.closed s)
  /\ (Session.closed s = true <-> ph = Closed)
  /\ (Session.closed s = true ->
      Session.writable s = false /\ Session.opened s = false).
Proof. apply lifecycle_flags. Qed.

Lemma closed_session_flags_witness :
  Session.readable
    (Hypercore.close_fields
       (Hypercore.mark_opened
          (Session.set_writable true
             (Hypercore.fields None (Sample.with_sign (UserSigner 1))))))
  = negb (Session.closed
            (Hypercore.close_fields
               (Hypercore.mark_opened
                  (Session.set_writable true
                     (Hypercore.fields None (Sample.with_sign (UserSigner 1))))))).
Proof.
  exact (proj1 (closed_session_flags Closed _
                  (lc_close _ signed_session_opens))).
Defined.

(** ** Reading, again *)

Lemma _get_no_fetch this c r r' index opts :
  Core.bitfield c index = true \/ Hypercore.wait_is_false opts = true ->
  Hypercore._get this c r index opts = Hypercore._get this c r' index opts.
Proof.
  intros H. unfold Hypercore._get.
  destruct (Hypercore.the_Core this c) as [core|e] eqn:Hc; [|done].
  assert (core = c) as ->.
  { unfold Hypercore.the_Core in Hc. destruct (Session.core this); congruence. }
  cbn [bindc]. destruct (Core.bitfield c index); [done|].
  destruct H as [H|H]; [done|]. by rewrite H.
Qed.

Lemma has_true this opening c index :
  Hypercore.has this opening c index = Normal true ->
  Core.bitfield c index = true.
Proof.
  unfold Hypercore.has.
  destruct (Hypercore.after_opening this opening) as [this0|]; [|done].
  cbn [bindc]. unfold Hypercore.the_Core.
  destruct (Session.core this0); [|done]. cbn. congruence.
Qed.

(** X5. When [has(index)] resolves to true, or when [opts.wait === false],
    [get(index, opts)] settles the same way and leaves the same cache
    whatever the Replicator would deliver: the network is not asked. *)
Theorem get_without_replicator this opening c r r' later c' index opts :
  Hypercore.has this opening c index = Normal true
  \/ Hypercore.wait_is_false opts = true ->
  Hypercore.get this opening c r later c' index opts
  = Hypercore.get this opening c r' later c' index opts.
Proof.
  intros H.
  assert (H' : Core.bitfield c index = true
               \/ Hypercore.wait_is_false opts = true).
  { destruct H as [H|H]; [left; by eapply has_true | by right]. }
  unfold Hypercore.get.
  destruct (Hypercore.after_opening this opening) as [this0|]; [|done].
  destruct (Hypercore.cached this0 index); [done|].
  by rewrite (_get_no_fetch this0 c r r' index opts H').
Qed.

Lemma get_without_replicator_witness :
  Hypercore.get (Sample.reader Options.empty)
    (Normal (Sample.reader Options.empty))
    Sample.core3 Sample.no_peers (Sample.reader Options.empty)
    Sample.core3 1 None
  = Hypercore.get (Sample.reader Options.empty)
      (Normal (Sample.reader Options.empty))
      Sample.core3 Sample.one_peer (Sample.reader Options.empty)
      Sample.core3 1 None.
Proof.
  apply (get_without_replicator (Sample.reader Options.empty)
           (Normal (Sample.reader Options.empty))
           Sample.core3 Sample.no_peers Sample.one_peer).
  left. reflexivity.
Defined.

Lemma cached_after_insert this m index b :
  truthy b = true ->
  Hypercore.cached (Session.set_cache (Some (<[index := b]> m)) this) index
  = Some b.
Proof.
  intros Hb. unfold Hypercore.cached. cbn.
  by rewrite lookup_insert_eq, Hb.
Qed.

(** X6. On an opened session, when [get(index)] has resolved to a truthy
    value with a cache configured at resolution, and either the value came
    from the cache or the fork did not move while the block was fetched,
    the value is in the cache the call leaves; every later [get(index)] on
    the session, as long as its cache holds what that call left, resolves
    to the same value from the cache, whatever the options, the Core and
    the Replicator are by then. When the fork moves during the fetch the
    value is returned and not cached, and this does not hold. *)
Theorem get_again_from_cache this opening c r later c' index opts b cache' :
  Session.opened this = true ->
  is_Some (Session.cache later) ->
  is_Some (Hypercore.cached this index)
  \/ Tree.fork (Core.tree c) = Tree.fork (Core.tree c') ->
  Hypercore.get this opening c r later c' index opts = (Normal b, cache') ->
  truthy b = true ->
  forall next opening2 c2 r2 later2 c2' opts2,
    Session.opened next = true ->
    Session.cache next = cache' ->
    Hypercore.get next opening2 c2 r2 later2 c2' index opts2
    = (Normal b, cache').
Proof.
  intros Hop [m Hm] Hfork Hget Hb next opening2 c2 r2 later2 c2' opts2 Hopn Hcn.
  assert (Hhit : Hypercore.cached next index = Some b).
  { destruct (Hypercore.cached this index) as [v|] eqn:Hc.
    - rewrite (get_hit _ _ _ _ _ _ _ _ v) in Hget by done.
      injection Hget as -> <-.
      unfold Hypercore.cached in *. by rewrite Hcn.
    - destruct Hfork as [[v Hv]|Hfork]; [done|].
      unfold Hypercore.get in Hget.
      rewrite after_opening_opened, Hc in Hget by done.
      unfold Hypercore.the_Core in Hget.
      destruct (Session.core this); cbn [bindc] in Hget; [|done].
      destruct (Hypercore._get this c r index opts) as [b0|e];
        cbn [bindc] in Hget; [|done].
      rewrite Hm in Hget.
      destruct (Session.core later); [|done].
      rewrite Hfork, Z.eqb_refl in Hget. cbn [andb] in Hget.
      destruct (truthy b0) eqn:Hb0.
      + injection Hget as -> <-.
        unfold Hypercore.cached. rewrite Hcn, lookup_insert_eq. by rewrite Hb.
      + injection Hget as -> _. congruence. }
  rewrite (get_hit _ _ _ _ _ _ _ _ b) by done. by rewrite Hcn.
Qed.

Lemma get_again_from_cache_witness :
  Hypercore.get
    (Session.set_cache (Some (<[1 := VBuf [x68; x69]]> ∅))
       (Sample.reader Options.empty))
    (Throw TypeError) Sample.core0 Sample.no_peers
    (Sample.reader Options.empty) Sample.core0 1 Sample.no_wait
  = (Normal (VBuf [x68; x69]), Some (<[1 := VBuf [x68; x69]]> ∅)).
Proof.
  refine (get_again_from_cache
            (Sample.reader (Sample.with_cache ∅))
            (Normal (Sample.reader (Sample.with_cache ∅)))
            Sample.core3 Sample.no_peers
            (Sample.reader (Sample.with_cache ∅)) Sample.core3 1 None
            (VBuf [x68; x69]) (Some (<[1 := VBuf [x68; x69]]> ∅))
            _ _ _ _ _
            (Session.set_cache (Some (<[1 := VBuf [x68; x69]]> ∅))
               (Sample.reader Options.empty))
            (Throw TypeError) Sample.core0 Sample.no_peers
            (Sample.reader Options.empty) Sample.core0 Sample.no_wait _ _).
  - reflexivity.
  - by eexists.
  - by right.
  - vm_compute. reflexivity.
  - reflexivity.
  - reflexivity.
  - reflexivity.
Defined.

(** When the fork moves while the block is fetched, the value is returned
    and the cache is left as it was: a later [get] that may not wait finds
    nothing. *)
Example get_uncached_when_fork_moves :
  Hypercore.get (Sample.reader (Sample.with_cache ∅))
    (Normal (Sample.reader (Sample.with_cache ∅)))
    Sample.core3 Sample.no_peers
    (Sample.reader (Sample.with_cache ∅)) Sample.core0 1 None
  = (Normal (VBuf [x68; x69]), Some ∅)
  /\ fst (Hypercore.get (Sample.reader (Sample.with_cache ∅))
            (Normal (Sample.reader (Sample.with_cache ∅)))
            Sample.core0 Sample.no_peers
            (Sample.reader (Sample.with_cache ∅)) Sample.core0 1 Sample.no_wait)
     = Normal VNull.
Proof. split; vm_compute; reflexivity. Qed.

(** ** Download ranges, again *)

Lemma same_members_nil (bs : list Z) :
  (forall x, x ∈ bs <-> x ∈ ([] : list Z)) -> bs = [].
Proof.
  destruct bs as [|b l]; [done|]. intros H.
  exfalso. eapply elem_of_nil. apply H. by left.
Qed.

Lemma min_of_members (bs bs' : list Z) :
  (forall x, x ∈ bs <-> x ∈ bs') -> Hypercore.min bs = Hypercore.min bs'.
Proof.
  intros H. destruct bs as [|b l].
  { symmetry in H. assert (bs' = []) as -> by (apply same_members_nil; intros x; by rewrite H).
    done. }
  destruct bs' as [|b' l'].
  { by rewrite (same_members_nil _ H). }
  destruct (min_is_least b l) as (m & -> & Hin & Hall).
  destruct (min_is_least b' l') as (m' & -> & Hin' & Hall').
  f_equal. apply Z.le_antisymm.
  - apply Hall, H, Hin'.
  - apply Hall', H, Hin.
Qed.

Lemma max_of_members (bs bs' : list Z) :
  (forall x, x ∈ bs <-> x ∈ bs') -> Hypercore.max bs = Hypercore.max bs'.
Proof.
  intros H. destruct bs as [|b l].
  { symmetry in H. assert (bs' = []) as -> by (apply same_members_nil; intros x; by rewrite H).
    done. }
  destruct bs' as [|b' l'].
  { by rewrite (same_members_nil _ H). }
  destruct (max_is_greatest b l) as (m & -> & Hin & Hall).
  destruct (max_is_greatest b' l') as (m' & -> & Hin' & Hall').
  f_equal. apply Z.le_antisymm.
  - apply Hall', H, Hin.
  - apply Hall, H, Hin'.
Qed.

(** X8. The range [download] creates from [range.blocks] depends on the
    members of [blocks] only: two collections with the same members, in any
    order and with any repetitions, give the same start, the same end, the
    same linear flag and filters that accept the same indices. *)
Theorem download_blocks_as_a_set lin st en bs bs' :
  (forall x, x ∈ bs <-> x ∈ bs') ->
  let r := Hypercore.requested (Some (RangeOpts.mk lin st en (Some bs))) in
  let r' := Hypercore.requested (Some (RangeOpts.mk lin st en (Some bs'))) in
  Range.start r = Range.start r'
  /\ Range.end_ r = Range.end_ r'
  /\ Range.linear r = Range.linear r'
  /\ exists f f', Range.filter r = Some f /\ Range.filter r' = Some f'
                  /\ forall i, f i = f' i.
Proof.
  intros H.
  assert (Hset : (list_to_set bs : gset Z) = list_to_set bs').
  { apply set_eq. intros x. rewrite !elem_of_list_to_set. apply H. }
  cbn. rewrite Hset, (min_of_members _ _ H), (max_of_members _ _ H).
  repeat split. by eexists _, _.
Qed.

Lemma download_blocks_as_a_set_witness :
  Range.start (Hypercore.requested
                 (Some (RangeOpts.mk false None None (Some [5; 3; 9]))))
  = Range.start (Hypercore.requested
                   (Some (RangeOpts.mk false None None (Some [9; 3; 5; 3])))).
Proof.
  refine (proj1 (download_blocks_as_a_set false None None
                   [5; 3; 9] [9; 3; 5; 3] _)).
  intros x. rewrite !elem_of_cons, !elem_of_nil. lia.
Defined.

(** X9. With an empty [range.blocks] and no [start] and [end] of its own,
    [download] creates the empty range from 0 to 0 with a filter that
    accepts no index; it does not fall back to downloading everything. *)
Theorem download_no_blocks lin st en :
  unset st -> unset en ->
  let r := Hypercore.requested (Some (RangeOpts.mk lin st en (Some []))) in
  Range.start r = Num 0
  /\ Range.end_ r = Num 0
  /\ exists f, Range.filter r = Some f /\ forall i, f i = false.
Proof.
  intros Hs He. cbn.
  rewrite !or_else_unset by done.
  assert (Hsz : (size (list_to_set [] : gset Z) =? 0)%nat = true).
  { apply Nat.eqb_eq. cbn. apply size_empty. }
  cbn in Hsz. rewrite Hsz. cbn.
  repeat split. eexists. split; [done|].
  intros i. apply bool_decide_eq_false. apply not_elem_of_empty.
Qed.

Lemma download_no_blocks_witness :
  Range.end_ (Hypercore.requested
                (Some (RangeOpts.mk true None (Some 0) (Some []))))
  = Num 0.
Proof.
  refine (proj1 (proj2 (download_no_blocks true None (Some 0) _ _))).
  - by left.
  - by right.
Defined.

(** ** Writing, again *)

(** X10. When encoding the blocks throws, by [encodeBatch] or by the
    session's value encoding, [append] on a writable session rejects with
    that error before the Core is reached: nothing is called and the Core
    is as it was. *)
Theorem append_encode_failure junk engine_append this opening this' blocks e c :
  Hypercore.after_opening this opening = Normal this' ->
  Session.writable this' = true ->
  buffers_of junk this' (as_array blocks) = Throw e ->
  Hypercore.append junk engine_append this opening blocks c = (Throw e, c, []).
Proof.
  intros Hopen Hw Hb. unfold Hypercore.append, bind, lift.
  rewrite Hopen, Hw. cbn [negb].
  unfold buffers_of, as_array in Hb. by rewrite Hb.
Qed.

Lemma append_encode_failure_witness :
  Hypercore.append Sample.zeros Sample.engine_append
    (Session.set_codecs (Some Sample.null_literal) None
       (Sample.writer Options.empty))
    (Normal (Sample.writer Options.empty))
    (Hypercore.BlockArray [VNull; VStr "a"]) Sample.core3
  = (Throw (External 3), Sample.core3, []).
Proof.
  apply (append_encode_failure Sample.zeros Sample.engine_append _ _
           (Session.set_codecs (Some Sample.null_literal) None
              (Sample.writer Options.empty))); reflexivity.
Defined.

Lemma encode_raw junk this enc b :
  enc = None \/ Hypercore.padding this = 0%nat ->
  Hypercore._encode junk this enc (VBuf b) = Normal (padded_block junk this b).
Proof.
  intros [->|H0].
  - apply roundtrip_buffer.
  - unfold Hypercore._encode, padded_block.
    cbn [State.start State.end_ State.grow bindc].
    rewrite H0. by cbn.
Qed.

Lemma encode_all_raw junk this bs :
  Session.valueEncoding this = None \/ Hypercore.padding this = 0%nat ->
  Hypercore.encode_all junk this (map VBuf bs)
  = Normal (map (padded_block junk this) bs).
Proof.
  intros H. induction bs as [|b bs IH]; [done|].
  cbn [map Hypercore.encode_all]. rewrite encode_raw by done.
  cbn [bindc]. rewrite IH. done.
Qed.

(** X11. On a writable session without [encodeBatch], and with no value
    encoding or no padding, [append] of byte buffers makes one call to the
    Core: with each buffer behind exactly the session's padding bytes, in
    the order given, with the session's signer, and with the preappend hook
    if and only if the session has an encryption. It settles as the Core
    does and leaves the Core as the Core's append leaves it. *)
Theorem append_raw_buffers junk engine_append this opening this' bs c :
  Hypercore.after_opening this opening = Normal this' ->
  Session.writable this' = true ->
  Session.core this' = Some the_core ->
  Session.encodeBatch this' = None ->
  Session.valueEncoding this' = None \/ Hypercore.padding this' = 0%nat ->
  let buffers := map (padded_block junk this') bs in
  let done := engine_append c buffers (Session.sign this') (hook_of this') in
  Hypercore.append junk engine_append this opening
    (Hypercore.BlockArray (map VBuf bs)) c
  = (fst done, snd done,
     [core_append buffers (Session.sign this')
        (Hypercore.present (Session.encryption this'))]).
Proof.
  intros Hopen Hw Hcore Hbatch Henc. cbn zeta.
  unfold Hypercore.append, bind, lift, read, tell, Hypercore.the_Core, hook_of.
  rewrite Hopen, Hw, Hbatch, Hcore. cbn [negb].
  rewrite encode_all_raw by done.
  destruct (Session.encryption this'); cbn;
    by destruct (engine_append c _ _ _).
Qed.

Lemma append_raw_buffers_witness :
  snd (Hypercore.append Sample.zeros Sample.engine_append
         Sample.reversing_writer (Normal Sample.reversing_writer)
         (Hypercore.BlockArray (map VBuf [[x68; x69]])) Sample.core3)
  = [core_append
       [VBuf [x00; x00; x00; x00; x00; x00; x00; x00; x68; x69]]
       (Some (UserSigner 1)) true].
Proof.
  rewrite (append_raw_buffers Sample.zeros Sample.engine_append
             Sample.reversing_writer (Normal Sample.reversing_writer)
             Sample.reversing_writer [[x68; x69]] Sample.core3
             eq_refl eq_refl eq_refl eq_refl (or_introl eq_refl)).
  reflexivity.
Defined.

Lemma encrypt_from_imap e index fork bs :
  Hypercore.encrypt_from e index fork (map VBuf bs)
  = Normal (imap (fun i b =>
                    VBuf (BlockEncryption.encrypt e (index + Z.of_nat i) b fork))
              bs).
Proof.
  revert index. induction bs as [|b bs IH]; intros index; [done|].
  cbn [map Hypercore.encrypt_from imap]. rewrite IH. cbn [bindc].
  rewrite Z.add_0_r. do 2 f_equal.
  apply imap_ext. intros i x _. cbn. do 2 f_equal. lia.
Qed.

(** X12. The preappend hook of a session with an encryption encrypts the
    block at position [i] of the batch under the index [tree.length + i]
    and the fork [tree.fork] of the Core as it is when the hook runs, and
    keeps the order of the batch. *)
Theorem preappend_indices this c e bs :
  Session.core this = Some the_core ->
  Session.encryption this = Some e ->
  Hypercore.preappend this c (map VBuf bs)
  = Normal (imap (fun i b =>
                    VBuf (BlockEncryption.encrypt e
                            (Tree.length (Core.tree c) + Z.of_nat i) b
                            (Tree.fork (Core.tree c))))
              bs).
Proof.
  intros Hcore He. unfold Hypercore.preappend, Hypercore.the_Core.
  rewrite Hcore, He. cbn [bindc]. apply encrypt_from_imap.
Qed.

Lemma preappend_indices_witness :
  Hypercore.preappend Sample.reversing_writer Sample.core3
    (map VBuf [[x61]; [x62]])
  = Normal (imap (fun i b =>
                    VBuf (BlockEncryption.encrypt Sample.reversing
                            (3 + Z.of_nat i) b 0))
              [[x61]; [x62]]).
Proof.
  apply (preappend_indices Sample.reversing_writer Sample.core3
           Sample.reversing [[x61]; [x62]]); reflexivity.
Defined.

(** X13. With no value encoding, a byte buffer that [_encode] has put
    behind the padding and the encryption has encrypted under an index
    comes back as the same bytes when [_get] decrypts it under that index
    and decodes it, provided the encryption gives back behind its reserved
    bytes what it was given there. *)
Theorem encrypted_block_comes_back junk this e index fork b :
  Session.encryption this = Some e ->
  Session.valueEncoding this = None ->
  decrypts e index fork (length b) ->
  exists blk,
    Hypercore._encode junk this (Session.valueEncoding this) (VBuf b)
      = Normal (VBuf blk)
    /\ Hypercore.decrypt_decode this None index
         (BlockEncryption.encrypt e index blk fork)
       = Normal (VBuf b).
Proof.
  intros He Hve Hlaw.
  assert (Hpad : Hypercore.padding this = BlockEncryption.padding e).
  { unfold Hypercore.padding. by rewrite He. }
  eexists. split.
  - rewrite Hve. apply encode_raw. by left.
  - unfold Hypercore.decrypt_decode, Hypercore.effective_encoding,
      Hypercore._decode, subarray.
    rewrite He, Hve, Hpad, Hlaw.
    + rewrite drop_prefix; [done|]. rewrite length_allocUnsafe. lia.
    + rewrite length_app, length_take, length_allocUnsafe. lia.
Qed.

Lemma reversing_decrypts index fork n :
  decrypts Sample.reversing index fork n.
Proof.
  intros blk _. cbn. rewrite take_0, !drop_0. cbn. apply rev_involutive.
Qed.

Lemma encrypted_block_comes_back_witness :
  exists blk,
    Hypercore._encode Sample.zeros Sample.reversing_writer
      (Session.valueEncoding Sample.reversing_writer) (VBuf [x68; x69])
      = Normal (VBuf blk)
    /\ Hypercore.decrypt_decode Sample.reversing_writer None 3
         (BlockEncryption.encrypt Sample.reversing 3 blk 0)
       = Normal (VBuf [x68; x69]).
Proof.
  apply (encrypted_block_comes_back Sample.zeros Sample.reversing_writer
           Sample.reversing 3 0 [x68; x69] eq_refl eq_refl).
  apply reversing_decrypts.
Defined.

(** ** Update routing, again *)

Lemma blocks_broadcast_app t1 t2 :
  blocks_broadcast (t1 ++ t2) = blocks_broadcast t1 ++ blocks_broadcast t2.
Proof. unfold blocks_broadcast. apply omap_app. Qed.

Lemma infos_broadcast_app t1 t2 :
  infos_broadcast (t1 ++ t2) = (infos_broadcast t1 + infos_broadcast t2)%nat.
Proof. unfold infos_broadcast. by rewrite omap_app, length_app. Qed.

Lemma broadcasts_of_status cache_on status start fork sessions :
  blocks_broadcast (flat_map (status_calls cache_on status start fork) sessions) = []
  /\ infos_broadcast (flat_map (status_calls cache_on status start fork) sessions)
     = 0%nat.
Proof.
  induction sessions as [|s rest [IH1 IH2]]; [done|].
  cbn [flat_map]. rewrite blocks_broadcast_app, infos_broadcast_app, IH1, IH2.
  unfold status_calls.
  by destruct (Hypercore.truncate_bit status), (Hypercore.append_bit status),
    cache_on.
Qed.

Lemma broadcasts_of_blocks l :
  blocks_broadcast (map replicator_broadcastBlock l) = l
  /\ infos_broadcast (map replicator_broadcastBlock l) = 0%nat.
Proof.
  induction l as [|i l [IH1 IH2]]; [done|]. split.
  - cbn. f_equal. exact IH1.
  - exact IH2.
Qed.

Lemma broadcasts_of_events (f : sid -> event) l :
  blocks_broadcast (map (fun s => emit s (f s)) l) = []
  /\ infos_broadcast (map (fun s => emit s (f s)) l) = 0%nat.
Proof. induction l as [|s l [IH1 IH2]]; [done|]. by split. Qed.

Lemma broadcasts_of_update this sessions c status bitfield value from :
  blocks_broadcast (update_calls this sessions c status bitfield value from)
  = match bitfield with
    | Some d => if Delta.drop d then [] else Hypercore.delta_indices d
    | None => []
    end
  /\ infos_broadcast (update_calls this sessions c status bitfield value from)
     = if status =? 0 then 0%nat else 1%nat.
Proof.
  unfold update_calls.
  rewrite !blocks_broadcast_app, !infos_broadcast_app.
  assert (H3 : forall l : list call,
             l = match value with
                 | Some v =>
                     map (fun s => emit s (ev_download (start_of bitfield)
                                             (Z.of_nat (length v)
                                              - Z.of_nat (Hypercore.padding this))
                                             from)) sessions
                 | None => []
                 end ->
             blocks_broadcast l = [] /\ infos_broadcast l = 0%nat).
  { intros l ->. destruct value; [apply broadcasts_of_events | done]. }
  destruct (H3 _ eq_refl) as [-> ->]. clear H3.
  assert (H2 : forall l : list call,
             l = match bitfield with
                 | Some d => if Delta.drop d then []
                             else map replicator_broadcastBlock
                                    (Hypercore.delta_indices d)
                 | None => []
                 end ->
             blocks_broadcast l
             = match bitfield with
               | Some d => if Delta.drop d then [] else Hypercore.delta_indices d
               | None => []
               end
             /\ infos_broadcast l = 0%nat).
  { intros l ->. destruct bitfield as [d|]; [|done].
    destruct (Delta.drop d); [done | apply broadcasts_of_blocks]. }
  destruct (H2 _ eq_refl) as [-> ->]. clear H2.
  destruct (status =? 0); cbn [negb].
  - rewrite app_nil_r. done.
  - rewrite blocks_broadcast_app, infos_broadcast_app.
    destruct (broadcasts_of_status (Hypercore.present (Session.cache this))
                status (start_of bitfield) (Tree.fork (Core.tree c)) sessions)
      as [-> ->].
    split; [|reflexivity].
    change (blocks_broadcast [replicator_broadcastInfo]) with (@nil Z).
    cbn [app]. apply app_nil_r.
Qed.

Lemma blocks_broadcast_prefix t T :
  t `prefix_of` T -> blocks_broadcast t `prefix_of` blocks_broadcast T.
Proof. intros [k ->]. rewrite blocks_broadcast_app. by eexists. Qed.

Lemma infos_broadcast_prefix t T :
  t `prefix_of` T -> (infos_broadcast t <= infos_broadcast T)%nat.
Proof. intros [k ->]. rewrite infos_broadcast_app. lia. Qed.

Lemma elem_of_delta_indices d i :
  i ∈ Hypercore.delta_indices d
  <-> Delta.start d <= i < Delta.start d + Delta.length d.
Proof.
  unfold Hypercore.delta_indices. rewrite list_elem_of_fmap. split.
  - intros (k & -> & Hk). apply elem_of_seq in Hk. lia.
  - intros Hi. exists (Z.to_nat (i - Delta.start d)). split; [lia|].
    apply elem_of_seq. lia.
Qed.

(** X14. What one run of [_oncoreupdate] tells the Replicator, however it
    ends: the blocks broadcast are the first indices of those of the delta,
    in rising order, every one of them within [bitfield.start] and
    [bitfield.start + bitfield.length] of a delta that is not a drop, and
    the info is broadcast at most once and only for a status that is not
    zero. When the callback returns, exactly the indices of the delta were
    broadcast, and the info exactly once for a status that is not zero. *)
Theorem oncoreupdate_broadcasts sessions c status bitfield value from
    this r this' tr :
  Hypercore._oncoreupdate sessions c status bitfield value from this
    = (r, this', tr) ->
  let due := match bitfield with
             | Some d => if Delta.drop d then [] else Hypercore.delta_indices d
             | None => []
             end in
  let info := if status =? 0 then 0%nat else 1%nat in
  blocks_broadcast tr `prefix_of` due
  /\ (infos_broadcast tr <= info)%nat
  /\ (forall i, i ∈ blocks_broadcast tr ->
        exists d, bitfield = Some d /\ Delta.drop d = false
                  /\ Delta.start d <= i < Delta.start d + Delta.length d)
  /\ (r = Normal tt -> blocks_broadcast tr = due /\ infos_broadcast tr = info).
Proof.
  intros Hrun due info.
  destruct (oncoreupdate_runs sessions c status bitfield value from this
              _ _ _ Hrun) as [Hpre Hfull].
  destruct (broadcasts_of_update this sessions c status bitfield value from)
    as [Hb Hi].
  assert (Hprefix : blocks_broadcast tr `prefix_of` due).
  { unfold due. rewrite <- Hb. by apply blocks_broadcast_prefix. }
  split; [exact Hprefix|]. split; [|split].
  - unfold info. rewrite <- Hi. by apply infos_broadcast_prefix.
  - intros i Hin.
    assert (Hdue : i ∈ due).
    { destruct Hprefix as [k ->]. apply elem_of_app. by left. }
    unfold due in Hdue. destruct bitfield as [d|]; [|by apply elem_of_nil in Hdue].
    destruct (Delta.drop d) eqn:Hd; [by apply elem_of_nil in Hdue|].
    exists d. split; [done|]. split; [done|]. by apply elem_of_delta_indices.
  - intros ->. destruct (Hfull tt eq_refl) as [-> _]. by split.
Qed.

Lemma oncoreupdate_broadcasts_witness :
  blocks_broadcast
    (snd (Hypercore._oncoreupdate [0%nat; 1%nat] Sample.core3 1
            (Some (Delta.mk false 3 2)) None None
            (Sample.writer Options.empty)))
  = [3; 4].
Proof.
  refine (proj1 (proj2 (proj2 (proj2
    (oncoreupdate_broadcasts [0%nat; 1%nat] Sample.core3 1
       (Some (Delta.mk false 3 2)) None None (Sample.writer Options.empty)
       (Normal tt) (Sample.writer Options.empty) _ _))) eq_refl)).
  vm_compute. reflexivity.
Defined.

(** X15. [_onupload] and [_onpeerupdate] leave the session alone and send
    every entry of the sessions array one event, in the order of the
    array. [_onupload] sends the upload event with the byte length less the
    padding. [_onpeerupdate] for a removed peer sends peer-remove; for an
    added peer it first calls [extensions.update(peer)] and then sends
    peer-add, and when that call throws it throws with it and sends
    nothing. *)
Theorem upload_and_peer_events sessions index value from peer updated this :
  Hypercore._onupload sessions index value from this
  = (Normal tt, this,
     map (fun s => emit s (ev_upload index
                             (Z.of_nat (length value)
                              - Z.of_nat (Hypercore.padding this)) from))
       sessions)
  /\ Hypercore._onpeerupdate sessions false peer updated this
     = (Normal tt, this, map (fun s => emit s (ev_peer_remove peer)) sessions)
  /\ Hypercore._onpeerupdate sessions true peer updated this
     = match updated with
       | Normal _ =>
           (Normal tt, this,
            extensions_update peer
              :: map (fun s => emit s (ev_peer_add peer)) sessions)
       | Throw e => (Throw e, this, [extensions_update peer])
       end.
Proof.
  split; [|split].
  - unfold Hypercore._onupload, bind at 1, read. by rewrite for_each_tell.
  - unfold Hypercore._onpeerupdate, when, bind at 1, ret.
    by rewrite for_each_tell.
  - unfold Hypercore._onpeerupdate, when, bind, lift. cbn.
    destruct updated as [[]|e]; [|done]. by rewrite for_each_tell.
Qed.

(** ** User data and updates *)

Lemma saved_null key userData :
  Hypercore.saved key userData = VNull <-> key ∉ map fst userData.
Proof.
  induction userData as [|[k v] rest IH]; cbn.
  - split; [intros _; apply not_elem_of_nil | done].
  - destruct (String.eqb_spec key k) as [->|Hne].
    + split; [done|]. intros H. exfalso. apply H. left.
    + rewrite IH, not_elem_of_cons. tauto.
Qed.

Lemma saved_first key pre v post :
  key ∉ map fst pre ->
  Hypercore.saved key (pre ++ (key, v) :: post) = VBuf v.
Proof.
  induction pre as [|[k x] pre IH]; cbn; intros H.
  - by rewrite String.eqb_refl.
  - apply not_elem_of_cons in H as [Hne H].
    destruct (String.eqb_spec key k); [done|]. by apply IH.
Qed.

(** X16. On a session whose opening has settled with a Core,
    [getUserData(key)] does not throw; it resolves to null exactly when no
    entry of the header's user data has the key, and otherwise to the value
    of the first entry that has it, whatever later entries say. *)
Theorem getUserData_lookup this opening this' userData key :
  Hypercore.after_opening this opening = Normal this' ->
  Session.core this' = Some the_core ->
  (Hypercore.getUserData this opening userData key = Normal VNull
   <-> key ∉ map fst userData)
  /\ (forall pre v post,
        userData = pre ++ (key, v) :: post -> key ∉ map fst pre ->
        Hypercore.getUserData this opening userData key = Normal (VBuf v)).
Proof.
  intros Hopen Hcore. unfold Hypercore.getUserData.
  rewrite Hopen. cbn [bindc]. rewrite Hcore. split.
  - rewrite <- saved_null. split; [by intros [= ->] | by intros ->].
  - intros pre v post -> Hpre. by rewrite saved_first.
Qed.

Lemma getUserData_lookup_witness :
  Hypercore.getUserData (Sample.reader Options.empty)
    (Normal (Sample.reader Options.empty))
    ([("a"%string, [x01])] ++ ("b"%string, [x02]) :: [("b"%string, [x03])]) "b"
  = Normal (VBuf [x02]).
Proof.
  refine (proj2 (getUserData_lookup (Sample.reader Options.empty)
                   (Normal (Sample.reader Options.empty))
                   (Sample.reader Options.empty)
                   ([("a"%string, [x01])] ++ ("b"%string, [x02]) :: [("b"%string, [x03])]) "b"
                   eq_refl eq_refl)
            [("a"%string, [x01])] [x02] [("b"%string, [x03])] eq_refl _).
  cbn. rewrite list_elem_of_singleton. discriminate.
Defined.

(** ** Closing *)

Lemma core_closes_app t1 t2 :
  core_closes (t1 ++ t2) = (core_closes t1 + core_closes t2)%nat.
Proof. unfold core_closes. by rewrite omap_app, length_app. Qed.

Lemma no_close_app l1 l2 : no_close l1 -> no_close l2 -> no_close (l1 ++ l2).
Proof. intros H1 H2. apply Forall_app. by split. Qed.

Lemma closeless_events i tr : closeless tr -> no_close (events_for i tr).
Proof.
  induction 1 as [|c tr Hc _ IH]; [constructor|].
  destruct c; try exact IH.
  unfold events_for. cbn [omap list_omap]. fold (events_for i tr).
  destruct (session =? i)%nat; [|exact IH].
  constructor; [|exact IH]. by destruct e.
Qed.

Lemma harmless_nil l : harmless l [].
Proof. split; [done|]. split; [constructor | done]. Qed.

Lemma harmless_app l t1 t2 : harmless l t1 -> harmless l t2 -> harmless l (t1 ++ t2).
Proof.
  intros (H1 & H2 & H3) (K1 & K2 & K3). split; [|split].
  - rewrite core_closes_app. lia.
  - apply Forall_app. by split.
  - intros s Hs. by rewrite events_for_app, H3, K3.
Qed.

Lemma harmless_prefix l tr T : tr `prefix_of` T -> harmless l T -> harmless l tr.
Proof.
  intros [k ->] (H1 & H2 & H3). split; [|split].
  - rewrite core_closes_app in H1. lia.
  - by apply Forall_app in H2 as [? _].
  - intros s Hs. specialize (H3 s Hs). rewrite events_for_app in H3.
    by apply app_eq_nil in H3 as [-> _].
Qed.

Lemma harmless_emits l (f : sid -> event) :
  (forall x, is_close (f x) = false) ->
  harmless l (map (fun x => emit x (f x)) l).
Proof.
  intros Hf.
  assert (H : forall k, (forall x, x ∈ k -> x ∈ l) ->
            harmless l (map (fun x => emit x (f x)) k)).
  { induction k as [|x k IH]; intros Hk; [apply harmless_nil|].
    change (harmless l ([emit x (f x)] ++ map (fun x => emit x (f x)) k)).
    apply harmless_app.
    - split; [done|]. split.
      + constructor; [|constructor]. specialize (Hf x). by destruct (f x).
      + intros s Hs. cbn. destruct (Nat.eqb_spec x s) as [->|Hne]; [|done].
        destruct Hs. apply Hk. by left.
    - apply IH. intros y Hy. apply Hk. by right. }
  by apply H.
Qed.

Lemma harmless_flat_map l (f : sid -> list call) :
  (forall x, x ∈ l -> harmless l (f x)) ->
  harmless l (flat_map f l).
Proof.
  intros Hf.
  assert (H : forall k, (forall x, x ∈ k -> x ∈ l) -> harmless l (flat_map f k)).
  { induction k as [|x k IH]; intros Hk; [apply harmless_nil|].
    cbn [flat_map]. apply harmless_app.
    - apply Hf, Hk. by left.
    - apply IH. intros y Hy. apply Hk. by right. }
  by apply H.
Qed.

Lemma harmless_update_calls this sessions c status bitfield value from :
  harmless sessions (update_calls this sessions c status bitfield value from).
Proof.
  assert (Hinfo : harmless sessions [replicator_broadcastInfo]).
  { split; [done|]. split; [by repeat constructor | done]. }
  assert (Hblocks : forall l, harmless sessions (map replicator_broadcastBlock l)).
  { induction l as [|i l IH]; [apply harmless_nil|].
    change (harmless sessions ([replicator_broadcastBlock i]
                               ++ map replicator_broadcastBlock l)).
    apply harmless_app; [|done].
    split; [done|]. split; [by repeat constructor | done]. }
  assert (Hstatus : forall cache_on start fork,
            harmless sessions
              (flat_map (status_calls cache_on status start fork) sessions)).
  { intros cache_on start fork. apply harmless_flat_map. intros x Hx.
    split; [|split].
    - unfold status_calls.
      by destruct (Hypercore.truncate_bit status),
        (Hypercore.append_bit status), cache_on.
    - unfold status_calls.
      destruct (Hypercore.truncate_bit status),
        (Hypercore.append_bit status), cache_on; by repeat constructor.
    - intros s Hs. rewrite events_for_status.
      destruct (Nat.eqb_spec x s) as [->|Hne]; [by destruct Hs | done]. }
  unfold update_calls. repeat apply harmless_app.
  - destruct (negb (status =? 0)); [|apply harmless_nil].
    apply harmless_app; [apply Hstatus | apply Hinfo].
  - destruct bitfield as [d|]; [|apply harmless_nil].
    destruct (Delta.drop d); [apply harmless_nil | apply Hblocks].
  - destruct value as [v|]; [|apply harmless_nil].
    by apply harmless_emits.
Qed.

Lemma oncoreupdate_harmless sessions c status bitfield value from this r this' tr :
  Hypercore._oncoreupdate sessions c status bitfield value from this
    = (r, this', tr) ->
  harmless sessions tr.
Proof.
  intros Hrun.
  destruct (oncoreupdate_runs sessions c status bitfield value from this
              _ _ _ Hrun) as [Hpre _].
  eapply harmless_prefix; [exact Hpre | apply harmless_update_calls].
Qed.

Lemma keeps_flags_passCapabilities src :
  keeps_flags (fun this => Hypercore._passCapabilities this src).
Proof. done. Qed.

Lemma keeps_flags_resolve_signer key opts :
  keeps_flags (fun this => Hypercore.resolve_signer key this opts).
Proof.
  intros this. by destruct (resolve_signer_cases key this opts) as [-> | [sg ->]].
Qed.

Lemma keeps_flags_settle c opts :
  keeps_flags (fun this =>
    match Hypercore.settle_writable this c opts with
    | Normal this' => this'
    | Throw _ => this
    end).
Proof.
  intros this. unfold Hypercore.settle_writable.
  destruct (Session.sign this); cbn [bindc]; [done|].
  by destruct (Session.core this).
Qed.

Lemma append_trace junk engine_append this opening blocks c :
  let tr := snd (Hypercore.append junk engine_append this opening blocks c) in
  core_closes tr = 0%nat /\ forall s, events_for s tr = [].
Proof.
  unfold Hypercore.append, bind, lift, read, tell, throw.
  destruct (Hypercore.after_opening this opening) as [this'|]; [|done].
  destruct (negb (Session.writable this')); [done|].
  destruct (match Session.encodeBatch this' with
            | Some encodeBatch => _
            | None => _
            end) as [buffers|]; [|done].
  destruct (Hypercore.the_Core this' c); [|done].
  cbn. by destruct (engine_append _ _ _ _).
Qed.

Lemma truncate_trace engine_truncate this opening newLength fork c :
  let tr := snd (Hypercore.truncate engine_truncate this opening newLength fork c) in
  core_closes tr = 0%nat /\ forall s, events_for s tr = [].
Proof.
  unfold Hypercore.truncate, bind, lift, read, tell, throw.
  destruct (Hypercore.after_opening this opening) as [this'|]; [|done].
  destruct (negb (Session.writable this')); [done|].
  destruct (Hypercore.the_Core this' c); [|done].
  cbn. destruct (engine_truncate _ _ _ _) as [[[]|] c1]; [|done].
  by destruct (Hypercore.on_replicator this').
Qed.

Lemma calm_refl w : calm w w.
Proof.
  split; [done|]. split; [done|]. split; [done|]. split; [by eauto 10|].
  exists []. rewrite app_nil_r. split; [done|]. split; [done|].
  intros i. split; [constructor | done].
Qed.

Lemma calm_said w w' tr :
  calm w w' -> harmless (Log.sessions w) tr -> calm w (Log.said tr w').
Proof.
  intros (Hst & Harr & Hlen & Hobj & tr0 & Hcalls & Hc & He) (Kc & Kl & Ke).
  split; [done|]. split; [done|]. split; [done|]. split; [done|].
  exists (tr0 ++ tr). cbn. rewrite Hcalls, core_closes_app, Hc, Kc, app_assoc.
  split; [done|]. split; [done|].
  intros i. destruct (He i) as [He1 He2]. rewrite events_for_app. split.
  - apply no_close_app; [done | by apply closeless_events].
  - intros Hne. destruct (decide (i ∈ Log.sessions w)) as [Hi|Hi]; [by left|].
    rewrite (Ke i Hi), app_nil_r in Hne. by apply He2.
Qed.

Lemma calm_set_object w x this o :
  Log.objects w !! x = Some this ->
  Session.closed o = Session.closed this ->
  (Session.closing this = true -> Session.closing o = true) ->
  (Session.opened this = true -> Session.opened o = true) ->
  calm w (Log.set_object x o w).
Proof.
  intros Hx Hcd Hcg Hop.
  split; [done|]. split; [done|]. split; [cbn; by rewrite length_insert|].
  split.
  - intros i this0 Hi.
    change (Log.objects (Log.set_object x o w)) with (<[x := o]> (Log.objects w)).
    destruct (decide (x = i)) as [->|Hne].
    + exists o. rewrite list_lookup_insert_eq by (by eapply lookup_lt_Some).
      rewrite Hx in Hi. injection Hi as <-. done.
    + exists this0. by rewrite list_lookup_insert_ne.
  - exists []. cbn. rewrite app_nil_r. split; [done|]. split; [done|].
    intros i. split; [constructor | done].
Qed.

Lemma calm_change w x f : keeps_flags f -> calm w (Log.change w x f).
Proof.
  intros Hf. unfold Log.change.
  destruct (Log.objects w !! x) as [this|] eqn:Hx; [|apply calm_refl].
  destruct (Hf this) as (H1 & H2 & H3).
  eapply calm_set_object; [done | done | congruence | congruence].
Qed.

Lemma calm_on_core {A} w (m : M Core.t A) :
  core_closes (snd (m (Log.core w))) = 0%nat ->
  (forall s, events_for s (snd (m (Log.core w))) = []) ->
  calm w (Log.on_core w m).
Proof.
  intros Hc He. unfold Log.on_core.
  destruct (m (Log.core w)) as [[r c] tr]. cbn [snd] in Hc, He.
  split; [done|]. split; [done|]. split; [done|]. split; [by eauto 10|].
  exists tr. split; [done|]. split; [done|].
  intros i. rewrite He. split; [constructor | done].
Qed.

Lemma calm_on_root {A} w root (m : M Session.t A) :
  (forall this r this' tr,
     Log.objects w !! root = Some this -> m this = (r, this', tr) ->
     only_cache this this' /\ harmless (Log.sessions w) tr) ->
  calm w (Log.on_root w root m).
Proof.
  intros Hm. unfold Log.on_root.
  destruct (Log.objects w !! root) as [this|] eqn:Hr; [|apply calm_refl].
  destruct (m this) as [[r this'] tr] eqn:E.
  destruct (Hm _ _ _ _ eq_refl E) as [Hoc Htr].
  apply calm_said; [|done].
  eapply calm_set_object; [done| | |]; by destruct Hoc as [-> | ->].
Qed.

Lemma calm_opened w s : calm w (Log.opened w s).
Proof.
  unfold Log.opened.
  destruct (Log.objects w !! s) as [this|] eqn:Hs; [|apply calm_refl].
  destruct (Session.opened this) eqn:Hop; [apply calm_refl|].
  destruct (Session.closed this) eqn:Hcd; [apply calm_refl|]. cbn [orb].
  destruct (calm_set_object w s this (Hypercore.mark_opened this) Hs)
    as (Hst & Harr & Hlen & Hobj & tr0 & Hcalls & Hc & He); [done..|].
  split; [done|]. split; [done|]. split; [done|]. split; [done|].
  exists (tr0 ++ [emit s ev_ready]). cbn -[Log.set_object].
  rewrite Hcalls, core_closes_app, Hc, app_assoc.
  split; [done|]. split; [done|].
  intros i. destruct (He i) as [He1 He2]. rewrite events_for_app. split.
  - apply no_close_app; [done|]. cbn. destruct (_ =? _)%nat; by repeat constructor.
  - intros Hne. cbn in Hne. destruct (Nat.eqb_spec s i) as [->|Hsi].
    + right. by exists this.
    + rewrite app_nil_r in Hne. by apply He2.
Qed.

Lemma calm_close w s : calm w (Log.close w s).
Proof.
  unfold Log.close.
  destruct (Log.objects w !! s) as [this|] eqn:Hs; [|apply calm_refl].
  destruct (Session.closing this); [apply calm_refl|].
  by eapply calm_set_object.
Qed.

Lemma calm_get w s index opts : calm w (snd (Log.get w s index opts)).
Proof.
  unfold Log.get.
  destruct (Log.objects w !! s) as [this|] eqn:Hs; [|apply calm_refl].
  destruct (Hypercore.get _ _ _ _ _ _ _ _) as [res cache]. cbn [snd].
  by eapply calm_set_object.
Qed.

Lemma calm_get_resumed w s index fork b : calm w (Log.get_resumed w s index fork b).
Proof.
  unfold Log.get_resumed.
  destruct (Log.objects w !! s) as [this|] eqn:Hs; [|apply calm_refl].
  destruct (Session.cache this) as [m|]; [|apply calm_refl].
  destruct (Session.core this); [|apply calm_refl].
  destruct (_ && _); [|apply calm_refl].
  by eapply calm_set_object.
Qed.

(** Every step that neither makes a session nor runs a [_close] is calm. *)
Lemma step_calm junk engine_truncate engine_append w o :
  match o with
  | Log.op_session _ _ | Log.op_snapshot _ | Log.op_join _ _ _
  | Log.op_close_resumed _ | Log.op_close_settled _ _
  | Log.op_close_failed _ => True
  | _ => calm w (Log.step junk engine_truncate engine_append w o)
  end.
Proof.
  destruct o as [x blocks | x n f | root status bitfield value from
                | root index value from | root added peer updated
                | parent opts | parent | from key opts | x src | x key opts
                | x opts | x | x | x | x k | x | x index opts
                | x index fork b]; cbn [Log.step]; try exact I.
  - unfold Log.append. destruct (Log.objects w !! x); [|apply calm_refl].
    apply calm_on_core; apply append_trace.
  - unfold Log.truncate. destruct (Log.objects w !! x); [|apply calm_refl].
    apply calm_on_core; apply truncate_trace.
  - apply calm_on_root. intros this r this' tr _ E. split.
    + by eapply oncoreupdate_only_cache.
    + by eapply oncoreupdate_harmless.
  - apply calm_on_root. intros this r this' tr _ E.
    apply onupload_state in E as [-> ->]. split; [by left|].
    by apply harmless_emits.
  - apply calm_on_root. intros this r this' tr _ E.
    apply onpeerupdate_state in E as (-> & head & Hhead & Hpre).
    split; [by left|].
    eapply harmless_prefix; [exact Hpre|]. apply harmless_app.
    + destruct Hhead as [-> | ->]; [apply harmless_nil|].
      split; [done|]. split; [by repeat constructor | done].
    + apply harmless_emits. intros _. by destruct added.
  - destruct (Log.objects w !! src); [|apply calm_refl].
    apply calm_change, keeps_flags_passCapabilities.
  - apply calm_change, keeps_flags_resolve_signer.
  - apply calm_change, keeps_flags_settle.
  - apply calm_opened.
  - apply calm_close.
  - apply calm_get.
  - apply calm_get_resumed.
Qed.

Lemma events_for_emit_self s e tr :
  events_for s (tr ++ [emit s e]) = events_for s tr ++ [e].
Proof. rewrite events_for_app. cbn. by rewrite Nat.eqb_refl. Qed.

Lemma events_for_emit_other s j e tr :
  j <> s -> events_for j (tr ++ [emit s e]) = events_for j tr.
Proof.
  intros Hne. rewrite events_for_app. cbn.
  destruct (Nat.eqb_spec s j) as [->|_]; [done|]. by rewrite app_nil_r.
Qed.

Lemma elem_of_splice_out s l x :
  NoDup l -> x ∈ Log.splice_out s l <-> x ∈ l /\ x <> s.
Proof.
  induction l as [|y l IH]; intros Hnd.
  - cbn. rewrite elem_of_nil. tauto.
  - apply NoDup_cons in Hnd as [Hy Hnd]. cbn.
    destruct (Nat.eqb_spec y s) as [->|Hne].
    + rewrite elem_of_cons. split.
      * intros Hx. split; [by right|]. by intros ->.
      * by intros [[->|Hx] Hne].
    + rewrite !elem_of_cons, IH by done. split.
      * intros [->|[Hx ?]]; split; auto.
      * intros [[->|Hx] ?]; auto.
Qed.

Lemma splice_out_keeps s l x : x ∈ l -> x <> s -> x ∈ Log.splice_out s l.
Proof.
  induction l as [|y l IH]; [done|]. cbn.
  intros [Heq|Hx]%elem_of_cons Hne.
  - subst y. destruct (Nat.eqb_spec x s); [done | by left].
  - destruct (Nat.eqb_spec y s); [done|]. right. by apply IH.
Qed.

Lemma splice_out_last s l : s ∈ l -> Log.splice_out s l = [] -> l = [s].
Proof.
  destruct l as [|y l]; [by intros ?%elem_of_nil|]. cbn.
  destruct (Nat.eqb_spec y s) as [->|Hne]; [by intros _ -> | done].
Qed.

Lemma quiet_calm w w' i :
  calm w w' -> quiet w i ->
  quiet w' i /\ events_for i (Log.calls w') = events_for i (Log.calls w).
Proof.
  intros (Hst & Harr & Hlen & Hobj & tr & Hcalls & Hc & He)
    [Hi (this & Ho & Hfl)].
  destruct (Hobj _ _ Ho) as (this' & Ho' & Hcd & Hcg & Hop).
  split.
  - split; [by rewrite Harr|]. exists this'. split; [done|].
    destruct Hfl as [H|H]; [left; congruence | right; auto].
  - rewrite Hcalls, events_for_app.
    destruct (He i) as [_ He2].
    destruct (events_for i tr) as [|e l] eqn:E; [by rewrite app_nil_r|].
    destruct He2 as [Hin | (x & Hx & Hxo & Hxc)]; [done | done |].
    rewrite Ho in Hx. injection Hx as <-. destruct Hfl; congruence.
Qed.

Lemma quiet_push w new i : quiet w i -> quiet (Log.push new w) i.
Proof.
  intros [Hi (this & Ho & Hfl)]. split.
  - cbn. rewrite elem_of_app, list_elem_of_singleton. intros [H | ->]; [done|].
    apply lookup_lt_Some in Ho. lia.
  - exists this. split; [|done]. cbn. by apply lookup_app_l_Some.
Qed.

(** A session past the array stays so when another one is spliced out. *)
Lemma quiet_spliced w s o i :
  i <> s -> quiet w i ->
  quiet (Log.set_sessions (Log.splice_out s (Log.sessions w))
           (Log.set_object s o w)) i.
Proof.
  intros Hne [Hi (this & Ho & Hfl)]. split.
  - cbn. by intros ?%splice_out_subset.
  - exists this. split; [|done].
    change (<[s := o]> (Log.objects w) !! i = Some this).
    by rewrite list_lookup_insert_ne.
Qed.

Lemma quiet_self w s this o :
  NoDup (Log.sessions w) ->
  Log.objects w !! s = Some this ->
  Session.closed o = true ->
  quiet (Log.set_sessions (Log.splice_out s (Log.sessions w))
           (Log.set_object s o w)) s.
Proof.
  intros Hnd Ho Hcd. split.
  - cbn. rewrite elem_of_splice_out by done. by intros [_ ?].
  - exists o. split; [|by left].
    change (<[s := o]> (Log.objects w) !! s = Some o).
    rewrite list_lookup_insert_eq; [done | by eapply lookup_lt_Some].
Qed.

Lemma staged_frame w w' i :
  Log.closes w' !! i = Log.closes w !! i ->
  events_for i (Log.calls w') = events_for i (Log.calls w) ->
  (quiet w i -> quiet w' i) ->
  staged w i -> staged w' i.
Proof.
  unfold staged. intros -> -> Hq.
  destruct (Log.closes w !! i) as [[other| | |]|]; intuition.
Qed.

Lemma staged_calm w w' i : calm w w' -> staged w i -> staged w' i.
Proof.
  intros Hcalm Hst.
  pose proof Hcalm as (Hcl & Harr & Hlen & Hobj & tr & Hcalls & Hc & He).
  assert (Hmore : no_close (events_for i (Log.calls w)) ->
                  no_close (events_for i (Log.calls w'))).
  { intros H. rewrite Hcalls, events_for_app. apply no_close_app; [done|].
    apply He. }
  unfold staged in *. rewrite Hcl.
  destruct (Log.closes w !! i) as [[other| | |]|] eqn:E; auto.
  - destruct Hst as [Hn Hq]. split; [auto|]. by eapply quiet_calm.
  - destruct Hst as [Hn Hq]. split; [auto|]. by eapply quiet_calm.
  - destruct Hst as [Hn Hq].
    destruct (quiet_calm _ _ _ Hcalm Hq) as [Hq' ->]. done.
Qed.

Lemma staged_moved w w'' s i :
  (forall j, j <> s -> Log.closes w'' !! j = Log.closes w !! j) ->
  (forall j, j <> s ->
     events_for j (Log.calls w'') = events_for j (Log.calls w)) ->
  (forall j, j <> s -> quiet w j -> quiet w'' j) ->
  staged w'' s ->
  staged w i -> staged w'' i.
Proof.
  intros Hcl Hev Hq Hs Hi. destruct (decide (i = s)) as [->|Hne]; [done|].
  apply (staged_frame w); auto.
Qed.

Lemma staged_returns w s last i :
  no_close (events_for s (Log.calls w)) -> quiet w s ->
  staged w i ->
  staged (Log.set_stage s Log.Returned
            (Log.said [emit s (ev_close last)] w)) i.
Proof.
  intros Hn Hq. apply staged_moved with (s := s).
  - intros j Hj. cbn. by rewrite lookup_insert_ne.
  - intros j Hj. cbn. by apply events_for_emit_other.
  - done.
  - unfold staged. cbn [Log.closes Log.set_stage].
    rewrite lookup_insert_eq. split; [|done].
    right. exists (events_for s (Log.calls w)), last. split; [|done].
    apply events_for_emit_self.
Qed.

Lemma staged_set_stage w s st i :
  no_close (events_for s (Log.calls w)) -> quiet w s ->
  staged w i ->
  staged (Log.set_stage s st w) i.
Proof.
  intros Hn Hq. apply staged_moved with (s := s).
  - intros j Hj. cbn. by rewrite lookup_insert_ne.
  - done.
  - done.
  - unfold staged. cbn [Log.closes Log.set_stage].
    rewrite lookup_insert_eq. destruct st; try done. split; [by left | done].
Qed.

Lemma staged_throws w s i :
  no_close (events_for s (Log.calls w)) ->
  staged w i ->
  staged (Log.set_stage s Log.Thrown w) i.
Proof.
  intros Hn. apply staged_moved with (s := s).
  - intros j Hj. cbn. by rewrite lookup_insert_ne.
  - done.
  - done.
  - unfold staged. cbn [Log.closes Log.set_stage]. by rewrite lookup_insert_eq.
Qed.

Lemma staged_close_failed w s i :
  staged w s -> staged w i -> staged (Log.close_failed w s) i.
Proof.
  intros Hs Hi. unfold Log.close_failed.
  destruct (Log.objects w !! s) as [this|] eqn:Ho; [|done].
  destruct (Log.closes w !! s) eqn:Hc; [done|].
  destruct (_ && _); [|done].
  apply staged_throws; [|done]. unfold staged in Hs. by rewrite Hc in Hs.
Qed.

Lemma staged_close_settled w s k i :
  (forall j, staged w j) -> staged (Log.close_settled w s k) i.
Proof.
  intros Hall. pose proof (Hall s) as Hs. pose proof (Hall i) as Hi.
  unfold Log.close_settled.
  destruct (Log.closes w !! s) as [[other| | |]|] eqn:Hc; try done.
  - unfold staged in Hs. rewrite Hc in Hs. destruct Hs as [Hn Hq].
    destruct (Log.closes w !! other) as [[| | |]|]; try done.
    + by apply staged_returns.
    + by apply staged_throws.
  - unfold staged in Hs. rewrite Hc in Hs. destruct Hs as [Hn Hq].
    destruct k; [by apply staged_returns | by apply staged_throws].
Qed.

Lemma staged_close_resumed w s i :
  orderly w -> staged (Log.close_resumed w s) i.
Proof.
  intros [[Hnd _] Hall]. pose proof (Hall s) as Hs. unfold Log.close_resumed.
  destruct (Log.objects w !! s) as [this|] eqn:Ho; [|done].
  destruct (Log.closes w !! s) eqn:Hc; [done|].
  destruct (Session.closing this && Session.opened this) eqn:Hgo; [|done].
  apply andb_true_iff in Hgo as [Hcg Hop].
  unfold staged in Hs. rewrite Hc in Hs.
  destruct (bool_decide (s ∈ Log.sessions w)) eqn:Hin.
  - apply bool_decide_eq_true in Hin.
    set (w1 := Log.set_sessions (Log.splice_out s (Log.sessions w))
                 (Log.set_object s (Hypercore.close_fields this) w)).
    assert (Hq1 : quiet w1 s) by (by eapply quiet_self).
    assert (Hall1 : forall j, staged w1 j).
    { intros j. destruct (decide (j = s)) as [->|Hne].
      - unfold staged. cbn. by rewrite Hc.
      - apply (staged_frame w); [done | done | by apply quiet_spliced | done]. }
    assert (Hn1 : no_close (events_for s (Log.calls w1))) by done.
    destruct (Log.splice_out s (Log.sessions w)) as [|other [|y rest]] eqn:Hrest.
    + destruct (Session.core this).
      * assert (He : events_for s (Log.calls (Log.said [core_close] w1))
                     = events_for s (Log.calls w1)).
        { unfold Log.said. cbn [Log.calls].
          rewrite events_for_app. apply app_nil_r. }
        assert (Hei : events_for i (Log.calls (Log.said [core_close] w1))
                      = events_for i (Log.calls w1)).
        { unfold Log.said. cbn [Log.calls].
          rewrite events_for_app. apply app_nil_r. }
        apply staged_set_stage; [by rewrite He | done |].
        apply (staged_frame w1); [done | done | done | done].
      * by apply staged_throws.
    + destruct (Session.autoClose this).
      * destruct (quiet_calm _ _ _ (calm_close w1 other) Hq1) as [Hq2 He2].
        apply staged_set_stage; [by rewrite He2 | done |].
        apply (staged_calm w1); [apply calm_close | done].
      * by apply staged_returns.
    + by apply staged_returns.
  - apply bool_decide_eq_false in Hin.
    apply staged_set_stage; [done | | done].
    split; [done|]. exists this. split; [done | by right].
Qed.

Lemma session_pushes w parent opts :
  Log.session w parent opts = w
  \/ exists this new,
       Log.objects w !! parent = Some this
       /\ Session.closing this = false
       /\ Session.closing new = false
       /\ Log.session w parent opts = Log.push new w.
Proof.
  unfold Log.session.
  destruct (Log.objects w !! parent) as [this|] eqn:Hp; [|by left].
  destruct (Hypercore.session this opts) as [s|] eqn:E; [|by left].
  right. exists this, s. split; [done|].
  unfold Hypercore.session in E.
  destruct (Session.closing this); [done|].
  destruct (Hypercore.constructor _ _) as [s0|] eqn:E0; [|done].
  apply constructor_fields in E0 as ->. cbn [bindc] in E.
  injection E as <-. done.
Qed.

Lemma snapshot_pushes w parent :
  Log.snapshot w parent = w
  \/ exists this new,
       Log.objects w !! parent = Some this
       /\ Session.closing this = false
       /\ Session.closing new = false
       /\ Log.snapshot w parent = Log.push new w.
Proof.
  unfold Log.snapshot.
  destruct (Log.objects w !! parent) as [this|] eqn:Hp; [|by left].
  destruct (Hypercore.snapshot this (Log.core w)) as [s|] eqn:E; [|by left].
  right. exists this, s. split; [done|].
  unfold Hypercore.snapshot, Hypercore.session in E.
  destruct (Session.closing this); [done|].
  destruct (Hypercore.constructor _ _) as [s0|] eqn:E0; [|done].
  apply constructor_fields in E0 as ->. cbn [bindc] in E.
  injection E as <-. done.
Qed.

Lemma join_pushes w from key opts :
  Log.join w from key opts = w
  \/ exists new, Log.join w from key opts = Log.push new w.
Proof.
  unfold Log.join.
  destruct (Log.objects w !! from) as [f|]; [|by left].
  destruct (_ || _); [|by left].
  destruct (Hypercore.constructor key opts); [|by left].
  right. by eexists.
Qed.

Lemma staged_push w new i : staged w i -> staged (Log.push new w) i.
Proof. apply (staged_frame w); [done | done | apply quiet_push]. Qed.

(** Every step keeps the log orderly. *)
Lemma orderly_step junk engine_truncate engine_append w o :
  orderly w -> orderly (Log.step junk engine_truncate engine_append w o).
Proof.
  intros Hw. pose proof Hw as [Hreg Hall].
  split; [by apply registered_once_step|]. intros i.
  pose proof (step_calm junk engine_truncate engine_append w o) as Hcalm.
  destruct o as [x blocks | x n f | root status bitfield value from
                | root index value from | root added peer updated
                | parent opts | parent | from key opts | x src | x key opts
                | x opts | x | x | x | x k | x | x index opts
                | x index fork b];
    try (by apply (staged_calm w)); cbn [Log.step].
  - destruct (session_pushes w parent opts)
      as [-> | (this & new & _ & _ & _ & ->)]; [done | by apply staged_push].
  - destruct (snapshot_pushes w parent)
      as [-> | (this & new & _ & _ & _ & ->)]; [done | by apply staged_push].
  - destruct (join_pushes w from key opts) as [-> | (new & ->)];
      [done | by apply staged_push].
  - by apply staged_close_resumed.
  - by apply staged_close_settled.
  - by apply staged_close_failed.
Qed.

Lemma orderly_run junk engine_truncate engine_append ops :
  forall w,
  orderly w -> orderly (Log.run junk engine_truncate engine_append w ops).
Proof.
  induction ops as [|o ops IH]; intros w Hw; [done|].
  cbn. apply IH. by apply orderly_step.
Qed.

(** A log in which no [_close] has started and no close event was sent is
    orderly. *)
Lemma orderly_start w :
  registered_once w -> Log.closes w = ∅ -> closeless (Log.calls w) ->
  orderly w.
Proof.
  intros Hreg Hcl Hcalls. split; [done|]. intros i. unfold staged.
  rewrite Hcl, lookup_empty. by apply closeless_events.
Qed.

(** What the [_close] of a session of the array does when it goes on. *)
Lemma close_resumed_eq w s this :
  Log.objects w !! s = Some this -> Log.closes w !! s = None ->
  Session.closing this = true -> Session.opened this = true ->
  s ∈ Log.sessions w ->
  Log.close_resumed w s
  = let rest := Log.splice_out s (Log.sessions w) in
    let w1 := Log.set_sessions rest
                (Log.set_object s (Hypercore.close_fields this) w) in
    match rest with
    | [] =>
        match Session.core this with
        | Some _ => Log.set_stage s Log.AwaitCore (Log.said [core_close] w1)
        | None => Log.set_stage s Log.Thrown w1
        end
    | [other] =>
        if Session.autoClose this
        then Log.set_stage s (Log.AwaitOther other) (Log.close w1 other)
        else Log.set_stage s Log.Returned
               (Log.said [emit s (ev_close false)] w1)
    | _ => Log.set_stage s Log.Returned (Log.said [emit s (ev_close false)] w1)
    end.
Proof.
  intros Ho Hc Hcg Hop Hin. unfold Log.close_resumed.
  rewrite Ho, Hc, Hcg, Hop. cbn [andb]. by rewrite bool_decide_eq_true_2.
Qed.

Lemma close_settled_core w s u :
  Log.closes w !! s = Some Log.AwaitCore ->
  Log.close_settled w s (Normal u)
  = Log.set_stage s Log.Returned (Log.said [emit s (ev_close true)] w).
Proof. intros H. unfold Log.close_settled. by rewrite H. Qed.

Lemma close_settled_other w s other k :
  Log.closes w !! s = Some (Log.AwaitOther other) ->
  Log.closes w !! other = Some Log.Returned ->
  Log.close_settled w s k
  = Log.set_stage s Log.Returned (Log.said [emit s (ev_close false)] w).
Proof. intros H1 H2. unfold Log.close_settled. by rewrite H1, H2. Qed.

Lemma close_resumed_started w s :
  is_Some (Log.closes w !! s) -> Log.close_resumed w s = w.
Proof.
  intros [st Hst]. unfold Log.close_resumed. rewrite Hst.
  by destruct (Log.objects w !! s).
Qed.

Lemma close_failed_started w s :
  is_Some (Log.closes w !! s) -> Log.close_failed w s = w.
Proof.
  intros [st Hst]. unfold Log.close_failed. rewrite Hst.
  by destruct (Log.objects w !! s).
Qed.

Lemma apart_refl w s : apart w w s.
Proof. by split. Qed.

Lemma apart_trans w1 w2 w3 s : apart w1 w2 s -> apart w2 w3 s -> apart w1 w3 s.
Proof.
  intros [H1 K1] [H2 K2]. split; [congruence|].
  intros Hq. destruct (K1 Hq) as [Hq2 E2]. destruct (K2 Hq2) as [Hq3 E3].
  split; [done | congruence].
Qed.

Lemma apart_calm w w' s : calm w w' -> apart w w' s.
Proof.
  intros Hcalm. split; [by rewrite (proj1 Hcalm)|]. by apply quiet_calm.
Qed.

Lemma apart_push w new s : apart w (Log.push new w) s.
Proof. split; [done|]. intros Hq. split; [by apply quiet_push | done]. Qed.

Lemma apart_stage w x st s : s <> x -> apart w (Log.set_stage x st w) s.
Proof.
  intros Hne. split; [|done]. cbn. by rewrite lookup_insert_ne.
Qed.

Lemma apart_said w x st tr s :
  s <> x ->
  (tr = [core_close] \/ exists e, tr = [emit x e]) ->
  apart w (Log.set_stage x st (Log.said tr w)) s.
Proof.
  intros Hne Htr. split.
  - cbn. by rewrite lookup_insert_ne.
  - intros Hq. split; [done|].
    unfold Log.said, Log.set_stage. cbn [Log.calls]. rewrite events_for_app.
    destruct Htr as [-> | [e ->]]; cbn; rewrite ?app_nil_r; try done.
    destruct (Nat.eqb_spec x s) as [->|_]; [done|]. by rewrite app_nil_r.
Qed.

Lemma apart_close_resumed w x s : s <> x -> apart w (Log.close_resumed w x) s.
Proof.
  intros Hne. unfold Log.close_resumed.
  destruct (Log.objects w !! x) as [this|] eqn:Ho; [|apply apart_refl].
  destruct (Log.closes w !! x) eqn:Hc; [apply apart_refl|].
  destruct (_ && _); [|apply apart_refl].
  destruct (bool_decide _); [|by apply apart_stage].
  set (w1 := Log.set_sessions (Log.splice_out x (Log.sessions w))
               (Log.set_object x (Hypercore.close_fields this) w)).
  assert (H1 : apart w w1 s).
  { split; [done|]. intros Hq. split; [by apply quiet_spliced | done]. }
  destruct (Log.splice_out x (Log.sessions w)) as [|other [|y rest]].
  - destruct (Session.core this).
    + eapply apart_trans; [exact H1|]. apply apart_said; auto.
    + eapply apart_trans; [exact H1|]. by apply apart_stage.
  - destruct (Session.autoClose this).
    + eapply apart_trans; [exact H1|].
      eapply apart_trans; [apply apart_calm, (calm_close w1 other)|].
      by apply apart_stage.
    + eapply apart_trans; [exact H1|]. apply apart_said; eauto.
  - eapply apart_trans; [exact H1|]. apply apart_said; eauto.
Qed.

Lemma apart_close_settled w x k s :
  s <> x -> apart w (Log.close_settled w x k) s.
Proof.
  intros Hne. unfold Log.close_settled.
  destruct (Log.closes w !! x) as [[other| | |]|]; try apply apart_refl.
  - destruct (Log.closes w !! other) as [[| | |]|]; try apply apart_refl.
    + apply apart_said; eauto.
    + by apply apart_stage.
  - destruct k; [apply apart_said; eauto | by apply apart_stage].
Qed.

Lemma apart_close_failed w x s : s <> x -> apart w (Log.close_failed w x) s.
Proof.
  intros Hne. unfold Log.close_failed.
  destruct (Log.objects w !! x) as [this|]; [|apply apart_refl].
  destruct (Log.closes w !! x) eqn:Hc; [apply apart_refl|].
  destruct (_ && _); [|apply apart_refl].
  by apply apart_stage.
Qed.

(** Once the [_close] of a session has started, no step but the end of
    that [_close] comes near the session. *)
Lemma step_apart junk engine_truncate engine_append w o s :
  is_Some (Log.closes w !! s) ->
  match o with
  | Log.op_close_settled x _ => s <> x
  | _ => True
  end ->
  apart w (Log.step junk engine_truncate engine_append w o) s.
Proof.
  intros Hst Ho.
  pose proof (step_calm junk engine_truncate engine_append w o) as Hcalm.
  destruct o as [x blocks | x n f | root status bitfield value from
                | root index value from | root added peer updated
                | parent opts | parent | from key opts | x src | x key opts
                | x opts | x | x | x | x k | x | x index opts
                | x index fork b];
    try (by apply apart_calm); cbn [Log.step].
  - destruct (session_pushes w parent opts)
      as [-> | (this & new & _ & _ & _ & ->)];
      [apply apart_refl | apply apart_push].
  - destruct (snapshot_pushes w parent)
      as [-> | (this & new & _ & _ & _ & ->)];
      [apply apart_refl | apply apart_push].
  - destruct (join_pushes w from key opts) as [-> | (new & ->)];
      [apply apart_refl | apply apart_push].
  - destruct (decide (s = x)) as [->|Hne].
    + rewrite close_resumed_started by done. apply apart_refl.
    + by apply apart_close_resumed.
  - by apply apart_close_settled.
  - destruct (decide (s = x)) as [->|Hne].
    + rewrite close_failed_started by done. apply apart_refl.
    + by apply apart_close_failed.
Qed.

Lemma winding_down_refl w s : hushed w s -> winding_down w w s.
Proof.
  intros Hh. split; [done|]. split; [done|].
  exists []. by rewrite app_nil_r.
Qed.

Lemma winding_down_trans w1 w2 w3 s :
  winding_down w1 w2 s -> winding_down w2 w3 s -> winding_down w1 w3 s.
Proof.
  intros (_ & Hr1 & l1 & E1 & F1 & N1) (Hh & Hr2 & l2 & E2 & F2 & N2).
  split; [done|]. split; [auto|].
  exists (l1 ++ l2). rewrite E2, E1, app_assoc. split; [done|]. split.
  - apply Forall_app. by split.
  - intros H. by rewrite N1, N2 by auto.
Qed.

Lemma winding_down_apart w w' s : apart w w' s -> hushed w s -> winding_down w w' s.
Proof.
  intros [Hcl Hq] [Hqs Hst]. destruct (Hq Hqs) as [Hq' He].
  split; [split; [done | by rewrite Hcl]|]. split; [by rewrite Hcl|].
  exists []. by rewrite app_nil_r.
Qed.

Lemma winding_down_close_settled w s k :
  hushed w s -> winding_down w (Log.close_settled w s k) s.
Proof.
  intros Hh.
  assert (Hret : forall st last,
            Log.closes w !! s = Some st -> st <> Log.Returned ->
            winding_down w
              (Log.set_stage s Log.Returned
                 (Log.said [emit s (ev_close last)] w)) s).
  { intros st last Hst Hne. destruct Hh as [Hq _]. split; [|split].
    - split; [done|]. cbn. rewrite lookup_insert_eq. by eexists.
    - intros H. congruence.
    - exists [ev_close last]. split; [apply events_for_emit_self|].
      split; [by repeat constructor|]. intros H. congruence. }
  assert (Hthr : forall st,
            Log.closes w !! s = Some st -> st <> Log.Returned ->
            winding_down w (Log.set_stage s Log.Thrown w) s).
  { intros st Hst Hne. destruct Hh as [Hq _]. split; [|split].
    - split; [done|]. cbn. rewrite lookup_insert_eq. by eexists.
    - intros H. congruence.
    - exists []. rewrite app_nil_r. split; [done|].
      split; [constructor | done]. }
  unfold Log.close_settled.
  destruct (Log.closes w !! s) as [[other| | |]|] eqn:Hc;
    try (by apply winding_down_refl).
  - destruct (Log.closes w !! other) as [[| | |]|];
      try (by apply winding_down_refl).
    + by eapply Hret.
    + by eapply Hthr.
  - destruct k; [by eapply Hret | by eapply Hthr].
Qed.

Lemma winding_down_step junk engine_truncate engine_append w o s :
  hushed w s ->
  winding_down w (Log.step junk engine_truncate engine_append w o) s.
Proof.
  intros Hh.
  assert (Hother : match o with
                   | Log.op_close_settled x _ => s <> x
                   | _ => True
                   end ->
                   winding_down w
                     (Log.step junk engine_truncate engine_append w o) s).
  { intros Ho. apply winding_down_apart; [|done].
    apply step_apart; [by destruct Hh | done]. }
  destruct o; try (by apply Hother).
  destruct (decide (s = s0)) as [->|Hne]; [|by apply Hother].
  by apply winding_down_close_settled.
Qed.

Lemma winding_down_run junk engine_truncate engine_append ops :
  forall w s,
  hushed w s ->
  winding_down w (Log.run junk engine_truncate engine_append w ops) s.
Proof.
  induction ops as [|o ops IH]; intros w s Hh; [by apply winding_down_refl|].
  cbn. eapply winding_down_trans.
  - by apply (winding_down_step junk engine_truncate engine_append w o).
  - apply IH.
    by destruct (winding_down_step junk engine_truncate engine_append w o s Hh).
Qed.

(** Where at most one close event may stand, and last, what is added of
    close events is one at most. *)
Lemma close_bound l0 l :
  close_last_once (l0 ++ l) ->
  Forall (fun e => is_close e = true) l ->
  l = [] \/ exists last, l = [ev_close last] /\ no_close l0.
Proof.
  assert (Hnone : forall k, no_close k ->
            Forall (fun e => is_close e = true) k -> k = []).
  { intros [|e k] Hn Hk; [done|].
    apply Forall_cons in Hn as [Hn _]. apply Forall_cons in Hk as [Hk _].
    congruence. }
  intros [Hn | (l1 & last & Heq & Hn1)] Hl.
  - apply Forall_app in Hn as [_ Hn]. left. by apply Hnone.
  - destruct l as [|e l _] using rev_ind; [by left|]. right.
    rewrite app_assoc in Heq. apply app_inj_tail in Heq as [<- ->].
    apply Forall_app in Hl as [Hl _]. apply Forall_app in Hn1 as [Hn0 Hn1].
    rewrite (Hnone l Hn1 Hl). by exists last.
Qed.

Lemma all_registered_calm w w' : calm w w' -> all_registered w -> all_registered w'.
Proof.
  intros (Hcl & Harr & Hlen & Hobj & _) Hw i this' Hi Hc. rewrite Harr.
  destruct (lookup_lt_is_Some_2 (Log.objects w) i) as [this Ho].
  { rewrite <- Hlen. by eapply lookup_lt_Some. }
  destruct (Hobj _ _ Ho) as (x & Hx & _ & Hcg & _).
  rewrite Hi in Hx. injection Hx as <-.
  apply (Hw i this Ho). destruct (Session.closing this); [|done].
  rewrite Hcg in Hc; done.
Qed.

Lemma closed_with_last_calm w w' :
  calm w w' -> closed_with_last w -> closed_with_last w'.
Proof.
  intros (_ & Harr & _ & _ & tr & Hcalls & Hc & _) Hw.
  unfold closed_with_last in *.
  by rewrite Hcalls, core_closes_app, Hc, Harr, Nat.add_0_r.
Qed.

Lemma closed_with_last_zero w :
  core_closes (Log.calls w) = 0%nat -> closed_with_last w.
Proof. intros H. split; lia. Qed.

Lemma all_registered_push w new : all_registered w -> all_registered (Log.push new w).
Proof.
  intros Hw i this Hi Hc. cbn in *.
  apply lookup_app_Some in Hi as [Hi | [Hle Hi]]; apply elem_of_app.
  - left. eauto.
  - right. apply list_lookup_singleton_Some in Hi as [? _].
    apply list_elem_of_singleton. lia.
Qed.

Lemma closed_with_last_push w parent this new :
  all_registered w ->
  Log.objects w !! parent = Some this -> Session.closing this = false ->
  closed_with_last w -> closed_with_last (Log.push new w).
Proof.
  intros Hreg Hp Hc [Hle Hone]. pose proof (Hreg _ _ Hp Hc) as Hin.
  split; [done|]. cbn [Log.calls Log.push]. intros H1.
  rewrite (Hone H1) in Hin. by apply elem_of_nil in Hin.
Qed.

Lemma kept_close_resumed w s :
  all_registered w -> closed_with_last w ->
  all_registered (Log.close_resumed w s)
  /\ closed_with_last (Log.close_resumed w s).
Proof.
  intros Hreg Hlast. unfold Log.close_resumed.
  destruct (Log.objects w !! s) as [this|] eqn:Ho; [|done].
  destruct (Log.closes w !! s) eqn:Hc; [done|].
  destruct (Session.closing this && Session.opened this) eqn:Hgo; [|done].
  apply andb_true_iff in Hgo as [Hcg Hop].
  destruct (bool_decide (s ∈ Log.sessions w)) eqn:Hin; [|done].
  apply bool_decide_eq_true in Hin.
  assert (H0 : core_closes (Log.calls w) = 0%nat).
  { destruct Hlast as [Hle Hone].
    destruct (core_closes (Log.calls w)) as [|[|n]]; [done| |lia].
    rewrite Hone in Hin by done. by apply elem_of_nil in Hin. }
  set (w1 := Log.set_sessions (Log.splice_out s (Log.sessions w))
               (Log.set_object s (Hypercore.close_fields this) w)).
  assert (Hreg1 : all_registered w1).
  { intros i x Hi Hx.
    change (<[s := Hypercore.close_fields this]> (Log.objects w) !! i = Some x)
      in Hi.
    change (i ∈ Log.splice_out s (Log.sessions w)).
    destruct (decide (i = s)) as [->|Hne].
    - rewrite list_lookup_insert_eq in Hi by (by eapply lookup_lt_Some).
      injection Hi as <-. cbn in Hx. congruence.
    - rewrite list_lookup_insert_ne in Hi by done.
      apply splice_out_keeps; [by eapply Hreg | done]. }
  assert (Hz1 : core_closes (Log.calls w1) = 0%nat) by done.
  destruct (Log.splice_out s (Log.sessions w)) as [|other [|y rest]] eqn:Hrest.
  - destruct (Session.core this).
    + split; [exact Hreg1|]. split.
      * cbn [Log.calls Log.set_stage Log.said].
        rewrite core_closes_app, Hz1. cbn. lia.
      * done.
    + split; [exact Hreg1 | by apply closed_with_last_zero].
  - destruct (Session.autoClose this).
    + pose proof (calm_close w1 other) as Hcalm. split.
      * change (all_registered (Log.close w1 other)).
        by apply (all_registered_calm w1).
      * change (closed_with_last (Log.close w1 other)).
        apply (closed_with_last_calm w1 (Log.close w1 other) Hcalm).
        by apply closed_with_last_zero.
    + split; [exact Hreg1|]. apply closed_with_last_zero.
      cbn [Log.calls Log.set_stage Log.said].
      by rewrite core_closes_app, Hz1.
  - split; [exact Hreg1|]. apply closed_with_last_zero.
    cbn [Log.calls Log.set_stage Log.said].
    by rewrite core_closes_app, Hz1.
Qed.

Lemma kept_close_settled w s k :
  all_registered w -> closed_with_last w ->
  all_registered (Log.close_settled w s k)
  /\ closed_with_last (Log.close_settled w s k).
Proof.
  intros Hreg Hlast.
  assert (Hsaid : forall st e,
            closed_with_last (Log.set_stage s st (Log.said [emit s e] w))).
  { intros st e. unfold closed_with_last in *.
    cbn [Log.calls Log.sessions Log.set_stage Log.said].
    rewrite core_closes_app. cbn. by rewrite Nat.add_0_r. }
  unfold Log.close_settled.
  destruct (Log.closes w !! s) as [[other| | |]|]; try done.
  - destruct (Log.closes w !! other) as [[| | |]|]; try done.
  - by destruct k.
Qed.

Lemma kept_close_failed w s :
  all_registered w -> closed_with_last w ->
  all_registered (Log.close_failed w s)
  /\ closed_with_last (Log.close_failed w s).
Proof.
  intros Hreg Hlast. unfold Log.close_failed.
  destruct (Log.objects w !! s) as [this|]; [|done].
  destruct (Log.closes w !! s); [done|].
  by destruct (_ && _).
Qed.

Lemma kept_step junk engine_truncate engine_append w o :
  match o with
  | Log.op_join _ _ _ => False
  | _ => True
  end ->
  all_registered w -> closed_with_last w ->
  all_registered (Log.step junk engine_truncate engine_append w o)
  /\ closed_with_last (Log.step junk engine_truncate engine_append w o).
Proof.
  intros Ho Hreg Hlast.
  pose proof (step_calm junk engine_truncate engine_append w o) as Hcalm.
  destruct o as [x blocks | x n f | root status bitfield value from
                | root index value from | root added peer updated
                | parent opts | parent | from key opts | x src | x key opts
                | x opts | x | x | x | x k | x | x index opts
                | x index fork b];
    try (split; [by apply (all_registered_calm w)
                | by apply (closed_with_last_calm w)]);
    cbn [Log.step].
  - destruct (session_pushes w parent opts)
      as [-> | (this & new & Hp & Hc & _ & ->)]; [done|].
    split; [by apply all_registered_push | by eapply closed_with_last_push].
  - destruct (snapshot_pushes w parent)
      as [-> | (this & new & Hp & Hc & _ & ->)]; [done|].
    split; [by apply all_registered_push | by eapply closed_with_last_push].
  - by apply kept_close_resumed.
  - by apply kept_close_settled.
  - by apply kept_close_failed.
Qed.

Lemma kept_run junk engine_truncate engine_append ops :
  forall w,
  no_join ops -> all_registered w -> closed_with_last w ->
  all_registered (Log.run junk engine_truncate engine_append w ops)
  /\ closed_with_last (Log.run junk engine_truncate engine_append w ops).
Proof.
  induction ops as [|o ops IH]; intros w Hops Hreg Hlast; [done|].
  apply Forall_cons in Hops as [Ho Hops].
  destruct (kept_step junk engine_truncate engine_append w o) as [H1 H2];
    [by destruct o | done | done |].
  cbn. by apply IH.
Qed.

(** X17. Over any sequence of log steps in which no session is opened
    from another one with the option [from], starting from a log whose
    array holds every session that was not asked to close and whose Core
    has not been closed, the Core is closed at most once, and once it is
    closed the array is empty; every session that was not asked to close
    is still in the array. The [_close] that closes the Core is the one
    that empties the array: when it goes on for the one session left, it
    takes the session out and calls the close of the Core. *)
Theorem core_closed_with_last_session junk engine_truncate engine_append w ops :
  all_registered w ->
  core_closes (Log.calls w) = 0%nat ->
  no_join ops ->
  let w' := Log.run junk engine_truncate engine_append w ops in
  (core_closes (Log.calls w') <= 1)%nat
  /\ (core_closes (Log.calls w') = 1%nat -> Log.sessions w' = [])
  /\ all_registered w'
  /\ forall s this,
       Log.objects w' !! s = Some this -> Log.closes w' !! s = None ->
       Session.closing this = true -> Session.opened this = true ->
       is_Some (Session.core this) ->
       Log.sessions w' = [s] ->
       Log.sessions (Log.close_resumed w' s) = []
       /\ Log.calls (Log.close_resumed w' s) = Log.calls w' ++ [core_close].
Proof.
  intros Hreg H0 Hops.
  destruct (kept_run junk engine_truncate engine_append ops w Hops Hreg)
    as [Hreg' [Hle Hone]]; [by apply closed_with_last_zero|].
  cbn zeta. split; [done|]. split; [done|]. split; [done|].
  intros s this Ho Hc Hcg Hop [c Hcore] Harr.
  rewrite (close_resumed_eq _ s this) by (rewrite ?Harr; auto; by left).
  cbn zeta. rewrite Harr. cbn [Log.splice_out]. rewrite Nat.eqb_refl, Hcore.
  done.
Qed.

Lemma core_closed_with_last_session_witness :
  core_closes
    (Log.calls (Log.run Sample.zeros Sample.engine_truncate
                  Sample.engine_append Sample.log3 Sample.close_all)) = 1%nat
  /\ Log.sessions (Log.run Sample.zeros Sample.engine_truncate
                     Sample.engine_append Sample.log3 Sample.close_all) = [].
Proof.
  split; [vm_compute; reflexivity|].
  refine (proj1 (proj2 (core_closed_with_last_session Sample.zeros
                          Sample.engine_truncate Sample.engine_append
                          Sample.log3 Sample.close_all _ _ _)) _).
  - intros [|i] this Hi Hc; [by left|]. vm_compute in Hi. discriminate Hi.
  - vm_compute. reflexivity.
  - vm_compute. repeat constructor.
  - vm_compute. reflexivity.
Defined.

(** With the option [from] a session can enter the array when it has been
    emptied, and the Core is closed again when that session closes. *)
Example core_closed_twice_after_from :
  core_closes
    (Log.calls (Log.run Sample.zeros Sample.engine_truncate
                  Sample.engine_append Sample.log3 Sample.join_closed))
  = 2%nat.
Proof. vm_compute. reflexivity. Qed.


(** X19. Over any sequence of log steps, starting from a log whose array
    holds no session twice, in which no [_close] has started and no close
    event was sent: a session is sent at most one close event, and no
    event after it; it is sent one only by its own [_close], which has
    returned by then and has taken the session out of the array. When the
    [_close] of a session of the array goes on after the opening, it sends
    close(false) and returns if other sessions are left (unless the one
    session left is to be closed automatically first), and if no session
    is left it calls the close of the Core and, when that has resolved,
    sends close(true). *)
Theorem close_event junk engine_truncate engine_append w ops s :
  registered_once w ->
  Log.closes w = ∅ ->
  closeless (Log.calls w) ->
  let w' := Log.run junk engine_truncate engine_append w ops in
  close_last_once (events_for s (Log.calls w'))
  /\ (forall last, ev_close last ∈ events_for s (Log.calls w') ->
        Log.closes w' !! s = Some Log.Returned /\ (s ∉ Log.sessions w'))
  /\ forall this,
       Log.objects w' !! s = Some this -> Log.closes w' !! s = None ->
       Session.closing this = true -> Session.opened this = true ->
       s ∈ Log.sessions w' ->
       (Log.splice_out s (Log.sessions w') = [] ->
        is_Some (Session.core this) ->
        Log.calls (Log.close_resumed w' s) = Log.calls w' ++ [core_close]
        /\ Log.calls (Log.close_settled (Log.close_resumed w' s) s (Normal tt))
           = Log.calls w' ++ [core_close; emit s (ev_close true)])
       /\ (Log.splice_out s (Log.sessions w') <> [] ->
           Session.autoClose this = false
           \/ length (Log.splice_out s (Log.sessions w')) <> 1%nat ->
           Log.calls (Log.close_resumed w' s)
             = Log.calls w' ++ [emit s (ev_close false)]
           /\ Log.sessions (Log.close_resumed w' s)
              = Log.splice_out s (Log.sessions w')
           /\ Log.closes (Log.close_resumed w' s) !! s = Some Log.Returned).
Proof.
  intros Hreg Hcl Hcalls.
  pose proof (orderly_run junk engine_truncate engine_append ops w
                (orderly_start w Hreg Hcl Hcalls)) as [_ Hall].
  cbn zeta. set (w' := Log.run junk engine_truncate engine_append w ops) in *.
  specialize (Hall s). unfold staged in Hall.
  assert (Hnone : forall last,
            no_close (events_for s (Log.calls w')) ->
            ev_close last ∈ events_for s (Log.calls w') -> False).
  { intros last Hn Hin. eapply Forall_forall in Hn; [|exact Hin]. done. }
  split; [|split].
  - destruct (Log.closes w' !! s) as [[other| | |]|];
      [left; apply Hall | left; apply Hall | apply Hall | by left | by left].
  - intros last Hin.
    destruct (Log.closes w' !! s) as [[other| | |]|];
      try (by destruct (Hnone last));
      try (destruct Hall as [Hn _]; by destruct (Hnone last)).
    by destruct Hall as [_ [? _]].
  - intros this Ho Hc Hcg Hop Hin.
    rewrite (close_resumed_eq w' s this) by done. cbn zeta. split.
    + intros -> [c ->]. split; [done|].
      unfold Log.close_settled.
      cbn [Log.closes Log.set_stage Log.said]. rewrite lookup_insert_eq.
      cbn [Log.calls Log.set_stage Log.said Log.set_sessions Log.set_object].
      by rewrite <- app_assoc.
    + intros Hrest Hauto.
      destruct (Log.splice_out s (Log.sessions w')) as [|other [|y rest]];
        [done| |].
      * destruct Hauto as [-> | Hlen]; [|done].
        split; [done|]. split; [done|].
        cbn [Log.closes Log.set_stage Log.said]. by rewrite lookup_insert_eq.
      * split; [done|]. split; [done|].
        cbn [Log.closes Log.set_stage Log.said]. by rewrite lookup_insert_eq.
Qed.

Lemma close_event_witness :
  close_last_once
    (events_for 1%nat
       (Log.calls (Log.run Sample.zeros Sample.engine_truncate
                     Sample.engine_append Sample.log3 Sample.close_all))).
Proof.
  refine (proj1 (close_event Sample.zeros Sample.engine_truncate
                   Sample.engine_append Sample.log3 Sample.close_all 1%nat
                   _ _ _)).
  - split; [apply NoDup_singleton|].
    intros x Hx. apply list_elem_of_singleton in Hx as ->. cbn. lia.
  - reflexivity.
  - constructor.
Defined.

(** The session that was opened second and closed first is sent its
    close(false) while the other one is left, and nothing after it. *)
Example close_event_in_order :
  events_for 1%nat
    (Log.calls (Log.run Sample.zeros Sample.engine_truncate
                  Sample.engine_append Sample.log3 Sample.close_all))
  = [ev_ready; ev_close false]
  /\ events_for 0%nat
       (Log.calls (Log.run Sample.zeros Sample.engine_truncate
                     Sample.engine_append Sample.log3 Sample.close_all))
     = [ev_close true].
Proof. vm_compute. done. Qed.

(** X20. When the [_close] of a session with [autoClose] goes on and
    leaves exactly one other session in the array, it calls the [close()]
    of that session and waits: it sends nothing, and the end of its wait
    changes nothing while the [_close] of the other session has neither
    returned nor thrown. When the other session, opened on the Core, has
    gone through its own [_close], the array is empty, the Core was closed
    once, the other session was sent close(true) and only then is the
    first one sent close(false). *)
Theorem autoClose_closes_the_last junk engine_truncate engine_append
    w s other this that k :
  Log.objects w !! s = Some this ->
  Log.objects w !! other = Some that ->
  s ∈ Log.sessions w ->
  Log.splice_out s (Log.sessions w) = [other] ->
  s <> other ->
  Log.closes w !! s = None ->
  Log.closes w !! other = None ->
  Session.closing this = true ->
  Session.opened this = true ->
  Session.autoClose this = true ->
  Session.opened that = true ->
  is_Some (Session.core that) ->
  let w1 := Log.close_resumed w s in
  let w2 := Log.run junk engine_truncate engine_append w1
              [Log.op_close_resumed other;
               Log.op_close_settled other (Normal tt);
               Log.op_close_settled s k] in
  Log.sessions w1 = [other]
  /\ Log.calls w1 = Log.calls w
  /\ Log.closes w1 !! s = Some (Log.AwaitOther other)
  /\ (exists that', Log.objects w1 !! other = Some that'
                    /\ Session.closing that' = true)
  /\ Log.close_settled w1 s k = w1
  /\ Log.sessions w2 = []
  /\ Log.calls w2
     = Log.calls w ++ [core_close; emit other (ev_close true);
                       emit s (ev_close false)]
  /\ Log.closes w2 !! s = Some Log.Returned
  /\ Log.closes w2 !! other = Some Log.Returned.
Proof.
  intros Ho Hot Hin Hrest Hne Hcs Hco Hcg Hop Hauto Hopt [c Hcore].
  cbn zeta.
  set (wA := Log.set_sessions [other]
               (Log.set_object s (Hypercore.close_fields this) w)).
  assert (H1 : Log.close_resumed w s
               = Log.set_stage s (Log.AwaitOther other) (Log.close wA other)).
  { rewrite (close_resumed_eq w s this) by done. cbn zeta.
    by rewrite Hrest, Hauto. }
  assert (HoA : Log.objects wA !! other = Some that).
  { change (<[s := Hypercore.close_fields this]> (Log.objects w) !! other
            = Some that).
    by rewrite list_lookup_insert_ne. }
  assert (Hclose : exists that',
            Log.objects (Log.close wA other) !! other = Some that'
            /\ Session.closing that' = true
            /\ Session.opened that' = true
            /\ Session.core that' = Some c
            /\ Log.sessions (Log.close wA other) = [other]
            /\ Log.calls (Log.close wA other) = Log.calls w
            /\ Log.closes (Log.close wA other) = Log.closes w).
  { unfold Log.close. rewrite HoA.
    destruct (Session.closing that) eqn:Hct.
    - by exists that.
    - exists (Session.set_closing true that).
      change (Log.objects (Log.set_object other (Session.set_closing true that) wA))
        with (<[other := Session.set_closing true that]> (Log.objects wA)).
      rewrite list_lookup_insert_eq by (by eapply lookup_lt_Some). done. }
  destruct Hclose as (that' & Ho1 & Hcg1 & Hop1 & Hcore1 & Harr1 & Hcalls1 & Hcl1).
  set (w1 := Log.close_resumed w s) in *.
  assert (Ho1' : Log.objects w1 !! other = Some that') by (by rewrite H1).
  assert (Harr1' : Log.sessions w1 = [other]) by (by rewrite H1).
  assert (Hcalls1' : Log.calls w1 = Log.calls w) by (by rewrite H1).
  assert (Hcl1' : Log.closes w1 = <[s := Log.AwaitOther other]> (Log.closes w)).
  { rewrite H1. cbn [Log.closes Log.set_stage]. by rewrite Hcl1. }
  assert (Hst1 : Log.closes w1 !! s = Some (Log.AwaitOther other))
    by (by rewrite Hcl1', lookup_insert_eq).
  assert (Hso1 : Log.closes w1 !! other = None)
    by (by rewrite Hcl1', lookup_insert_ne).
  split; [done|]. split; [done|]. split; [done|].
  split; [by exists that'|].
  split; [unfold Log.close_settled; by rewrite Hst1, Hso1|].
  cbn [Log.run fold_left Log.step].
  assert (H2 : Log.close_resumed w1 other
               = Log.set_stage other Log.AwaitCore
                   (Log.said [core_close]
                      (Log.set_sessions []
                         (Log.set_object other (Hypercore.close_fields that')
                            w1)))).
  { rewrite (close_resumed_eq w1 other that')
      by (rewrite ?Harr1'; auto; by left).
    cbn zeta. rewrite Harr1'. cbn [Log.splice_out].
    by rewrite Nat.eqb_refl, Hcore1. }
  rewrite H2. clear H2.
  set (w2 := Log.set_stage other Log.AwaitCore
               (Log.said [core_close]
                  (Log.set_sessions []
                     (Log.set_object other (Hypercore.close_fields that') w1)))).
  assert (Hcl2 : Log.closes w2 = <[other := Log.AwaitCore]> (Log.closes w1))
    by done.
  assert (Hcalls2 : Log.calls w2 = Log.calls w ++ [core_close])
    by (by rewrite <- Hcalls1').
  rewrite (close_settled_core w2 other) by (by rewrite Hcl2, lookup_insert_eq).
  set (w3 := Log.set_stage other Log.Returned
               (Log.said [emit other (ev_close true)] w2)).
  assert (Hcl3 : Log.closes w3 = <[other := Log.Returned]> (Log.closes w2))
    by done.
  assert (Hcalls3 : Log.calls w3
                    = Log.calls w ++ [core_close; emit other (ev_close true)]).
  { change (Log.calls w3) with (Log.calls w2 ++ [emit other (ev_close true)]).
    by rewrite Hcalls2, <- app_assoc. }
  rewrite (close_settled_other w3 s other).
  - split; [done|]. split; [|split].
    + change (Log.calls w3 ++ [emit s (ev_close false)]
              = Log.calls w ++ [core_close; emit other (ev_close true);
                                emit s (ev_close false)]).
      by rewrite Hcalls3, <- app_assoc.
    + cbn [Log.closes Log.set_stage Log.said]. by rewrite lookup_insert_eq.
    + cbn [Log.closes Log.set_stage Log.said].
      rewrite lookup_insert_ne by done. by rewrite Hcl3, lookup_insert_eq.
  - rewrite Hcl3, lookup_insert_ne by done.
    by rewrite Hcl2, lookup_insert_ne.
  - by rewrite Hcl3, lookup_insert_eq.
Qed.

Lemma autoClose_closes_the_last_witness :
  Log.calls
    (Log.run Sample.zeros Sample.engine_truncate Sample.engine_append
       (Log.close_resumed Sample.log_pair 0%nat)
       [Log.op_close_resumed 1%nat;
        Log.op_close_settled 1%nat (Normal tt);
        Log.op_close_settled 0%nat (Normal tt)])
  = Log.calls Sample.log_pair
    ++ [core_close; emit 1%nat (ev_close true); emit 0%nat (ev_close false)].
Proof.
  refine (proj1 (proj2 (proj2 (proj2 (proj2 (proj2 (proj2
            (autoClose_closes_the_last Sample.zeros Sample.engine_truncate
               Sample.engine_append Sample.log_pair 0%nat 1%nat
               (Session.set_closing true (Sample.writer Sample.auto_close))
               (Sample.writer Sample.auto_close) (Normal tt)
               _ _ _ _ _ _ _ _ _ _ _ _)))))))).
  - vm_compute. reflexivity.
  - vm_compute. reflexivity.
  - by left.
  - vm_compute. reflexivity.
  - lia.
  - vm_compute. reflexivity.
  - vm_compute. reflexivity.
  - vm_compute. reflexivity.
  - vm_compute. reflexivity.
  - vm_compute. reflexivity.
  - vm_compute. reflexivity.
  - vm_compute. by eexists.
Defined.

(** X21. Once the [_close] of a session has taken it out of the array, no
    later step of the log (Core updates, uploads, peer updates, appends,
    truncates, new sessions, openings, reads, the closes of other
    sessions) sends it anything: over any sequence of steps the events it
    was sent are as they were, but for the one close event of its own
    [_close] if that had not returned yet. *)
Theorem closed_session_hears_nothing junk engine_truncate engine_append
    w0 ops0 ops s :
  registered_once w0 ->
  Log.closes w0 = ∅ ->
  closeless (Log.calls w0) ->
  let w := Log.run junk engine_truncate engine_append w0 ops0 in
  let w' := Log.run junk engine_truncate engine_append w ops in
  hushed w s ->
  exists l,
    events_for s (Log.calls w') = events_for s (Log.calls w) ++ l
    /\ (l = [] \/ exists last, l = [ev_close last]
                               /\ no_close (events_for s (Log.calls w)))
    /\ (Log.closes w !! s = Some Log.Returned -> l = [])
    /\ hushed w' s.
Proof.
  intros Hreg Hcl Hcalls. cbn zeta. intros Hh.
  set (w := Log.run junk engine_truncate engine_append w0 ops0) in *.
  assert (Hw : orderly w).
  { apply orderly_run. by apply orderly_start. }
  destruct (winding_down_run junk engine_truncate engine_append ops w s Hh)
    as (Hh' & _ & l & He & Hl & Hret).
  pose proof (orderly_run junk engine_truncate engine_append ops w Hw)
    as [_ Hall].
  exists l. split; [done|]. split; [|by split].
  apply close_bound; [|done]. rewrite <- He.
  specialize (Hall s). unfold staged in Hall.
  destruct (Log.closes (Log.run junk engine_truncate engine_append w ops) !! s)
    as [[other| | |]|];
    [left; apply Hall | left; apply Hall | apply Hall | by left | by left].
Qed.

Lemma closed_session_hears_nothing_witness :
  exists l,
    events_for 1%nat
      (Log.calls (Log.run Sample.zeros Sample.engine_truncate
                    Sample.engine_append
                    (Log.run Sample.zeros Sample.engine_truncate
                       Sample.engine_append Sample.log3 Sample.open_and_close)
                    Sample.grow_then_cut))
    = events_for 1%nat
        (Log.calls (Log.run Sample.zeros Sample.engine_truncate
                      Sample.engine_append Sample.log3 Sample.open_and_close))
      ++ l
    /\ l = [].
Proof.
  destruct (closed_session_hears_nothing Sample.zeros Sample.engine_truncate
              Sample.engine_append Sample.log3 Sample.open_and_close
              Sample.grow_then_cut 1%nat) as (l & He & _ & Hl & _).
  - split; [apply NoDup_singleton|].
    intros x Hx. apply list_elem_of_singleton in Hx as ->. cbn. lia.
  - reflexivity.
  - constructor.
  - split; [split|].
    + vm_compute. intros Hx. apply list_elem_of_singleton in Hx. discriminate Hx.
    + eexists. split; [vm_compute; reflexivity|]. left. reflexivity.
    + vm_compute. by eexists.
  - exists l. split; [exact He|]. apply Hl. vm_compute. reflexivity.
Defined.

(** The session that closed hears nothing of the append and the truncate
    that come after, while the session that is left is sent both. *)
Example closed_session_misses_updates :
  let w := Log.run Sample.zeros Sample.engine_truncate Sample.engine_append
             (Log.run Sample.zeros Sample.engine_truncate
                Sample.engine_append Sample.log3 Sample.open_and_close)
             Sample.grow_then_cut in
  events_for 1%nat (Log.calls w) = [ev_ready; ev_close false]
  /\ events_for 0%nat (Log.calls w) = [ev_truncate 2 1].
Proof. vm_compute. done. Qed.

(** A session that was asked to close while it is still in the array,
    because its [_close] waits for the opening, is still sent the events
    of the Core. *)
Example closing_session_still_hears :
  let w := Log.run Sample.zeros Sample.engine_truncate Sample.engine_append
             Sample.log3
             ([Log.op_session 0%nat Options.empty;
               Log.op_close 1%nat]
              ++ Sample.grow_then_cut) in
  (exists this, Log.objects w !! 1%nat = Some this
                /\ Session.closing this = true)
  /\ events_for 1%nat (Log.calls w) = [ev_truncate 2 1].
Proof. split; [eexists; split|]; vm_compute; reflexivity. Qed.

(** ** Protocol streams and default storage *)

(** X22. On a stream that refers to a secure stream, [createProtocolStream]
    returns the stream it was given and leaves the secure stream with a
    protocol; every other secure stream is untouched, and so is this one
    when it had a protocol already. A second call on the same stream, with
    whatever options, returns the same stream and changes nothing: the
    protocol is made once and a later [keepAlive] is not looked at. *)
Theorem createProtocolStream_once o n opts opts' fresh fresh' raw raw' h :
  Duplex.noiseStream o = Some n ->
  let h1 := snd (createProtocolStream (IsStream o) opts fresh raw h) in
  fst (createProtocolStream (IsStream o) opts fresh raw h) = Stream o
  /\ is_Some (Noise.userData (h1 n))
  /\ (forall k, k <> n -> h1 k = h k)
  /\ (is_Some (Noise.userData (h n)) -> h1 = h)
  /\ createProtocolStream (IsStream o) opts' fresh' raw' h1 = (Stream o, h1).
Proof.
  intros Hn. unfold createProtocolStream. rewrite Hn.
  destruct (Noise.userData (h n)) as [p|] eqn:Hp; cbn [fst snd].
  - rewrite ?Hp. split; [done|]. split; [by eexists|]. by rewrite ?Hp.
  - assert (Hstored : forall x, Noise.userData (store n x h n) = Noise.userData x).
    { intros x. unfold store. by rewrite Nat.eqb_refl. }
    rewrite !Hstored. cbn [Noise.userData].
    split; [done|]. split; [by eexists|]. split; [|split; [|done]].
    + intros k Hk. unfold store. by destruct (Nat.eqb_spec k n).
    + by intros [? ?].
Qed.

Lemma createProtocolStream_once_witness :
  createProtocolStream (IsStream (Duplex.mk (Some 4%nat)))
    (ProtocolOpts.mk None (Some false)) 0%nat (Duplex.mk None)
    (snd (createProtocolStream (IsStream (Duplex.mk (Some 4%nat)))
            (ProtocolOpts.mk None None) 9%nat (Duplex.mk None)
            (fun _ => Noise.mk None false)))
  = (Stream (Duplex.mk (Some 4%nat)),
     snd (createProtocolStream (IsStream (Duplex.mk (Some 4%nat)))
            (ProtocolOpts.mk None None) 9%nat (Duplex.mk None)
            (fun _ => Noise.mk None false))).
Proof.
  exact (proj2 (proj2 (proj2 (proj2
    (createProtocolStream_once (Duplex.mk (Some 4%nat)) 4%nat
       (ProtocolOpts.mk None None) (ProtocolOpts.mk None (Some false))
       9%nat 0%nat (Duplex.mk None) (Duplex.mk None)
       (fun _ => Noise.mk None false) eq_refl))))).
Defined.

(** X23. A stream that refers to no secure stream is refused with the
    invalid-stream error and nothing is changed, whether it comes as the
    first argument or as [opts.stream]. With no stream given at all the
    call is never refused: it returns the raw stream of a new secure
    stream, which gets an error listener and a protocol whose keep-alive is
    on unless [opts.keepAlive] is false, and no other secure stream is
    touched. *)
Theorem createProtocolStream_streams o b opts fresh raw h :
  (Duplex.noiseStream o = None ->
   createProtocolStream (IsStream o) opts fresh raw h = (InvalidStream, h)
   /\ (ProtocolOpts.stream opts = Some o ->
       createProtocolStream (IsInitiator b) opts fresh raw h
       = (InvalidStream, h)))
  /\ (ProtocolOpts.stream opts = None ->
      let h1 := snd (createProtocolStream (IsInitiator b) opts fresh raw h) in
      fst (createProtocolStream (IsInitiator b) opts fresh raw h) = Stream raw
      /\ h1 fresh
         = Noise.mk
             (Some (Protocol.mk
                      (negb (bool_decide (ProtocolOpts.keepAlive opts = Some false)))))
             true
      /\ forall k, k <> fresh -> h1 k = h k).
Proof.
  split.
  - intros Hn. unfold createProtocolStream. split.
    + by rewrite Hn.
    + intros ->. by rewrite Hn.
  - intros Hs. unfold createProtocolStream. rewrite Hs.
    assert (Hstored : forall x g, store fresh x g fresh = x).
    { intros x g. unfold store. by rewrite Nat.eqb_refl. }
    rewrite Hstored. cbn.
    split; [done|]. split.
    + rewrite Hstored.
      by destruct (ProtocolOpts.keepAlive opts) as [[]|].
    + intros k Hk. unfold store. by destruct (Nat.eqb_spec k fresh).
Qed.

Lemma createProtocolStream_streams_witness :
  createProtocolStream (IsStream (Duplex.mk None))
    (ProtocolOpts.mk None None) 0%nat (Duplex.mk None)
    (fun _ => Noise.mk None false)
  = (InvalidStream, fun _ => Noise.mk None false).
Proof.
  exact (proj1 (proj1 (createProtocolStream_streams (Duplex.mk None) true
                         (ProtocolOpts.mk None None) 0%nat (Duplex.mk None)
                         (fun _ => Noise.mk None false)) eq_refl)).
Defined.

Lemma list_ascii_of_string_append (a b : string) :
  list_ascii_of_string (String.append a b)
  = list_ascii_of_string a ++ list_ascii_of_string b.
Proof. induction a as [|c a IH]; [done|]. simpl. by f_equal. Qed.

Lemma endsWith_spec name suffix :
  endsWith name suffix = true
  <-> exists front, name = String.append front suffix.
Proof.
  unfold endsWith. rewrite bool_decide_eq_true. split.
  - intros [k Hk]. exists (string_of_list_ascii k).
    rewrite <- (string_of_list_ascii_of_string name), Hk.
    rewrite <- (list_ascii_of_string_of_list_ascii k) at 1.
    rewrite <- list_ascii_of_string_append.
    by rewrite string_of_list_ascii_of_string.
  - intros [front ->]. exists (list_ascii_of_string front).
    apply list_ascii_of_string_append.
Qed.

Lemma toLock_not_empty lock : toLock lock <> EmptyString.
Proof.
  unfold toLock. destruct lock as [l|]; [|done].
  destruct (String.eqb_spec l EmptyString); done.
Qed.

(** X24. The file that [defaultStorage]'s [createFile] opens for a name is
    locked exactly when the name is the lock name or ends with a slash and
    the lock name, where the lock name is [opts.lock] or, when that is
    missing or empty, [oplog]; it keeps the directory and the name, and is
    never opened sparse. *)
Theorem createFile_lock directory lock name :
  (File.lock (createFile directory lock name) = true
   <-> name = toLock lock
       \/ exists front,
            name = String.append front (String.append "/" (toLock lock)))
  /\ File.sparse (createFile directory lock name) = false
  /\ File.directory (createFile directory lock name) = directory
  /\ File.name (createFile directory lock name) = name
  /\ toLock lock <> EmptyString
  /\ (toLock lock = "oplog"%string
      <-> lock = None \/ lock = Some EmptyString \/ lock = Some "oplog"%string).
Proof.
  split; [|split; [done|split; [done|split; [done|split]]]].
  - cbn [createFile File.lock]. rewrite orb_true_iff, String.eqb_eq.
    by rewrite endsWith_spec.
  - apply toLock_not_empty.
  - unfold toLock. destruct lock as [l|]; [|split; auto].
    destruct (String.eqb_spec l EmptyString) as [->|Hne].
    + split; auto.
    + split; [intros ->; by auto|].
      intros [?|[[= ->]|[= ->]]]; done.
Qed.

(** ** Upgrades *)

(** X25. On an opened session [update()] never waits for the opening. When
    the session has a signer it resolves to false without asking the
    Replicator, whatever the Replicator would answer; when it has none and
    a Replicator is attached it settles as the Replicator's upgrade request
    does. *)
Theorem update_asks_only_readers this opening requestUpgrade :
  lifecycle Opened this ->
  (is_Some (Session.sign this) ->
   Hypercore.update this opening requestUpgrade = Normal false)
  /\ (Session.sign this = None ->
      Session.replicator this = Some the_replicator ->
      Hypercore.update this opening requestUpgrade = requestUpgrade).
Proof.
  intros Hl. destruct (lifecycle_sound _ _ Hl) as (_ & _ & _ & Hop & Hw).
  assert (Hopened : Session.opened this = true) by (by apply Hop).
  specialize (Hw (or_intror eq_refl)).
  unfold Hypercore.update. rewrite after_opening_opened by done.
  cbn [bindc]. rewrite Hw. split.
  - by intros [sg ->].
  - intros -> Hr. cbn. unfold Hypercore.on_replicator. by rewrite Hr.
Qed.

Lemma update_asks_only_readers_witness :
  Hypercore.update
    (Hypercore.mark_opened
       (Session.set_writable true
          (Hypercore.fields None (Sample.with_sign (UserSigner 1)))))
    (Throw TypeError) (Normal true)
  = Normal false.
Proof.
  apply (update_asks_only_readers _ (Throw TypeError) (Normal true)
           signed_session_opens).
  by eexists.
Defined.
